(** * A shallow embedding of the crawler (frontier scheduler, transition
      prober post-processing, graph model, DOT exporter)

    The development follows [src/crawler/crawler.ts] in its latest variant
    (the one with synthetic [::TRANS::] / [::OPT::] nodes) and the
    label-diffing tail of [Extractor.discoverTransitions].

    Conventions.
    - JavaScript [number]s that the code uses as counters or budgets are
      integers [Z]; array lengths are [nat] and are injected with [Z.of_nat].
    - A [Set<string>] is a [gset string]; a [Record<string, T>] whose key
      order is observable (through [Object.keys]/[Object.entries]) is an
      insertion-ordered association list with unique keys.  The keys the
      crawler writes are canonical URLs and synthetic node ids; the order
      JavaScript gives to integer-like keys and the names inherited from
      [Object.prototype] are outside the model.
    - The browser and the DOM are not part of the repository.  Every
      dispatched visit asks an oracle, indexed by the number of the dispatch,
      for what the browser showed; a rejected promise is the value [Crashed].
    - The platform class [URL] and [String.prototype.toLowerCase] are an
      interface ([Platform]); the crawler is parametric in it.  A small
      executable instance ([Lite]) is given to run the code on concrete
      inputs: it keeps the structure the URL
      standard gives to a parsed URL (special schemes, authority, opaque
      paths, the setters that ignore opaque paths) and leaves out
      percent-encoding tables, dot segments, ports and host parsing. *)

From Stdlib Require Import ZArith String Ascii List Bool Lia.
From stdpp Require Import gmap strings list.

Import ListNotations.
Local Open Scope string_scope.
Local Open Scope list_scope.

(** String concatenation is written [+:+]; [++] is list concatenation. *)

(** ** JavaScript string primitives used by the crawler *)

(** [!!s] for a string: the empty string is the only falsy one. *)
Definition truthy (s : string) : bool := negb (s =? "").

(** [s.endsWith(t)] *)
Fixpoint endsWith (s t : string) : bool :=
  (s =? t) ||
  match s with
  | EmptyString => false
  | String _ s' => endsWith s' t
  end.

(** [s.replace(/\/+$/, "")]: drop the maximal run of slashes at the end. *)
Fixpoint stripTrailingSlashes (s : string) : string :=
  match s with
  | EmptyString => EmptyString
  | String c t =>
      let t' := stripTrailingSlashes t in
      if Ascii.eqb c "/" && (t' =? "") then EmptyString else String c t'
  end.

(** [s.replace(/c/g, r)] for a one-character pattern [c]. *)
Fixpoint replaceAll (c : ascii) (r : string) (s : string) : string :=
  match s with
  | EmptyString => EmptyString
  | String a t =>
      if Ascii.eqb a c then r +:+ replaceAll c r t else String a (replaceAll c r t)
  end.

(** [s.indexOf(t)], [s.includes(t)], [s.slice(i)], [s.slice(0, n)] *)
Definition indexOf (s t : string) : option nat := String.index 0 t s.
Definition includes (s t : string) : bool :=
  match indexOf s t with Some _ => true | None => false end.
Definition sliceFrom (i : nat) (s : string) : string :=
  substring i (String.length s - i) s.
Definition sliceTo (n : nat) (s : string) : string := substring 0 n s.

(** [a || b] on strings *)
Definition orElse (a b : string) : string := if truthy a then a else b.

(** [lines.join("\n")] *)
Definition newline : string := String (ascii_of_nat 10) EmptyString.
Definition joinLines (ls : list string) : string := String.concat newline ls.

(** ** The platform interface

    [url_parse raw] is [new URL(raw)], [None] when the constructor throws;
    [url_parse_rel href base] is [new URL(href, base)]. *)
Class Platform := {
  URL : Type;
  url_parse : string -> option URL;
  url_parse_rel : string -> string -> option URL;
  url_href : URL -> string;
  url_origin : URL -> string;
  url_protocol : URL -> string;
  url_pathname : URL -> string;
  url_search : URL -> string;
  url_set_hash : string -> URL -> URL;
  url_set_pathname : string -> URL -> URL;
  toLowerCase : string -> string
}.

(** ** Insertion-ordered records ([Record<string, T>]) *)

Section Alist.
Context {V : Type}.

Fixpoint alookup (k : string) (m : list (string * V)) : option V :=
  match m with
  | [] => None
  | (k', v) :: m' => if k' =? k then Some v else alookup k m'
  end.

(** [m[k] = v]: an existing key keeps its position, a new key goes last. *)
Fixpoint aset (k : string) (v : V) (m : list (string * V)) : list (string * V) :=
  match m with
  | [] => [(k, v)]
  | (k', v') :: m' => if k' =? k then (k, v) :: m' else (k', v') :: aset k v m'
  end.

Definition akeys (m : list (string * V)) : list string := map fst m.

End Alist.

(** ** Data model *)

Inductive ActionType := Navigate | Click | Toggle.

Record Action := mkAction {
  a_type : ActionType;
  a_label : string;
  a_href : option string;
  a_selector : string;
  a_options : option (list string)
}.

(** [Edge.type]: [Action["type"] | "transition"] *)
Inductive EdgeType := ENavigate | EClick | EToggle | ETransition.

Definition edgeTypeOf (t : ActionType) : EdgeType :=
  match t with Navigate => ENavigate | Click => EClick | Toggle => EToggle end.

Definition edgeType_eqb (a b : EdgeType) : bool :=
  match a, b with
  | ENavigate, ENavigate | EClick, EClick | EToggle, EToggle
  | ETransition, ETransition => true
  | _, _ => false
  end.

Record Edge := mkEdge {
  e_to : string;
  e_label : string;
  e_type : EdgeType;
  e_options : option (list string)
}.

(** The extractor's [Transition] *)
Record Transition := mkTransition {
  t_triggerLabel : string;
  t_triggerSelector : string;
  t_actions : list Action;
  t_added : list string;
  t_removed : list string
}.

Record PageVisit := mkPageVisit {
  p_url : string;
  p_title : string;
  p_depth : Z;
  p_actions : list Action;
  p_screenshotPath : option string
}.

Record CrawlResult := mkCrawlResult {
  r_pages : list PageVisit;
  r_graph : list (string * list string);
  r_actionGraph : list (string * list Edge)
}.

Record CrawlOptions := mkCrawlOptions {
  o_seeds : list string;
  o_maxDepth : option Z;
  o_maxPages : option Z;
  o_sameOrigin : option bool;
  o_delayMs : option Z;
  o_concurrency : option Z;
  o_discoverTransitions : option bool;
  o_transitionsPerPage : option Z
}.

(** [x ?? d] *)
Definition nullish {A} (x : option A) (d : A) : A :=
  match x with Some v => v | None => d end.

(** ** URL helpers of the crawler (parametric in the platform) *)

Section UrlHelpers.
Context `{Platform}.

(** [normalizeUrl]: clear the fragment and drop the trailing slashes of
    every pathname but ["/"]; an unparsable string is returned unchanged. *)
Definition normalizeUrl (raw : string) : string :=
  match url_parse raw with
  | Some u =>
      let u1 := url_set_hash "" u in
      let u2 :=
        if negb (url_pathname u1 =? "/") && endsWith (url_pathname u1) "/"
        then url_set_pathname (stripTrailingSlashes (url_pathname u1)) u1
        else u1 in
      url_href u2
  | None => raw
  end.

(** [/^https?:$/.test(protocol)] *)
Definition isHttpProtocol (p : string) : bool := (p =? "http:") || (p =? "https:").

Definition resolveHref (baseUrl : string) (href : option string) : option string :=
  match href with
  | None => None
  | Some h =>
      if negb (truthy h) then None
      else match url_parse_rel h baseUrl with
           | Some abs => if isHttpProtocol (url_protocol abs) then Some (url_href abs) else None
           | None => None
           end
  end.

(** [try { origin = new URL(s).origin } catch { }] *)
Definition originOf (s : string) : option string :=
  match url_parse s with Some u => Some (url_origin u) | None => None end.

End UrlHelpers.

(** ** The transition prober, from the labels the page exposes

    The DOM is abstracted to what the in-page scripts read from it: for one
    [querySelectorAll] hit its visibility verdict and its [labelOf] text. *)

Record ScopeEl := mkScopeEl {
  se_shown : bool;      (* visible(el) && !excludeGlobal(el) *)
  se_label : string     (* labelOf(el) *)
}.

(** [new Set(l)] turned back into an array: first occurrences, in order. *)
Fixpoint uniq (l : list string) : list string :=
  match l with
  | [] => []
  | x :: t => x :: List.filter (fun y => negb (y =? x)) (uniq t)
  end.

(** Inner loop of [collect]: one selector's hits, stopping at 40 labels. *)
Fixpoint collectSel (els : list ScopeEl) (labels : list string) : list string :=
  match els with
  | [] => labels
  | el :: rest =>
      if negb (se_shown el) then collectSel rest labels
      else if negb (truthy (se_label el)) then collectSel rest labels
      else
        let labels' := labels ++ [se_label el] in
        if (40 <=? length labels')%nat then labels' else collectSel rest labels'
  end.

(** Outer loop of [collect] over the selectors of [sels]. *)
Fixpoint collectAll (root : list (list ScopeEl)) (labels : list string) : list string :=
  match root with
  | [] => labels
  | els :: rest =>
      let labels' := collectSel els labels in
      if (40 <=? length labels')%nat then labels' else collectAll rest labels'
  end.

Definition collect (root : list (list ScopeEl)) : list string :=
  uniq (collectAll root []).

(** [collectScopedLabels]: a failing in-page script yields [[]]. *)
Definition collectScopedLabels (scope : option (list (list ScopeEl))) : list string :=
  match scope with Some root => collect root | None => [] end.

(** One candidate of the trigger scan, with what probing it will show. *)
Record TriggerEl := mkTriggerEl {
  te_visible : bool;
  te_label : string;
  te_selector : string;
  te_handle : bool;                              (* page.$(selector) found it *)
  te_pre : option (list (list ScopeEl));         (* baseline container *)
  te_post : option (list (list ScopeEl))         (* container after the click *)
}.

(** The trigger scan: visible, labelled candidates, the limit being tested
    after each push. *)
Fixpoint pickTriggers (limit : Z) (nodes : list TriggerEl) (out : list TriggerEl)
  : list TriggerEl :=
  match nodes with
  | [] => out
  | el :: rest =>
      if negb (te_visible el) then pickTriggers limit rest out
      else if negb (truthy (te_label el)) then pickTriggers limit rest out
      else
        let out' := out ++ [el] in
        if (limit <=? Z.of_nat (length out'))%Z then out' else pickTriggers limit rest out'
  end.

Definition inList (x : string) (l : list string) : bool := existsb (String.eqb x) l.

(** Body of the probing loop for one trigger. *)
Definition probeTrigger (t : TriggerEl) : option Transition :=
  if negb (te_handle t) then None
  else
    let preLabels := collectScopedLabels (te_pre t) in
    let postLabels := collectScopedLabels (te_post t) in
    let added := List.filter (fun l => negb (inList l preLabels)) postLabels in
    let removed := List.filter (fun l => negb (inList l postLabels)) preLabels in
    let actions := map (fun l => mkAction Click l None "" None) postLabels in
    Some (mkTransition (te_label t) (te_selector t) actions added removed).

Definition discoverTransitions (nodes : list TriggerEl) (maxTriggers : Z) : list Transition :=
  omap probeTrigger (pickTriggers maxTriggers nodes []).

(** ** One visit *)

(** What the browser produced for one dispatched visit. *)
Inductive PageLoad :=
| Crashed
| Loaded (currentUrl title : string) (items : list Action)
         (probe : option (list TriggerEl)).

(** The transition record as [visit] hands it to [crawl]. *)
Record VisitTransition := mkVisitTransition {
  vt_triggerLabel : string;
  vt_actions : list Action;
  vt_added : list string;
  vt_removed : list string
}.

Record VisitRes := mkVisitRes {
  v_normalized : string;
  v_title : string;
  v_actions : list Action;
  v_transitions : list VisitTransition;
  v_screenshotPath : option string
}.

Record FrontierEntry := mkFrontierEntry {
  f_url : string;
  f_depth : Z;
  f_origin : option string
}.

Record CrawlState := mkCrawlState {
  visited : gset string;
  pages : list PageVisit;
  graph : list (string * list string);
  actionGraph : list (string * list Edge)
}.

Definition has (x : string) (s : gset string) : bool := bool_decide (x ∈ s).

(** [if (!m[k]) m[k] = []] and [m[k].push(e)] *)
Definition ensureKey {V} (k : string) (m : list (string * list V)) : list (string * list V) :=
  match alookup k m with Some _ => m | None => aset k [] m end.

(** [m[k] || []] *)
Definition entry {V} (k : string) (m : list (string * list V)) : list V :=
  nullish (alookup k m) [].

Definition pushAt {V} (k : string) (e : V) (m : list (string * list V)) : list (string * list V) :=
  aset k (entry k m ++ [e]) m.

(** ** The crawler *)

Section Crawler.
Context `{Platform}.

(** [browser n url]: what the [n]-th dispatched visit, sent to [url], saw. *)
Variable browser : nat -> string -> PageLoad.

(** [path.join(screenshotDir, safeFileName(url))] *)
Variable shotPath : string -> option string.

(** [Crawler.visit]: [None] is a rejected promise. *)
Definition visit (load : PageLoad) (url : string)
    (discover : bool) (transitionsPerPage : Z) : option VisitRes :=
  match load with
  | Crashed => None
  | Loaded currentUrl title items probe =>
      let trans :=
        if discover then
          match probe with
          | Some nodes =>
              map (fun d => mkVisitTransition (t_triggerLabel d) (t_actions d)
                              (t_added d) (t_removed d))
                  (discoverTransitions nodes transitionsPerPage)
          | None => []
          end
        else [] in
      Some (mkVisitRes (normalizeUrl currentUrl) title items trans (shotPath url))
  end.

(** The same-origin check in front of a navigate target: [true] when the
    loop [continue]s. *)
Definition originBlocked (sameOrigin : bool) (baseOrigin : option string)
    (finalUrl : string) : bool :=
  sameOrigin &&
  match baseOrigin with
  | Some o =>
      truthy o &&
      match url_parse finalUrl with
      | Some u => negb (url_origin u =? o)
      | None => true
      end
  | None => false
  end.

(** Body of [for (const a of res.actions)]; the accumulator is
    [(nextUrls, actionEdges)]. *)
Definition actionStep (sameOrigin : bool) (baseOrigin : option string)
    (seen : gset string) (normalized : string)
    (acc : list string * list Edge) (a : Action) : list string * list Edge :=
  let '(nextUrls, actionEdges) := acc in
  match a_type a with
  | Navigate =>
      match resolveHref normalized (a_href a) with
      | None => acc
      | Some abs =>
          if negb (truthy abs) then acc
          else
            let finalUrl := normalizeUrl abs in
            if originBlocked sameOrigin baseOrigin finalUrl then acc
            else
              (if has finalUrl seen then nextUrls else nextUrls ++ [finalUrl],
               actionEdges ++ [mkEdge finalUrl (a_label a) ENavigate None])
      end
  | _ =>
      (nextUrls,
       actionEdges ++ [mkEdge normalized (a_label a) (edgeTypeOf (a_type a)) (a_options a)])
  end.

Definition transNodeId (page trigger : string) : string :=
  page +:+ "::TRANS::" +:+ trigger.

Definition optNodeId (transitionNode opt : string) : string :=
  transitionNode +:+ "::OPT::" +:+ opt.

(** The predicate of [actionEdges.find(...)] *)
Definition navMatches (opt : string) (e : Edge) : bool :=
  edgeType_eqb (e_type e) ENavigate && truthy (e_label e) &&
  (toLowerCase (e_label e) =? toLowerCase opt).

(** Body of [for (const opt of combined)] *)
Definition optionStep (normalized transitionNode : string) (actionEdges : list Edge)
    (ag : list (string * list Edge)) (opt : string) : list (string * list Edge) :=
  if negb (truthy opt) then ag
  else
    let optNode := optNodeId transitionNode opt in
    let ag1 := pushAt transitionNode (mkEdge optNode opt EClick None) ag in
    let navMatch := find (navMatches opt) actionEdges in
    let ag2 := ensureKey optNode ag1 in
    match navMatch with
    | Some m => pushAt optNode (mkEdge (e_to m) (orElse (e_label m) opt) ENavigate None) ag2
    | None => pushAt optNode (mkEdge normalized opt EClick None) ag2
    end.

(** [[...new Set([...added, ...(added.length ? [] : removed)])]] *)
Definition combinedOptions (tr : VisitTransition) : list string :=
  uniq (vt_added tr ++
        (if (0 <? length (vt_added tr))%nat then [] else vt_removed tr)).

(** Body of [for (const tr of res.transitions)]; the accumulator is
    [(actionEdges, actionGraph)]. *)
Definition transitionStep (normalized : string)
    (acc : list Edge * list (string * list Edge)) (tr : VisitTransition)
    : list Edge * list (string * list Edge) :=
  let '(actionEdges, ag) := acc in
  let trigger := vt_triggerLabel tr in
  if negb (truthy trigger) then acc
  else
    let transitionNode := transNodeId normalized trigger in
    let actionEdges' := actionEdges ++ [mkEdge transitionNode trigger ETransition None] in
    let ag1 := ensureKey transitionNode ag in
    (actionEdges',
     fold_left (optionStep normalized transitionNode actionEdges') (combinedOptions tr) ag1).

Definition transitionLabels (actionEdges : list Edge) : gset string :=
  list_to_set (map e_label (List.filter (fun e => edgeType_eqb (e_type e) ETransition) actionEdges)).

(** The predicate of the final [actionEdges.filter(...)] *)
Definition keepEdge (labels : gset string) (e : Edge) : bool :=
  negb (negb (edgeType_eqb (e_type e) ENavigate) &&
        negb (edgeType_eqb (e_type e) ETransition) &&
        has (e_label e) labels).

Definition filteredEdges (actionEdges : list Edge) : list Edge :=
  List.filter (keepEdge (transitionLabels actionEdges)) actionEdges.

(** The two inner loops of the merge, from their initial accumulators. *)
Definition scanActions (sameOrigin : bool) (baseOrigin : option string)
    (seen : gset string) (normalized : string) (actions : list Action)
    : list string * list Edge :=
  fold_left (actionStep sameOrigin baseOrigin seen normalized) actions ([], []).

Definition scanTransitions (normalized : string) (transitions : list VisitTransition)
    (actionEdges : list Edge) (ag : list (string * list Edge))
    : list Edge * list (string * list Edge) :=
  fold_left (transitionStep normalized) transitions (actionEdges, ag).

(** What a result that claims its URL does to the state; the second
    component is [nextUrls].  [st] is the state before [visited.add]. *)
Definition mergePage (sameOrigin : bool) (st : CrawlState)
    (input : FrontierEntry) (res : VisitRes) : CrawlState * list string :=
  let normalized := v_normalized res in
  let visited' := {[normalized]} ∪ visited st in
  let '(nextUrls, actionEdges) :=
    scanActions sameOrigin (f_origin input) visited' normalized (v_actions res) in
  let '(actionEdges', ag') :=
    scanTransitions normalized (v_transitions res) actionEdges (actionGraph st) in
  ({| visited := visited';
      pages := pages st ++
               [mkPageVisit normalized (v_title res) (f_depth input)
                            (v_actions res) (v_screenshotPath res)];
      graph := aset normalized nextUrls (graph st);
      actionGraph :=
        aset normalized (entry normalized ag' ++ filteredEdges actionEdges') ag' |},
   nextUrls).

(** Body of [for (const r of results)].  The accumulator carries the crawl
    state and [nextFrontierCandidates]. *)
Definition mergeResult (sameOrigin : bool) (maxDepth : Z)
    (acc : CrawlState * list FrontierEntry)
    (r : option (FrontierEntry * VisitRes)) : CrawlState * list FrontierEntry :=
  match r with
  | None => acc
  | Some (input, res) =>
      let '(st, cands) := acc in
      if has (v_normalized res) (visited st) then acc
      else
        let '(st', nextUrls) := mergePage sameOrigin st input res in
        let childDepth := (f_depth input + 1)%Z in
        (st',
         if (childDepth <=? maxDepth)%Z
         then cands ++ map (fun nurl => mkFrontierEntry nurl childDepth (f_origin input)) nextUrls
         else cands)
  end.

(** [Promise.allSettled(chunk.map(...))]: the results in the chunk's order. *)
Fixpoint dispatch (discover : bool) (transitionsPerPage : Z) (clock : nat)
    (chunk : list FrontierEntry) : list (option (FrontierEntry * VisitRes)) :=
  match chunk with
  | [] => []
  | f :: rest =>
      match visit (browser clock (f_url f)) (f_url f) discover transitionsPerPage with
      | Some res => Some (f, res)
      | None => None
      end :: dispatch discover transitionsPerPage (S clock) rest
  end.

(** [for (let i = 0; i < toVisit.length; i += concurrency)]; every round
    advances [i] by [concurrency >= 1], so [length toVisit] rounds suffice. *)
Fixpoint chunkLoop (rounds : nat) (sameOrigin : bool) (maxDepth : Z) (concurrency : nat)
    (discover : bool) (transitionsPerPage : Z)
    (toVisit : list FrontierEntry) (i : nat) (clock : nat)
    (acc : CrawlState * list FrontierEntry) : (CrawlState * list FrontierEntry) * nat :=
  match rounds with
  | O => (acc, clock)
  | S rounds' =>
      if (i <? length toVisit)%nat then
        let chunk := firstn concurrency (skipn i toVisit) in
        let results := dispatch discover transitionsPerPage clock chunk in
        chunkLoop rounds' sameOrigin maxDepth concurrency discover transitionsPerPage
                  toVisit (i + concurrency) (clock + length chunk)
                  (fold_left (mergeResult sameOrigin maxDepth) results acc)
      else (acc, clock)
  end.

(** The de-duplication of [nextFrontierCandidates]; the accumulator is
    [(seenNext, nextFrontier)]. *)
Definition nextFrontierStep (seen : gset string)
    (acc : gset string * list FrontierEntry) (c : FrontierEntry)
    : gset string * list FrontierEntry :=
  let '(seenNext, nextFrontier) := acc in
  if has (f_url c) seen then acc
  else if has (f_url c) seenNext then acc
  else ({[f_url c]} ∪ seenNext, nextFrontier ++ [c]).

Definition nextFrontierOf (seen : gset string) (cands : list FrontierEntry)
    : list FrontierEntry :=
  snd (fold_left (nextFrontierStep seen) cands (∅, [])).

Definition pagesLen (st : CrawlState) : Z := Z.of_nat (length (pages st)).

(** [currentLayer.filter(f => !visited.has(f.url)).slice(0, Math.max(0, maxPages - pages.length))] *)
Definition toVisitOf (maxPages : Z) (st : CrawlState) (currentLayer : list FrontierEntry)
    : list FrontierEntry :=
  firstn (Z.to_nat (Z.max 0 (maxPages - pagesLen st)))
         (List.filter (fun f => negb (has (f_url f) (visited st))) currentLayer).

(** The layer loop [for (let depth = 0; depth <= maxDepth && ...; depth++)].
    [layers] bounds the number of rounds; [maxDepth + 1 - depth] of them
    always suffice, because [depth] grows by one each round. *)
Fixpoint layerLoop (layers : nat) (sameOrigin : bool) (maxDepth maxPages : Z)
    (concurrency : nat) (discover : bool) (transitionsPerPage : Z)
    (depth : Z) (frontier : list FrontierEntry) (clock : nat) (st : CrawlState)
    : CrawlState :=
  match layers with
  | O => st
  | S layers' =>
      if (depth <=? maxDepth)%Z && (0 <? length frontier)%nat && (pagesLen st <? maxPages)%Z
      then
        let currentLayer := List.filter (fun f => (f_depth f =? depth)%Z) frontier in
        if (length currentLayer =? 0)%nat
        then layerLoop layers' sameOrigin maxDepth maxPages concurrency discover
                       transitionsPerPage (depth + 1)%Z frontier clock st
        else
          let toVisit := toVisitOf maxPages st currentLayer in
          let '((st', cands), clock') :=
            chunkLoop (length toVisit) sameOrigin maxDepth concurrency discover
                      transitionsPerPage toVisit 0 clock (st, []) in
          layerLoop layers' sameOrigin maxDepth maxPages concurrency discover
                    transitionsPerPage (depth + 1)%Z
                    (nextFrontierOf (visited st') cands) clock' st'
      else st
  end.

Definition seedFrontier (seeds : list string) : list FrontierEntry :=
  map (fun s => mkFrontierEntry (normalizeUrl s) 0 (originOf s)) seeds.

Definition initialState : CrawlState :=
  {| visited := ∅; pages := []; graph := []; actionGraph := [] |}.

Definition optMaxDepth (o : CrawlOptions) : Z := nullish (o_maxDepth o) 1%Z.
Definition optMaxPages (o : CrawlOptions) : Z := nullish (o_maxPages o) 50%Z.
Definition optSameOrigin (o : CrawlOptions) : bool := nullish (o_sameOrigin o) true.
Definition optConcurrency (o : CrawlOptions) : Z :=
  Z.max 1 (Z.min (nullish (o_concurrency o) 3%Z) 10).
Definition optDiscover (o : CrawlOptions) : bool := nullish (o_discoverTransitions o) true.
Definition optTransitionsPerPage (o : CrawlOptions) : Z :=
  Z.max 0 (Z.min (nullish (o_transitionsPerPage o) 12%Z) 50).

(** The state in which the layer loop of [crawl] ends. *)
Definition crawlState (o : CrawlOptions) : CrawlState :=
  layerLoop (Z.to_nat (optMaxDepth o + 1)) (optSameOrigin o) (optMaxDepth o) (optMaxPages o)
            (Z.to_nat (optConcurrency o)) (optDiscover o) (optTransitionsPerPage o)
            0%Z (seedFrontier (o_seeds o)) 0 initialState.

(** [Crawler.crawl]; the JSONL export only writes files and cannot fail the
    call. *)
Definition crawl (o : CrawlOptions) : CrawlResult :=
  let st := crawlState o in
  mkCrawlResult (pages st) (graph st) (actionGraph st).

End Crawler.

(** ** Vocabulary of the statements *)

Section Vocabulary.
Context `{Platform}.

(** The target a navigate action contributes: its href resolves to a
    non-empty string whose canonical form passes the same-origin check. *)
Definition navTarget (sameOrigin : bool) (baseOrigin : option string)
    (normalized : string) (a : Action) : option string :=
  match a_type a with
  | Navigate =>
      match resolveHref normalized (a_href a) with
      | Some abs =>
          if truthy abs then
            if originBlocked sameOrigin baseOrigin (normalizeUrl abs) then None
            else Some (normalizeUrl abs)
          else None
      | None => None
      end
  | _ => None
  end.

(** The edges and the next URLs one action contributes to the scan. *)
Definition actionEdgesOf (sameOrigin : bool) (baseOrigin : option string)
    (normalized : string) (a : Action) : list Edge :=
  match a_type a with
  | Navigate =>
      match navTarget sameOrigin baseOrigin normalized a with
      | Some f => [mkEdge f (a_label a) ENavigate None]
      | None => []
      end
  | _ => [mkEdge normalized (a_label a) (edgeTypeOf (a_type a)) (a_options a)]
  end.

Definition nextUrlsOf (sameOrigin : bool) (baseOrigin : option string)
    (seen : gset string) (normalized : string) (a : Action) : list string :=
  match navTarget sameOrigin baseOrigin normalized a with
  | Some f => if has f seen then [] else [f]
  | None => []
  end.

(** The page-to-transition edge of one transition. *)
Definition transEdgeOf (normalized : string) (tr : VisitTransition) : list Edge :=
  if truthy (vt_triggerLabel tr)
  then [mkEdge (transNodeId normalized (vt_triggerLabel tr)) (vt_triggerLabel tr)
               ETransition None]
  else [].

(** An edge pushed under a synthetic node: a click that leaves the node, or
    a navigation. *)
Definition syntheticEdge (k : string) (e : Edge) : Prop :=
  (e_type e = EClick /\ e_to e <> k) \/ e_type e = ENavigate.

(** Where an option node leads: the first scanned navigate edge with the
    same label up to case, else back to the page. *)
Definition optionTarget (normalized : string) (scanned : list Edge) (opt : string) : Edge :=
  match find (navMatches opt) scanned with
  | Some m => mkEdge (e_to m) (orElse (e_label m) opt) ENavigate None
  | None => mkEdge normalized opt EClick None
  end.

(** The two edges one option of one trigger pushes, with their keys. *)
Definition optionPush (normalized : string) (scanned : list Edge) (trigger opt : string)
    (k : string) (e : Edge) : Prop :=
  (k = transNodeId normalized trigger /\
   e = mkEdge (optNodeId (transNodeId normalized trigger) opt) opt EClick None) \/
  (k = optNodeId (transNodeId normalized trigger) opt /\
   e = optionTarget normalized scanned opt).

(** The edges the transition loop pushes for the transitions [trs]. *)
Definition pushedBy (normalized : string) (scanned : list Edge) (trs : list VisitTransition)
    (k : string) (e : Edge) : Prop :=
  exists tr opt,
    In tr trs /\ truthy (vt_triggerLabel tr) = true /\
    In opt (combinedOptions tr) /\ truthy opt = true /\
    optionPush normalized scanned (vt_triggerLabel tr) opt k e.

(** The keys the transition loop may create for the transitions [trs]. *)
Definition syntheticKey (normalized : string) (trs : list VisitTransition) (k : string) : Prop :=
  exists tr,
    In tr trs /\ truthy (vt_triggerLabel tr) = true /\
    (k = transNodeId normalized (vt_triggerLabel tr) \/
     exists opt, In opt (combinedOptions tr) /\ truthy opt = true /\
                 k = optNodeId (transNodeId normalized (vt_triggerLabel tr)) opt).

(** Every entry of [ag'] is the entry of [ag] followed by edges that
    satisfy [Q]; no key is lost, and every new key satisfies [K]. *)
Definition grows (Q : string -> Edge -> Prop) (K : string -> Prop)
    (ag ag' : list (string * list Edge)) : Prop :=
  forall k, (alookup k ag <> None -> alookup k ag' <> None) /\
            (alookup k ag' <> None -> alookup k ag <> None \/ K k) /\
            exists extra, entry k ag' = entry k ag ++ extra /\ Forall (Q k) extra.

(** The edges a merge scans, and the graph it leaves before the page's own
    entry is written. *)
Definition scannedEdges (sameOrigin : bool) (input : FrontierEntry) (res : VisitRes)
  : list Edge :=
  flat_map (actionEdgesOf sameOrigin (f_origin input) (v_normalized res)) (v_actions res).

Definition allEdges (sameOrigin : bool) (input : FrontierEntry) (res : VisitRes)
  : list Edge :=
  scannedEdges sameOrigin input res ++
  flat_map (transEdgeOf (v_normalized res)) (v_transitions res).

Definition probedGraph (sameOrigin : bool) (st : CrawlState) (input : FrontierEntry)
    (res : VisitRes) : list (string * list Edge) :=
  snd (scanTransitions (v_normalized res) (v_transitions res)
                       (scannedEdges sameOrigin input res) (actionGraph st)).

(** A visit result as [dispatch] can produce it for the entry [f]. *)
Definition visitedBy (browser : nat -> string -> PageLoad) (shotPath : string -> option string)
    (discover : bool) (transitionsPerPage : Z) (f : FrontierEntry) (res : VisitRes) : Prop :=
  exists clock, visit shotPath (browser clock (f_url f)) (f_url f) discover transitionsPerPage
                = Some res.

(** What [dispatch] can return for an entry that satisfies [Q]. *)
Definition settled (browser : nat -> string -> PageLoad) (shotPath : string -> option string)
    (discover : bool) (transitionsPerPage : Z)
    (Q : FrontierEntry -> Prop) (r : option (FrontierEntry * VisitRes)) : Prop :=
  match r with
  | None => True
  | Some (f, res) => Q f /\ visitedBy browser shotPath discover transitionsPerPage f res
  end.

(** The visited set is the set of the recorded pages' URLs, without repeats. *)
Definition claimedOnce (st : CrawlState) : Prop :=
  NoDup (map p_url (pages st)) /\
  forall u, u ∈ visited st <-> In u (map p_url (pages st)).

(** No entry holds a click or toggle self-loop beside a transition edge of
    the same label. *)
Definition selfLoopsPruned (ag : list (string * list Edge)) : Prop :=
  forall k e t,
    In e (entry k ag) -> In t (entry k ag) ->
    e_type e = EClick \/ e_type e = EToggle -> e_to e = k ->
    e_type t = ETransition -> e_label t <> e_label e.

(** The entry of a key that is not a claimed page holds synthetic edges only. *)
Definition onlySynthetic (st : CrawlState) : Prop :=
  forall k, k ∉ visited st -> Forall (syntheticEdge k) (entry k (actionGraph st)).

(** Every label of the list is non-empty. *)
Definition allTruthy (l : list string) : Prop := Forall (fun s => truthy s = true) l.

(** Every key is a claimed page and no edge is a transition edge. *)
Definition plainGraph (st : CrawlState) : Prop :=
  (forall k, alookup k (actionGraph st) <> None -> k ∈ visited st) /\
  (forall k e, In e (entry k (actionGraph st)) -> e_type e <> ETransition).

End Vocabulary.

(** ** The DOT exporter *)

Definition backslash : ascii := "092"%char.
Definition dquote : ascii := "034"%char.
Definition qt : string := String dquote EmptyString.

(** [esc]: backslashes are doubled, then every quote gets a backslash. *)
Definition esc (s : string) : string :=
  replaceAll dquote (String backslash qt)
             (replaceAll backslash (String backslash (String backslash EmptyString)) s).

(** A line of the output before it is printed; identifiers, labels and
    tooltips are stored escaped, as they are spliced into the text. *)
Inductive DotLine :=
| Raw (text : string)
| NodeDecl (id label tooltip color style extra : string)
| EdgeLine (src dst attrs : string).

Definition renderLine (l : DotLine) : string :=
  match l with
  | Raw text => text
  | NodeDecl id label tooltip color style extra =>
      "  " +:+ qt +:+ id +:+ qt +:+ " [label=" +:+ qt +:+ label +:+ qt +:+
      ", tooltip=" +:+ qt +:+ tooltip +:+ qt +:+ ", color=" +:+ qt +:+ color +:+ qt +:+
      ", style=" +:+ qt +:+ style +:+ qt +:+ extra +:+ "];"
  | EdgeLine src dst attrs =>
      "  " +:+ qt +:+ src +:+ qt +:+ " -> " +:+ qt +:+ dst +:+ qt +:+ attrs +:+ ";"
  end.

Definition ellipsis : string := "…".

(** [s.length > 120 ? s.slice(0, 117) + "…" : s] *)
Definition clip (s : string) : string :=
  if (120 <? String.length s)%nat then sliceTo 117 s +:+ ellipsis else s.

Section Exporter.
Context `{Platform}.

Definition labelFor (url : string) : string :=
  match url_parse url with
  | Some u => clip (orElse (url_pathname u +:+ url_search u) "/")
  | None =>
      match indexOf url "::TRANS::", indexOf url "::OPT::" with
      | Some tIx, None => "▶ " +:+ sliceFrom (tIx + String.length "::TRANS::") url
      | _, Some oIx => "• " +:+ sliceFrom (oIx + String.length "::OPT::") url
      | None, None => clip url
      end
  end.

(** The [nodes] set, in insertion order. *)
Definition dotNodes (r : CrawlResult) : list string :=
  uniq (akeys (r_graph r) ++ concat (map snd (r_graph r)) ++
        flat_map (fun se => fst se :: map e_to (snd se)) (r_actionGraph r)).

Definition declLine (n : string) : DotLine :=
  let isTrans := includes n "::TRANS::" in
  let isOpt := includes n "::OPT::" in
  let style := if isOpt then "dashed,rounded" else if isTrans then "dashed,rounded" else "rounded" in
  let color := if isOpt then "gray50" else if isTrans then "dodgerblue" else "black" in
  let extra := if isOpt then ", fillcolor=" +:+ qt +:+ "whitesmoke" +:+ qt else "" in
  NodeDecl (esc n) (esc (labelFor n)) (esc n) color style extra.

Definition labelAttr (lbl : string) : string := " [label=" +:+ qt +:+ lbl +:+ qt +:+ "]".

(** One line per distinct destination of [graph[src]]. *)
Definition navLine (r : CrawlResult) (src dst : string) : DotLine :=
  let acts := List.filter (fun e => edgeType_eqb (e_type e) ENavigate && (e_to e =? dst))
                     (nullish (alookup src (r_actionGraph r)) []) in
  let lbl := esc (orElse (match acts with a :: _ => e_label a | [] => "" end) "") in
  if truthy lbl then EdgeLine (esc src) (esc dst) (labelAttr lbl)
  else EdgeLine (esc src) (esc dst) "".

Definition navLines (r : CrawlResult) : list DotLine :=
  flat_map (fun so => map (navLine r (fst so)) (uniq (snd so))) (r_graph r).

Definition isSynthetic (src : string) : bool :=
  includes src "::TRANS::" || includes src "::OPT::".

(** The lines of one [actionGraph] edge: none for a page's navigate edge. *)
Definition actionLine (src : string) (e : Edge) : list DotLine :=
  match e_type e with
  | ENavigate =>
      if isSynthetic src
      then [EdgeLine (esc src) (esc (e_to e)) (labelAttr (esc (e_label e)))]
      else []
  | ETransition =>
      [EdgeLine (esc src) (esc (e_to e))
                (" [style=dotted, color=dodgerblue, label=" +:+ qt +:+ esc (e_label e) +:+ qt +:+ "]")]
  | _ =>
      [EdgeLine (esc src) (esc (e_to e))
                (" [style=dashed, color=gray50, label=" +:+ qt +:+ esc (e_label e) +:+ qt +:+ "]")]
  end.

Definition actionLines (r : CrawlResult) : list DotLine :=
  flat_map (fun se => flat_map (actionLine (fst se)) (snd se)) (r_actionGraph r).

Definition toDotLines (r : CrawlResult) : list DotLine :=
  [Raw "digraph G {"; Raw "  rankdir=LR;";
   Raw "  node [shape=box, style=rounded, fontsize=10];"] ++
  map declLine (dotNodes r) ++ navLines r ++ actionLines r ++ [Raw "}"].

Definition toDot (r : CrawlResult) : string :=
  joinLines (map renderLine (toDotLines r)).

End Exporter.

(** Number of node declarations carrying the (escaped) identifier [id]. *)
Definition isDeclOf (id : string) (l : DotLine) : bool :=
  match l with NodeDecl id' _ _ _ _ _ => id' =? id | _ => false end.

Definition declCount (id : string) (ls : list DotLine) : nat :=
  length (List.filter (isDeclOf id) ls).

(** ** An executable platform

    A model of the platform's [URL] class, after the URL Standard, on the
    part of the syntax the crawler depends on: a URL is split at its
    delimiters into scheme, authority, path, query and fragment, and the
    pieces are kept verbatim (no percent-encoding, case folding, dot-segment
    removal or default ports).  A URL whose scheme is not special and is not
    followed by a slash has an opaque path ([mailto:], [data:], [about:]); the
    [pathname] setter leaves such a URL untouched. *)

Module Lite.

Record LUrl := mkLUrl {
  l_scheme : string;
  l_host : option string;      (* the authority, when the URL has one *)
  l_opaque : bool;             (* the path is opaque *)
  l_path : string;
  l_query : option string;
  l_fragment : option string
}.

(** Split at the first occurrence of [c]. *)
Fixpoint cut (c : ascii) (s : string) : string * option string :=
  match s with
  | EmptyString => (EmptyString, None)
  | String a t =>
      if Ascii.eqb a c then (EmptyString, Some t)
      else let '(h, r) := cut c t in (String a h, r)
  end.

Definition isAlpha (a : ascii) : bool :=
  let n := nat_of_ascii a in
  ((65 <=? n) && (n <=? 90))%nat || ((97 <=? n) && (n <=? 122))%nat.

Definition isSchemeChar (a : ascii) : bool :=
  let n := nat_of_ascii a in
  isAlpha a || ((48 <=? n) && (n <=? 57))%nat ||
  Ascii.eqb a "+" || Ascii.eqb a "-" || Ascii.eqb a ".".

Fixpoint allChars (f : ascii -> bool) (s : string) : bool :=
  match s with
  | EmptyString => true
  | String a t => f a && allChars f t
  end.

Definition validScheme (s : string) : bool :=
  match s with
  | EmptyString => false
  | String a t => isAlpha a && allChars isSchemeChar t
  end.

Definition isSpecial (scheme : string) : bool :=
  inList scheme ["http"; "https"; "ws"; "wss"; "ftp"; "file"].

(** A special URL with an authority never has an empty path. *)
Definition rootify (scheme path : string) : string :=
  if isSpecial scheme && (path =? "") then "/" else path.

Definition startsWithSlash (s : string) : bool :=
  match s with String a _ => Ascii.eqb a "/" | EmptyString => false end.

Definition tail (s : string) : string :=
  match s with String _ t => t | EmptyString => EmptyString end.

Fixpoint dropLeadingSlashes (s : string) : string :=
  match s with
  | String a t => if Ascii.eqb a "/" then dropLeadingSlashes t else s
  | EmptyString => s
  end.

Definition isFile (scheme : string) : bool := scheme =? "file".

(** What follows [scheme ":"] in a special URL: the slashes in front of the
    authority are skipped however many there are, and the authority may not be
    empty; a [file] URL without two slashes has an empty authority and the
    rest as its path.  Such a URL never has an opaque path. *)
Definition parseSpecial (scheme rest : string) (query frag : option string) : option LUrl :=
  if isFile scheme && negb (startsWithSlash rest && startsWithSlash (tail rest)) then
    Some (mkLUrl scheme (Some "") false (String "/" (dropLeadingSlashes rest)) query frag)
  else
    let '(host, p) :=
      cut "/" (if isFile scheme then tail (tail rest) else dropLeadingSlashes rest) in
    if (host =? "") && negb (isFile scheme) then None
    else
      Some (mkLUrl scheme (Some host) false
                   (match p with Some p' => String "/" p' | None => "/" end) query frag).

(** What follows [scheme ":"] otherwise: two slashes open an authority, one
    slash a path without authority, anything else an opaque path. *)
Definition parseGeneric (scheme rest : string) (query frag : option string) : option LUrl :=
  if startsWithSlash rest then
    if startsWithSlash (tail rest) then
      let '(host, p) := cut "/" (tail (tail rest)) in
      Some (mkLUrl scheme (Some host) false
                   (match p with Some p' => String "/" p' | None => "" end) query frag)
    else Some (mkLUrl scheme None false rest query frag)
  else Some (mkLUrl scheme None true rest query frag).

Definition parse (s : string) : option LUrl :=
  let '(s1, frag) := cut "#" s in
  let '(s2, query) := cut "?" s1 in
  match cut ":" s2 with
  | (scheme, Some rest) =>
      if validScheme scheme then
        if isSpecial scheme then parseSpecial scheme rest query frag
        else parseGeneric scheme rest query frag
      else None
  | (_, None) => None
  end.

Definition optPrefix (pre : string) (o : option string) : string :=
  match o with Some x => pre +:+ x | None => "" end.

Definition href (u : LUrl) : string :=
  l_scheme u +:+ ":" +:+ optPrefix "//" (l_host u) +:+ l_path u +:+
  optPrefix "?" (l_query u) +:+ optPrefix "#" (l_fragment u).

Definition origin (u : LUrl) : string :=
  match l_host u with
  | Some h =>
      if inList (l_scheme u) ["http"; "https"; "ws"; "wss"; "ftp"]
      then l_scheme u +:+ "://" +:+ h else "null"
  | None => "null"
  end.

Definition protocol (u : LUrl) : string := l_scheme u +:+ ":".
Definition pathname (u : LUrl) : string := l_path u.

Definition search (u : LUrl) : string :=
  match l_query u with
  | Some x => if x =? "" then "" else "?" +:+ x
  | None => ""
  end.

Definition dropLeading (c : ascii) (s : string) : string :=
  match s with
  | String a t => if Ascii.eqb a c then t else s
  | EmptyString => s
  end.

Definition set_hash (v : string) (u : LUrl) : LUrl :=
  mkLUrl (l_scheme u) (l_host u) (l_opaque u) (l_path u) (l_query u)
         (if v =? "" then None else Some (dropLeading "#" v)).

(** The setter's parser keeps [?] and [#] inside the path by encoding them. *)
Definition encodePath (p : string) : string :=
  replaceAll "#" "%23" (replaceAll "?" "%3F" p).

Definition set_pathname (p : string) (u : LUrl) : LUrl :=
  if l_opaque u then u
  else
    let p1 := encodePath p in
    let path :=
      match l_host u with
      | Some _ =>
          rootify (l_scheme u)
                  (if p1 =? "" then "" else if startsWithSlash p1 then p1 else String "/" p1)
      | None => String "/" (dropLeadingSlashes p1)
      end in
    mkLUrl (l_scheme u) (l_host u) false path (l_query u) (l_fragment u).

Fixpoint hasChar (c : ascii) (s : string) : bool :=
  match s with
  | EmptyString => false
  | String a t => Ascii.eqb a c || hasChar c t
  end.

(** Everything up to and including the last slash. *)
Fixpoint dirname (s : string) : string :=
  match s with
  | EmptyString => EmptyString
  | String a t =>
      if hasChar "/" t then String a (dirname t)
      else if Ascii.eqb a "/" then "/" else EmptyString
  end.

(** [new URL(ref, base)]: an absolute reference stands for itself; otherwise
    it replaces the tail of the base (fragment, query, path, or authority and
    path). *)
Definition parse_rel (ref base : string) : option LUrl :=
  match parse ref with
  | Some u => Some u
  | None =>
      match parse base with
      | None => None
      | Some b =>
          let '(r1, frag) := cut "#" ref in
          let '(r2, query) := cut "?" r1 in
          if l_opaque b then
            if r1 =? "" then
              Some (mkLUrl (l_scheme b) (l_host b) true (l_path b) (l_query b) frag)
            else None
          else
            if r2 =? "" then
              Some (mkLUrl (l_scheme b) (l_host b) false (l_path b)
                           (match query with Some _ => query | None => l_query b end) frag)
            else if startsWithSlash r2 then
              if startsWithSlash (tail r2) then parse (l_scheme b +:+ ":" +:+ ref)
              else Some (mkLUrl (l_scheme b) (l_host b) false r2 query frag)
            else
              Some (mkLUrl (l_scheme b) (l_host b) false
                           (if dirname (l_path b) =? "" then String "/" r2
                            else dirname (l_path b) +:+ r2)
                           query frag)
      end
  end.

Definition lowerChar (a : ascii) : ascii :=
  let n := nat_of_ascii a in
  if ((65 <=? n) && (n <=? 90))%nat then ascii_of_nat (n + 32) else a.

Fixpoint lower (s : string) : string :=
  match s with
  | EmptyString => EmptyString
  | String a t => String (lowerChar a) (lower t)
  end.

#[global] Instance platform : Platform := {|
  URL := LUrl;
  url_parse := parse;
  url_parse_rel := parse_rel;
  url_href := href;
  url_origin := origin;
  url_protocol := protocol;
  url_pathname := pathname;
  url_search := search;
  url_set_hash := set_hash;
  url_set_pathname := set_pathname;
  toLowerCase := lower
|}.

End Lite.

(** ** A small site to run the crawler on

    Page [/a] links to [/docs/] (same origin), to another origin and to
    itself, has a button "Menu" and two triggers: "Menu", whose click reveals
    "docs" and "Logout", and "Nop", whose click changes nothing.  Page
    [/docs] links back to [/a].  Every other URL makes the visit fail. *)

Module Demo.

Import Lite.

Definition link (label href : string) : Action :=
  mkAction Navigate label (Some href) "a" None.

Definition shown (label : string) : ScopeEl := mkScopeEl true label.

Definition pageA : PageLoad :=
  Loaded "https://example.com/a" "A"
    [link "Docs" "/docs/"; link "Ext" "https://other.com/x"; link "Self" "/a";
     mkAction Click "Menu" None "button" None]
    (Some [mkTriggerEl true "Menu" "#m" true
             (Some [[shown "Home"]])
             (Some [[shown "Home"; shown "docs"; shown "Logout"]]);
           mkTriggerEl true "Nop" "#n" true (Some [[shown "Home"]]) (Some [[shown "Home"]])]).

Definition pageDocs : PageLoad :=
  Loaded "https://example.com/docs" "D" [link "Back" "/a"] None.

Definition browser (n : nat) (url : string) : PageLoad :=
  if url =? "https://example.com/a" then pageA
  else if url =? "https://example.com/docs" then pageDocs
  else Crashed.

Definition shotPath (url : string) : option string := None.

Definition options : CrawlOptions :=
  mkCrawlOptions ["https://example.com/a#frag"] (Some 1%Z) None None None None None None.

(** The same crawl with a negative page budget. *)
Definition optionsNegativeBudget : CrawlOptions :=
  mkCrawlOptions ["https://example.com/a"] None (Some (-1)%Z) None None None None None.

Definition seedEntry : FrontierEntry :=
  mkFrontierEntry "https://example.com/a" 0 (Some "https://example.com").

Definition docsEntry : FrontierEntry :=
  mkFrontierEntry "https://example.com/docs" 1 (Some "https://example.com").

Definition deadEntry : FrontierEntry :=
  mkFrontierEntry "https://example.com/gone" 0 (Some "https://example.com").

(** What [visit] returns for the seed. *)
Definition seedRes : VisitRes :=
  nullish (visit shotPath pageA "https://example.com/a" true 12)
          (mkVisitRes "" "" [] [] None).

End Demo.

(** ** Vocabulary for the crawl as a whole *)

Section CrawlVocabulary.
Context `{Platform}.
Variables (browser : nat -> string -> PageLoad) (shotPath : string -> option string).

(** Some dispatched visit of [u] ended on the page with canonical URL
    [target]. *)
Definition landsOn (discover : bool) (transitionsPerPage : Z) (u target : string) : Prop :=
  exists clock res,
    visit shotPath (browser clock u) u discover transitionsPerPage = Some res /\
    v_normalized res = target.

(** Where a recorded page comes from: a seed, or a link listed in [graph]
    under a page one level up. *)
Definition reachedFrom (discover : bool) (transitionsPerPage : Z) (seeds : list string)
    (ps : list PageVisit) (g : list (string * list string)) (p : PageVisit) : Prop :=
  (p_depth p = 0%Z /\
   exists s, In s seeds /\ landsOn discover transitionsPerPage (normalizeUrl s) (p_url p)) \/
  (exists q u,
      In q ps /\ p_depth q = (p_depth p - 1)%Z /\ In u (entry (p_url q) g) /\
      landsOn discover transitionsPerPage u (p_url p)).

(** A frontier entry of layer [dep] is a seed or was listed by a page of the
    layer before. *)
Definition queuedFrom (seeds : list string) (dep : Z) (st : CrawlState)
    (f : FrontierEntry) : Prop :=
  f_depth f = dep /\
  ((dep = 0%Z /\ exists s, In s seeds /\ f_url f = normalizeUrl s) \/
   (exists q, In q (pages st) /\ p_depth q = (dep - 1)%Z /\
              In (f_url f) (entry (p_url q) (graph st)))).

(** The origin of [u] is the origin of one of the seeds. *)
Definition onSeedOrigin (seeds : list string) (u : string) : Prop :=
  exists s, In s seeds /\ originOf u = originOf s.

End CrawlVocabulary.

(** [graph] has an entry for exactly the claimed pages, and [actionGraph]
    has one for each of them. *)
Definition keysMatch (st : CrawlState) : Prop :=
  (forall u, alookup u (graph st) <> None <-> u ∈ visited st) /\
  (forall u, u ∈ visited st -> alookup u (actionGraph st) <> None).

(** Every URL listed under a page differs from the page and is the target
    of a navigate edge recorded under the same page. *)
Definition linksBacked (st : CrawlState) : Prop :=
  forall u v, In v (entry u (graph st)) ->
    v <> u /\ exists l, In (mkEdge v l ENavigate None) (entry u (actionGraph st)).

(** A frontier entry that carries the (known, non-empty) origin of a seed. *)
Definition carriesSeedOrigin `{Platform} (seeds : list string) (f : FrontierEntry) : Prop :=
  exists s og, In s seeds /\ originOf s = Some og /\ og <> "" /\ f_origin f = Some og.

(** Every navigate edge and every listed link of the state leads to the
    origin of a seed. *)
Definition confined `{Platform} (seeds : list string) (st : CrawlState) : Prop :=
  (forall k e, In e (entry k (actionGraph st)) -> e_type e = ENavigate ->
               onSeedOrigin seeds (e_to e)) /\
  (forall u v, In v (entry u (graph st)) -> onSeedOrigin seeds v).

(** Every recorded page is reached from a seed or from a page one level up. *)
Definition traced `{Platform} (browser : nat -> string -> PageLoad)
    (shotPath : string -> option string) (discover : bool) (transitionsPerPage : Z)
    (seeds : list string) (st : CrawlState) : Prop :=
  forall p, In p (pages st) ->
    reachedFrom browser shotPath discover transitionsPerPage seeds (pages st) (graph st) p.

(** Every transition edge sits under a claimed page and leads to that
    page's transition node for its label, which is non-empty; the node has
    an entry of its own. *)
Definition transitionsAnchored (st : CrawlState) : Prop :=
  forall k e, In e (entry k (actionGraph st)) -> e_type e = ETransition ->
    k ∈ visited st /\ e_label e <> "" /\ e_to e = transNodeId k (e_label e) /\
    alookup (e_to e) (actionGraph st) <> None.

(** The edges found under synthetic nodes: a transition node leads to its
    option nodes by click edges labelled with the option; an option node leads
    back to the page by a click edge, or to the target of a link whose label
    is the option up to case. *)
Definition syntheticShape `{Platform} (k : string) (e : Edge) : Prop :=
  exists page trigger opt,
    trigger <> "" /\ opt <> "" /\
    ((k = transNodeId page trigger /\ e = mkEdge (optNodeId k opt) opt EClick None) \/
     (k = optNodeId (transNodeId page trigger) opt /\
      (e = mkEdge page opt EClick None \/
       (e_type e = ENavigate /\ e_options e = None /\ e_label e <> "" /\
        toLowerCase (e_label e) = toLowerCase opt)))).

(** Whatever is not under a claimed page has the shape of a synthetic edge. *)
Definition syntheticOnly `{Platform} (st : CrawlState) : Prop :=
  forall k e, In e (entry k (actionGraph st)) -> k ∈ visited st \/ syntheticShape k e.

(** ** The JSONL export of [crawl]

    The records are modelled as they are handed to [JSON.stringify], a field
    that is not assigned being [None]. *)

Definition parseTriggerFromNode (node : string) : option string :=
  match indexOf node "::TRANS::" with
  | None => None
  | Some ix =>
      let rest := sliceFrom (ix + String.length "::TRANS::") node in
      match indexOf rest "::OPT::" with
      | Some optIx => Some (sliceTo optIx rest)
      | None => Some rest
      end
  end.

Definition parseOptionFromNode (node : string) : option string :=
  match indexOf node "::OPT::" with
  | None => None
  | Some ix => Some (sliceFrom (ix + String.length "::OPT::") node)
  end.

Record PageRec := mkPageRec {
  pr_url : string;
  pr_title : string;
  pr_depth : Z;
  pr_screenshotPath : option string
}.

Inductive EdgeRecType := RNav | RTransition | RClick.

Record EdgeRec := mkEdgeRec {
  er_type : EdgeRecType;
  er_fromUrl : string;
  er_toUrl : string;
  er_label : option string;
  er_trigger : option string;
  er_option : option string
}.

(** [if (x) rec.field = x] for [x : string | null] *)
Definition whenTruthy (x : option string) : option string :=
  match x with
  | Some s => if truthy s then Some s else None
  | None => None
  end.

(** The record written for the edge [e] found under the key [src]. *)
Definition edgeRec (src : string) (e : Edge) : EdgeRec :=
  match e_type e with
  | ENavigate =>
      mkEdgeRec RNav src (e_to e) (Some (e_label e))
                (whenTruthy (parseTriggerFromNode src)) (whenTruthy (parseOptionFromNode src))
  | ETransition => mkEdgeRec RTransition src (e_to e) None (Some (e_label e)) None
  | _ =>
      mkEdgeRec RClick src (e_to e) (Some (e_label e))
                (whenTruthy (parseTriggerFromNode src)) (whenTruthy (parseOptionFromNode src))
  end.

Definition pageRecords (ps : list PageVisit) : list PageRec :=
  map (fun p => mkPageRec (p_url p) (p_title p) (p_depth p) (p_screenshotPath p)) ps.

Definition edgeRecords (ag : list (string * list Edge)) : list EdgeRec :=
  flat_map (fun se => map (edgeRec (fst se)) (snd se)) ag.

(** ** Screenshot file names *)

(** The class [[a-z0-9\-]] under the [i] flag. *)
Definition isFileChar (a : ascii) : bool :=
  let n := nat_of_ascii a in
  ((97 <=? n) && (n <=? 122))%nat || ((65 <=? n) && (n <=? 90))%nat ||
  ((48 <=? n) && (n <=? 57))%nat || Ascii.eqb a "-".

(** [s.replace(/[^a-z0-9\-]+/gi, "_")]: every maximal run of characters
    outside the class becomes one underscore, written when the run ends. *)
Fixpoint underscored (s : string) : string :=
  match s with
  | EmptyString => EmptyString
  | String a t =>
      if isFileChar a then String a (underscored t)
      else
        match t with
        | String b _ => if isFileChar b then String "_" (underscored t) else underscored t
        | EmptyString => "_"
        end
  end.

(** The characters a file name stem is made of. *)
Definition okChar (a : ascii) : Prop := isFileChar a = true \/ a = "_"%char.

Section FileNames.
Context `{Platform}.

(** [u.hostname] *)
Variable url_hostname : URL -> string.

Definition safeFileName (url : string) : string :=
  match url_parse url with
  | Some u =>
      sliceTo 200 (underscored (url_hostname u +:+ url_pathname u +:+ url_search u))
      +:+ ".png"
  | None => sliceTo 200 (underscored url) +:+ ".png"
  end.

End FileNames.

(** ** The extractor's harvest

    The DOM is abstracted to what the in-page script reads from it.  A
    document is given by the hits of every [querySelectorAll] the script
    issues: per scope root, per query, the elements in document order. *)

(** A hit of the options scan inside the container of an element. *)
Record NearEl := mkNearEl {
  ne_visible : bool;      (* isVisible(c) *)
  ne_label : string       (* labelOf(c) *)
}.

Record DomEl := mkDomEl {
  de_id : nat;                              (* which element it is, for [seen] *)
  de_visible : bool;                        (* isVisible(el) *)
  de_disabled : bool;                       (* isDisabled(el) *)
  de_tag : string;                          (* el.tagName.toLowerCase() *)
  de_href : option string;                  (* el.getAttribute("href") *)
  de_htmlFor : string;                      (* el.htmlFor *)
  de_control : option (string * string);    (* getElementById(htmlFor): tag and input type *)
  de_label : string;                        (* labelOf(el) *)
  de_selector : string;                     (* toSelector(el) *)
  de_nearby : list (list NearEl)            (* per options query, the hits in the container *)
}.

(** [x || undefined] for an attribute value *)
Definition attrOrUndefined (x : option string) : option string :=
  match x with
  | Some s => if truthy s then Some s else None
  | None => None
  end.

(** The type and the href the script settles on for an element. *)
Definition classify (el : DomEl) : ActionType * option string :=
  let href := if de_tag el =? "a" then attrOrUndefined (de_href el) else None in
  let type1 := match href with Some _ => Navigate | None => Click end in
  let type2 :=
    if (de_tag el =? "label") && truthy (de_htmlFor el) then
      match de_control el with
      | Some (ctag, t) =>
          if ctag =? "input"
          then if (t =? "checkbox") || (t =? "radio") then Toggle else Click
          else Click
      | None => type1
      end
    else type1 in
  (type2, href).

(** The options scan: one query's hits, stopping at 8 labels. *)
Fixpoint optsSel (label : string) (els : list NearEl) (opts : list string) : list string :=
  match els with
  | [] => opts
  | c :: rest =>
      if negb (ne_visible c) then optsSel label rest opts
      else if negb (truthy (ne_label c)) || (ne_label c =? label) then optsSel label rest opts
      else
        let opts' := opts ++ [ne_label c] in
        if (8 <=? length opts')%nat then opts' else optsSel label rest opts'
  end.

Fixpoint optsAll (label : string) (queries : list (list NearEl)) (opts : list string)
  : list string :=
  match queries with
  | [] => opts
  | els :: rest =>
      let opts' := optsSel label els opts in
      if (8 <=? length opts')%nat then opts' else optsAll label rest opts'
  end.

(** The action pushed for an element that passed every test. *)
Definition actionOf (el : DomEl) : Action :=
  let '(type, href) := classify el in
  let options :=
    match type with
    | Navigate => None
    | _ => Some (uniq (optsAll (de_label el) (de_nearby el) []))
    end in
  mkAction type (de_label el) href (de_selector el) options.

(** The innermost loop, over the hits of one query; the accumulator is
    [(out, seen)], and the limit is tested after each push. *)
Fixpoint harvestNodes (max : Z) (nodes : list DomEl) (acc : list Action * gset nat)
  : list Action * gset nat :=
  match nodes with
  | [] => acc
  | el :: rest =>
      let '(out, seen) := acc in
      if bool_decide (de_id el ∈ seen) then harvestNodes max rest acc
      else if negb (de_visible el) || de_disabled el then harvestNodes max rest acc
      else if negb (truthy (de_label el)) && negb (de_tag el =? "a")
      then harvestNodes max rest acc
      else
        let out' := out ++ [actionOf el] in
        let seen' := {[de_id el]} ∪ seen in
        if (max <=? Z.of_nat (length out'))%Z then (out', seen')
        else harvestNodes max rest (out', seen')
  end.

(** The loop over the queries of one root; the limit is tested again after
    each query. *)
Fixpoint harvestQueries (max : Z) (queries : list (list DomEl))
    (acc : list Action * gset nat) : list Action * gset nat :=
  match queries with
  | [] => acc
  | nodes :: rest =>
      let acc' := harvestNodes max nodes acc in
      if (max <=? Z.of_nat (length (fst acc')))%Z then acc'
      else harvestQueries max rest acc'
  end.

(** The loop over the scope roots. *)
Fixpoint harvestRoots (max : Z) (roots : list (list (list DomEl)))
    (acc : list Action * gset nat) : list Action * gset nat :=
  match roots with
  | [] => acc
  | queries :: rest =>
      let acc' := harvestQueries max queries acc in
      if (max <=? Z.of_nat (length (fst acc')))%Z then acc'
      else harvestRoots max rest acc'
  end.

Definition typeName (t : ActionType) : string :=
  match t with Navigate => "navigate" | Click => "click" | Toggle => "toggle" end.

(** [`${a.type}|${a.label}|${a.href || ""}|${a.selector}`] *)
Definition actionKey (a : Action) : string :=
  typeName (a_type a) +:+ "|" +:+ a_label a +:+ "|" +:+
  nullish (attrOrUndefined (a_href a)) "" +:+ "|" +:+ a_selector a.

(** Keep the actions whose key is not in [sig] yet, adding each kept key. *)
Fixpoint uniqBySig (sig : gset string) (l : list Action) : list Action :=
  match l with
  | [] => []
  | a :: t =>
      if has (actionKey a) sig then uniqBySig sig t
      else a :: uniqBySig ({[actionKey a]} ∪ sig) t
  end.

(** One run of the in-page script. *)
Definition harvest (max : Z) (dom : list (list (list DomEl))) : list Action :=
  uniqBySig ∅ (fst (harvestRoots max dom ([], ∅))).

(** [Extractor.extract]: [dom] is the document at the first harvest,
    [hovered] the document at the second one, [None] when the probing
    block threw before its harvest returned. *)
Definition extract (limit : option Z) (probes : option bool)
    (dom : list (list (list DomEl))) (hovered : option (list (list (list DomEl))))
  : list Action :=
  let max := nullish limit 3000%Z in
  let actions := harvest max dom in
  if nullish probes true then
    match hovered with
    | Some dom' =>
        actions ++ uniqBySig (list_to_set (map actionKey actions)) (harvest max dom')
    | None => actions
    end
  else actions.

(** What every harvested action looks like: it is a navigation exactly when
    it carries an href, which is then non-empty, and exactly when it has no
    options list; a toggle is labelled; an options list has at most 8
    distinct, non-empty labels other than the action's own. *)
Definition wellFormedAction (a : Action) : Prop :=
  (a_type a = Navigate <-> exists h, a_href a = Some h /\ h <> "") /\
  (a_type a = Navigate <-> a_options a = None) /\
  (a_type a = Toggle -> a_label a <> "") /\
  (forall opts, a_options a = Some opts ->
     NoDup opts /\ (length opts <= 8)%nat /\
     forall o, In o opts -> o <> "" /\ o <> a_label a).

(** A small document to run the extractor on: a link, a button that two
    queries hit, and a hidden button. *)
Module DemoDom.

Definition anchor : DomEl :=
  mkDomEl 1 true false "a" (Some "/docs") "" None "Docs" "a.nav" [].

Definition button : DomEl :=
  mkDomEl 2 true false "button" None "" None "Menu" "#m"
          [[mkNearEl true "Menu"; mkNearEl true "Logout"]; [mkNearEl true "Docs"]].

Definition ghost : DomEl :=
  mkDomEl 3 false false "button" None "" None "Ghost" "#g" [].

Definition dom : list (list (list DomEl)) := [[[anchor]; [button; ghost]; [button]]].

End DemoDom.

(** ** Text between the quotes of a DOT string

    In a double-quoted string a backslash takes the next character with it.
    A text fits between two quotes when it leaves no quote bare and no
    backslash dangling at its end. *)
Fixpoint quotable (s : string) : bool :=
  match s with
  | EmptyString => true
  | String c t =>
      if Ascii.eqb c backslash then
        match t with
        | String _ t' => quotable t'
        | EmptyString => false
        end
      else if Ascii.eqb c dquote then false
      else quotable t
  end.

(** ** The first crawler ([src/crawler/crawler.ts])

    A queue instead of layers, no action graph, and no tolerance for a
    failed request: the rejection of [renderAndRun] rejects the crawl. *)

Module Legacy.

(** What the renderer and the extractor produced for one request. *)
Inductive Load :=
| Crashed
| Loaded (currentUrl : string) (items : list Action).

Record PageVisit := mkPageVisit {
  p_url : string;
  p_depth : Z;
  p_actions : list Action
}.

Record CrawlResult := mkCrawlResult {
  r_pages : list PageVisit;
  r_graph : list (string * list string)
}.

Record CrawlOptions := mkCrawlOptions {
  o_seeds : list string;
  o_maxDepth : option Z;
  o_maxPages : option Z;
  o_sameOrigin : option bool;
  o_delayMs : option Z
}.

Record QueueEntry := mkQueueEntry {
  q_url : string;
  q_depth : Z
}.

Record State := mkState {
  queue : list QueueEntry;
  visited : gset string;
  pages : list PageVisit;
  graph : list (string * list string)
}.

(** How a crawl ends: the loop condition fails, a request is rejected, or
    the bound on the number of rounds is used up. *)
Inductive Outcome :=
| Finished (st : State)
| Rejected
| OutOfFuel.

(** [queue.some(q => q.url === finalUrl)] *)
Definition queued (finalUrl : string) (q : list QueueEntry) : bool :=
  existsb (fun e => q_url e =? finalUrl) q.

Section Crawl.
Context `{Platform}.

(** [browser n url]: what the [n]-th request, sent to [url], produced. *)
Variable browser : nat -> string -> Load.

(** Body of [for (const a of actions)]; the accumulator is
    [(nextUrls, queue)]. *)
Definition actionStep (sameOrigin : bool) (maxDepth : Z) (baseOrigin : option string)
    (seen : gset string) (normalized : string) (depth : Z)
    (acc : list string * list QueueEntry) (a : Action) : list string * list QueueEntry :=
  let '(nextUrls, q) := acc in
  match a_type a with
  | Navigate =>
      match resolveHref normalized (a_href a) with
      | None => acc
      | Some abs =>
          if negb (truthy abs) then acc
          else
            let finalUrl := normalizeUrl abs in
            if originBlocked sameOrigin baseOrigin finalUrl then acc
            else if negb (has finalUrl seen) && negb (queued finalUrl q) then
              (nextUrls ++ [finalUrl],
               if (depth + 1 <=? maxDepth)%Z
               then q ++ [mkQueueEntry finalUrl (depth + 1)] else q)
            else acc
      end
  | _ => acc
  end.

(** What a fulfilled request for the head [e] of the queue does to the
    state; [rest] is the queue after [shift]. *)
Definition pageStep (sameOrigin : bool) (maxDepth : Z) (st : State)
    (e : QueueEntry) (rest : list QueueEntry) (currentUrl : string) (items : list Action)
  : State :=
  let visited' := {[q_url e]} ∪ visited st in
  let normalized := normalizeUrl currentUrl in
  let '(nextUrls, queue') :=
    fold_left (actionStep sameOrigin maxDepth (originOf (q_url e)) visited' normalized
                          (q_depth e))
              items ([], rest) in
  {| queue := queue'; visited := visited';
     pages := pages st ++ [mkPageVisit normalized (q_depth e) items];
     graph := aset normalized nextUrls (graph st) |}.

Definition pagesLen (st : State) : Z := Z.of_nat (length (pages st)).

(** [queue.length > 0 && pages.length < maxPages] *)
Definition running (maxPages : Z) (st : State) : bool :=
  (0 <? length (queue st))%nat && (pagesLen st <? maxPages)%Z.

(** The [while] loop, for at most [fuel] rounds. *)
Fixpoint loop (fuel : nat) (sameOrigin : bool) (maxDepth maxPages : Z) (clock : nat)
    (st : State) : Outcome :=
  if running maxPages st then
    match fuel with
    | O => OutOfFuel
    | S fuel' =>
        match queue st with
        | [] => Finished st
        | e :: rest =>
            if has (q_url e) (visited st) then
              loop fuel' sameOrigin maxDepth maxPages clock
                   {| queue := rest; visited := visited st;
                      pages := pages st; graph := graph st |}
            else
              match browser clock (q_url e) with
              | Crashed => Rejected
              | Loaded currentUrl items =>
                  loop fuel' sameOrigin maxDepth maxPages (S clock)
                       (pageStep sameOrigin maxDepth st e rest currentUrl items)
              end
        end
    end
  else Finished st.

Definition optMaxDepth (o : CrawlOptions) : Z := nullish (o_maxDepth o) 1%Z.
Definition optMaxPages (o : CrawlOptions) : Z := nullish (o_maxPages o) 50%Z.
Definition optSameOrigin (o : CrawlOptions) : bool := nullish (o_sameOrigin o) true.

Definition initialState (seeds : list string) : State :=
  {| queue := map (fun s => mkQueueEntry (normalizeUrl s) 0) seeds;
     visited := ∅; pages := []; graph := [] |}.

(** Every round either records a page or drops a queue entry that repeats
    an earlier one, so [length seeds + maxPages] rounds are enough. *)
Definition crawlOutcome (o : CrawlOptions) : Outcome :=
  loop (length (o_seeds o) + Z.to_nat (optMaxPages o)) (optSameOrigin o)
       (optMaxDepth o) (optMaxPages o) 0 (initialState (o_seeds o)).

(** [Crawler.crawl]: [None] is a rejected promise. *)
Definition crawl (o : CrawlOptions) : option CrawlResult :=
  match crawlOutcome o with
  | Finished st => Some (mkCrawlResult (pages st) (graph st))
  | _ => None
  end.

End Crawl.

(** Queue entries that will be dropped when they are shifted: their URL is
    visited already or stands earlier in the queue. *)
Fixpoint staleCount (v : gset string) (q : list QueueEntry) : nat :=
  match q with
  | [] => 0
  | e :: rest =>
      (if has (q_url e) v then 1 else 0) + staleCount ({[q_url e]} ∪ v) rest
  end.

(** [toDot] of the first crawler: one declaration per node, one line per
    listed link. *)
Inductive DotLine :=
| Raw (text : string)
| NodeDecl (id label : string)
| EdgeLine (src dst : string).

Definition renderLine (l : DotLine) : string :=
  match l with
  | Raw text => text
  | NodeDecl id label => "  " +:+ qt +:+ id +:+ qt +:+ " [label=" +:+ qt +:+ label +:+ qt +:+ "];"
  | EdgeLine src dst => "  " +:+ qt +:+ src +:+ qt +:+ " -> " +:+ qt +:+ dst +:+ qt +:+ ";"
  end.

Definition dotNodes (r : CrawlResult) : list string :=
  uniq (akeys (r_graph r) ++ concat (map snd (r_graph r))).

Definition toDotLines (r : CrawlResult) : list DotLine :=
  [Raw "digraph G {"; Raw "  rankdir=LR;";
   Raw "  node [shape=box, style=rounded, fontsize=10];"] ++
  map (fun n => NodeDecl (esc n) (esc n)) (dotNodes r) ++
  flat_map (fun so => map (fun dst => EdgeLine (esc (fst so)) (esc dst)) (snd so)) (r_graph r) ++
  [Raw "}"].

Definition toDot (r : CrawlResult) : string :=
  joinLines (map renderLine (toDotLines r)).

Definition isDeclOf (id : string) (l : DotLine) : bool :=
  match l with NodeDecl id' _ => id' =? id | _ => false end.

Definition declCount (id : string) (ls : list DotLine) : nat :=
  length (List.filter (isDeclOf id) ls).

(** A site for the first crawler: [/a] links to [/b], to itself and to
    another origin; [/b] links back. *)
Definition demoBrowser (n : nat) (url : string) : Load :=
  if url =? "https://example.com/a" then
    Loaded "https://example.com/a"
           [mkAction Navigate "B" (Some "/b") "a" None;
            mkAction Navigate "Self" (Some "/a") "a" None;
            mkAction Navigate "Ext" (Some "https://other.com/") "a" None]
  else if url =? "https://example.com/b" then
    Loaded "https://example.com/b" [mkAction Navigate "A" (Some "/a") "a" None]
  else Crashed.

Definition demoOptions : CrawlOptions :=
  mkCrawlOptions ["https://example.com/a"] None None None None.

End Legacy.

(** An edge line of the DOT output that runs between the two (escaped) ends. *)
Definition isEdgeOf (src dst : string) (l : DotLine) : bool :=
  match l with
  | EdgeLine s d _ => (s =? src) && (d =? dst)
  | _ => false
  end.

(** ** The visits of a crawl, in the order of their dispatch

    One record per call of [this.visit] made by the chunk loop of [crawl]:
    the number of the dispatch, the frontier entry that was sent, and the
    [visited] set at three moments, namely when the entry's layer was
    filtered into [toVisit], when its chunk was dispatched, and when its
    result came up in the merge loop [for (const r of results)]. *)

Record Fetch := mkFetch {
  ft_clock : nat;
  ft_entry : FrontierEntry;
  ft_atLayer : gset string;
  ft_atDispatch : gset string;
  ft_atMerge : gset string
}.

(** The page a fulfilled visit pushes when it claims its URL. *)
Definition pageOf (f : FrontierEntry) (res : VisitRes) : PageVisit :=
  mkPageVisit (v_normalized res) (v_title res) (f_depth f) (v_actions res)
              (v_screenshotPath res).

(** The first page of every URL, in order. *)
Fixpoint firstByUrl (ps : list PageVisit) : list PageVisit :=
  match ps with
  | [] => []
  | p :: t => p :: List.filter (fun q => negb (p_url q =? p_url p)) (firstByUrl t)
  end.

Section Trace.
Context `{Platform}.
Variable browser : nat -> string -> PageLoad.
Variable shotPath : string -> option string.

(** What the visit of a record returned; [None] is a rejected promise. *)
Definition fetchResult (discover : bool) (transitionsPerPage : Z) (ft : Fetch)
  : option VisitRes :=
  visit shotPath (browser (ft_clock ft) (f_url (ft_entry ft))) (f_url (ft_entry ft))
        discover transitionsPerPage.

Definition fetchedPage (discover : bool) (transitionsPerPage : Z) (ft : Fetch)
  : option PageVisit :=
  option_map (pageOf (ft_entry ft)) (fetchResult discover transitionsPerPage ft).

(** The settled result of one entry of a chunk, as [dispatch] lists it. *)
Definition settledResult (discover : bool) (transitionsPerPage : Z) (clock : nat)
    (f : FrontierEntry) : option (FrontierEntry * VisitRes) :=
  match visit shotPath (browser clock (f_url f)) (f_url f) discover transitionsPerPage with
  | Some res => Some (f, res)
  | None => None
  end.

(** The merge loop over one chunk, recording every entry as its result
    comes up. *)
Fixpoint settle (sameOrigin : bool) (maxDepth : Z) (discover : bool)
    (transitionsPerPage : Z) (atLayer atDispatch : gset string) (clock : nat)
    (chunk : list FrontierEntry) (acc : CrawlState * list FrontierEntry) : list Fetch :=
  match chunk with
  | [] => []
  | f :: rest =>
      mkFetch clock f atLayer atDispatch (visited (fst acc)) ::
      settle sameOrigin maxDepth discover transitionsPerPage atLayer atDispatch
             (S clock) rest
             (mergeResult sameOrigin maxDepth acc
                          (settledResult discover transitionsPerPage clock f))
  end.

(** The records of one layer: [chunkLoop], chunk after chunk. *)
Fixpoint chunkFetches (rounds : nat) (sameOrigin : bool) (maxDepth : Z) (concurrency : nat)
    (discover : bool) (transitionsPerPage : Z) (atLayer : gset string)
    (toVisit : list FrontierEntry) (i : nat) (clock : nat)
    (acc : CrawlState * list FrontierEntry) : list Fetch :=
  match rounds with
  | O => []
  | S rounds' =>
      if (i <? length toVisit)%nat then
        let chunk := firstn concurrency (skipn i toVisit) in
        let results := dispatch browser shotPath discover transitionsPerPage clock chunk in
        settle sameOrigin maxDepth discover transitionsPerPage atLayer (visited (fst acc))
               clock chunk acc ++
        chunkFetches rounds' sameOrigin maxDepth concurrency discover transitionsPerPage
                     atLayer toVisit (i + concurrency) (clock + length chunk)
                     (fold_left (mergeResult sameOrigin maxDepth) results acc)
      else []
  end.

(** The records of a crawl: [layerLoop], layer after layer. *)
Fixpoint layerFetches (layers : nat) (sameOrigin : bool) (maxDepth maxPages : Z)
    (concurrency : nat) (discover : bool) (transitionsPerPage : Z)
    (depth : Z) (frontier : list FrontierEntry) (clock : nat) (st : CrawlState)
    : list Fetch :=
  match layers with
  | O => []
  | S layers' =>
      if (depth <=? maxDepth)%Z && (0 <? length frontier)%nat && (pagesLen st <? maxPages)%Z
      then
        let currentLayer := List.filter (fun f => (f_depth f =? depth)%Z) frontier in
        if (length currentLayer =? 0)%nat
        then layerFetches layers' sameOrigin maxDepth maxPages concurrency discover
                          transitionsPerPage (depth + 1)%Z frontier clock st
        else
          let toVisit := toVisitOf maxPages st currentLayer in
          let '((st', cands), clock') :=
            chunkLoop browser shotPath (length toVisit) sameOrigin maxDepth concurrency
                      discover transitionsPerPage toVisit 0 clock (st, []) in
          chunkFetches (length toVisit) sameOrigin maxDepth concurrency discover
                       transitionsPerPage (visited st) toVisit 0 clock (st, []) ++
          layerFetches layers' sameOrigin maxDepth maxPages concurrency discover
                       transitionsPerPage (depth + 1)%Z
                       (nextFrontierOf (visited st') cands) clock' st'
      else []
  end.

Definition crawlFetches (o : CrawlOptions) : list Fetch :=
  layerFetches (Z.to_nat (optMaxDepth o + 1)) (optSameOrigin o) (optMaxDepth o)
               (optMaxPages o) (Z.to_nat (optConcurrency o)) (optDiscover o)
               (optTransitionsPerPage o) 0%Z (seedFrontier (o_seeds o)) 0 initialState.

End Trace.

(** A record whose entry was selected while its URL was unvisited, the
    three moments being in their order. *)
Definition inOrder (ft : Fetch) : Prop :=
  (f_url (ft_entry ft) ∉ ft_atLayer ft) /\
  ft_atLayer ft ⊆ ft_atDispatch ft /\ ft_atDispatch ft ⊆ ft_atMerge ft.

(** A record whose visit was fulfilled with [res] and whose result claimed
    its URL: the URL was not in the visited set when the result came up. *)
Definition claims `{Platform} (browser : nat -> string -> PageLoad)
    (shotPath : string -> option string) (o : CrawlOptions)
    (ft : Fetch) (res : VisitRes) : Prop :=
  In ft (crawlFetches browser shotPath o) /\
  fetchResult browser shotPath (optDiscover o) (optTransitionsPerPage o) ft = Some res /\
  v_normalized res ∉ ft_atMerge ft.

(** What [graph] and [actionGraph] hold for a page, in terms of the visit
    [res] that recorded it for the entry [input] and of the set [seen] that
    was visited when its result came up. *)
Definition listedFor `{Platform} (so : bool) (input : FrontierEntry) (res : VisitRes)
    (seen : gset string) (st : CrawlState) : Prop :=
  let n := v_normalized res in
  alookup n (graph st) <> None /\
  (forall u,
      In u (entry n (graph st)) <->
      exists a abs,
        In a (v_actions res) /\ a_type a = Navigate /\
        resolveHref n (a_href a) = Some abs /\ abs <> "" /\ u = normalizeUrl abs /\
        originBlocked so (f_origin input) u = false /\
        (u ∉ seen) /\ u <> n) /\
  (forall a abs,
      In a (v_actions res) -> a_type a = Navigate ->
      resolveHref n (a_href a) = Some abs -> abs <> "" ->
      originBlocked so (f_origin input) (normalizeUrl abs) = false ->
      normalizeUrl abs ∈ seen \/ normalizeUrl abs = n ->
      In (mkEdge (normalizeUrl abs) (a_label a) ENavigate None) (entry n (actionGraph st)) /\
      ~ In (normalizeUrl abs) (entry n (graph st))).

(** The wiring of the transition [tr] of a page in an action graph [ag]:
    [res] is the visit that recorded the page, for the entry [input]. *)
Definition wired `{Platform} (so : bool) (input : FrontierEntry) (res : VisitRes)
    (tr : VisitTransition) (ag : list (string * list Edge)) : Prop :=
  let a := v_normalized res in
  let trigger := vt_triggerLabel tr in
  let tnode := transNodeId a trigger in
  In (mkEdge tnode trigger ETransition None) (entry a ag) /\
  alookup tnode ag <> None /\
  forall opt,
    In opt (match vt_added tr with [] => vt_removed tr | _ => vt_added tr end) ->
    let onode := optNodeId tnode opt in
    In (mkEdge onode opt EClick None) (entry tnode ag) /\
    alookup onode ag <> None /\
    ((exists act abs,
         In act (v_actions res) /\ a_type act = Navigate /\
         resolveHref a (a_href act) = Some abs /\ abs <> "" /\
         originBlocked so (f_origin input) (normalizeUrl abs) = false /\
         a_label act <> "" /\ toLowerCase (a_label act) = toLowerCase opt /\
         In (mkEdge (normalizeUrl abs) (a_label act) ENavigate None) (entry a ag) /\
         In (mkEdge (normalizeUrl abs) (a_label act) ENavigate None) (entry onode ag))
     \/
     ((forall act abs,
          In act (v_actions res) -> a_type act = Navigate ->
          resolveHref a (a_href act) = Some abs -> abs <> "" ->
          originBlocked so (f_origin input) (normalizeUrl abs) = false ->
          a_label act = "" \/ toLowerCase (a_label act) <> toLowerCase opt) /\
      In (mkEdge a opt EClick None) (entry onode ag))).


(** ** More crawls of the small site *)

Module Cases.

(** The seed given twice, one visit at a time. *)
Definition optionsTwice : CrawlOptions :=
  mkCrawlOptions ["https://example.com/a"; "https://example.com/a"] (Some 1%Z) None None None
                 (Some 1%Z) None None.

(** The demo crawl without the same-origin filter. *)
Definition optionsAnyOrigin : CrawlOptions :=
  mkCrawlOptions ["https://example.com/a"] (Some 1%Z) None (Some false) None None None None.

(** A chunk of three entries whose second visit fails. *)
Definition chunk : list FrontierEntry := [Demo.seedEntry; Demo.deadEntry; Demo.docsEntry].

End Cases.

(** ** The requests of the first crawler, in order *)

Module LegacyTrace.

Import Legacy.

Section Requests.
Context `{Platform}.
Variable browser : nat -> string -> Load.

(** The calls of [renderAndRun] made by the [while] loop: the number of the
    request and its URL.  A rejected request is the last one. *)
Fixpoint requests (fuel : nat) (sameOrigin : bool) (maxDepth maxPages : Z) (clock : nat)
    (st : State) : list (nat * string) :=
  if running maxPages st then
    match fuel with
    | O => []
    | S fuel' =>
        match queue st with
        | [] => []
        | e :: rest =>
            if has (q_url e) (visited st) then
              requests fuel' sameOrigin maxDepth maxPages clock
                       {| queue := rest; visited := visited st;
                          pages := pages st; graph := graph st |}
            else
              (clock, q_url e) ::
              match browser clock (q_url e) with
              | Crashed => []
              | Loaded currentUrl items =>
                  requests fuel' sameOrigin maxDepth maxPages (S clock)
                           (pageStep sameOrigin maxDepth st e rest currentUrl items)
              end
        end
    end
  else [].

Definition crawlRequests (o : CrawlOptions) : list (nat * string) :=
  requests (length (o_seeds o) + Z.to_nat (optMaxPages o)) (optSameOrigin o)
           (optMaxDepth o) (optMaxPages o) 0 (initialState (o_seeds o)).

(** The request failed. *)
Definition failed (r : nat * string) : Prop := browser (fst r) (snd r) = Crashed.

End Requests.

End LegacyTrace.

(** * Proofs *)

(** ** Strings *)

Lemma truthy_true (s : string) : truthy s = true <-> s <> "".
Proof.
  unfold truthy. rewrite negb_true_iff. apply String.eqb_neq.
Qed.

Lemma truthy_false (s : string) : truthy s = false <-> s = "".
Proof.
  unfold truthy. rewrite negb_false_iff. apply String.eqb_eq.
Qed.

Lemma has_true (x : string) (s : gset string) : has x s = true <-> x ∈ s.
Proof. unfold has. apply bool_decide_eq_true. Qed.

Lemma has_false (x : string) (s : gset string) : has x s = false <-> x ∉ s.
Proof. unfold has. apply bool_decide_eq_false. Qed.

Lemma append_length (s t : string) :
  String.length (s +:+ t) = (String.length s + String.length t)%nat.
Proof. induction s as [|a s IH]; simpl; [reflexivity | now rewrite IH]. Qed.

Lemma append_nonempty_neq (s t : string) : t <> "" -> s +:+ t <> s.
Proof.
  intros Ht Heq. apply (f_equal String.length) in Heq.
  rewrite append_length in Heq. destruct t; [congruence | simpl in Heq; lia].
Qed.

(** ** Insertion-ordered records *)

Section AlistFacts.
Context {V : Type}.
Implicit Types (m : list (string * V)) (k : string).

Lemma alookup_aset_eq k v m : alookup k (aset k v m) = Some v.
Proof.
  induction m as [|[k' v'] m IH]; simpl.
  - now rewrite String.eqb_refl.
  - destruct (k' =? k) eqn:E; simpl.
    + now rewrite String.eqb_refl.
    + now rewrite E.
Qed.

Lemma alookup_aset_ne k k' v m : k <> k' -> alookup k' (aset k v m) = alookup k' m.
Proof.
  intros Hne. induction m as [|[k0 v0] m IH]; simpl.
  - apply String.eqb_neq in Hne. now rewrite Hne.
  - destruct (k0 =? k) eqn:E; simpl.
    + apply String.eqb_eq in E. subst k0.
      apply String.eqb_neq in Hne. now rewrite Hne.
    + now rewrite IH.
Qed.

Lemma akeys_aset k v m :
  akeys (aset k v m) = if existsb (String.eqb k) (akeys m) then akeys m else akeys m ++ [k].
Proof.
  unfold akeys. induction m as [|[k0 v0] m IH]; simpl; [reflexivity|].
  rewrite (String.eqb_sym k k0).
  destruct (k0 =? k) eqn:E; simpl.
  - apply String.eqb_eq in E. now subst.
  - rewrite IH. now destruct (existsb _ _).
Qed.

Lemma alookup_Some_In k v m : alookup k m = Some v -> In (k, v) m.
Proof.
  induction m as [|[k0 v0] m IH]; simpl; [discriminate|].
  destruct (k0 =? k) eqn:E.
  - apply String.eqb_eq in E. intros [= ->]. subst. now left.
  - intros Hl. right. now apply IH.
Qed.

Lemma alookup_None_keys k m : alookup k m = None <-> ~ In k (akeys m).
Proof.
  induction m as [|[k0 v0] m IH]; simpl; [tauto|].
  destruct (k0 =? k) eqn:E.
  - apply String.eqb_eq in E. subst. split; [discriminate | tauto].
  - apply String.eqb_neq in E. rewrite IH. unfold akeys. tauto.
Qed.

Lemma In_alist_lookup k v m : In (k, v) m -> exists v', alookup k m = Some v'.
Proof.
  intros Hin. destruct (alookup k m) eqn:E; [eauto|].
  apply alookup_None_keys in E. exfalso. apply E.
  unfold akeys. apply in_map_iff. now exists (k, v).
Qed.

End AlistFacts.

Section EntryFacts.
Context {V : Type}.
Implicit Types (m : list (string * list V)) (k : string).

Lemma entry_aset k k' (v : list V) m :
  entry k (aset k' v m) = if k' =? k then v else entry k m.
Proof.
  unfold entry. destruct (k' =? k) eqn:E.
  - apply String.eqb_eq in E. subst. now rewrite alookup_aset_eq.
  - apply String.eqb_neq in E. now rewrite alookup_aset_ne.
Qed.

Lemma entry_pushAt k k' (e : V) m :
  entry k (pushAt k' e m) = if k' =? k then entry k m ++ [e] else entry k m.
Proof.
  unfold pushAt. rewrite entry_aset.
  destruct (k' =? k) eqn:E; [|reflexivity].
  apply String.eqb_eq in E. now subst.
Qed.

Lemma entry_ensureKey k k' m : entry k (ensureKey k' m) = entry k m.
Proof.
  unfold ensureKey. destruct (alookup k' m) eqn:E; [reflexivity|].
  rewrite entry_aset. destruct (k' =? k) eqn:E'; [|reflexivity].
  apply String.eqb_eq in E'. subst. unfold entry. now rewrite E.
Qed.

End EntryFacts.

(** ** The scan of a page's actions *)

Section ScanFacts.
Context `{Platform}.
Variables (sameOrigin : bool) (baseOrigin : option string)
          (seen : gset string) (normalized : string).

Lemma actionStep_spec nu ed a :
  actionStep sameOrigin baseOrigin seen normalized (nu, ed) a =
  (nu ++ nextUrlsOf sameOrigin baseOrigin seen normalized a,
   ed ++ actionEdgesOf sameOrigin baseOrigin normalized a).
Proof.
  unfold actionStep, nextUrlsOf, actionEdgesOf, navTarget.
  destruct (a_type a); simpl; rewrite ?app_nil_r; try reflexivity.
  destruct (resolveHref normalized (a_href a)) as [abs|]; simpl;
    rewrite ?app_nil_r; try reflexivity.
  destruct (truthy abs); simpl; rewrite ?app_nil_r; try reflexivity.
  destruct (originBlocked sameOrigin baseOrigin (normalizeUrl abs)); simpl;
    rewrite ?app_nil_r; try reflexivity.
  destruct (has (normalizeUrl abs) seen); simpl; rewrite ?app_nil_r; reflexivity.
Qed.

Lemma scanActions_fold actions nu ed :
  fold_left (actionStep sameOrigin baseOrigin seen normalized) actions (nu, ed) =
  (nu ++ flat_map (nextUrlsOf sameOrigin baseOrigin seen normalized) actions,
   ed ++ flat_map (actionEdgesOf sameOrigin baseOrigin normalized) actions).
Proof.
  revert nu ed. induction actions as [|a l IH]; intros nu ed; cbn [fold_left flat_map].
  - now rewrite !app_nil_r.
  - rewrite actionStep_spec, IH, <- !app_assoc. reflexivity.
Qed.

Lemma scanActions_spec actions :
  scanActions sameOrigin baseOrigin seen normalized actions =
  (flat_map (nextUrlsOf sameOrigin baseOrigin seen normalized) actions,
   flat_map (actionEdgesOf sameOrigin baseOrigin normalized) actions).
Proof. unfold scanActions. now rewrite scanActions_fold. Qed.

End ScanFacts.

(** ** Growth of the action graph under the transition loop *)

Lemma grows_refl Q K ag : grows Q K ag ag.
Proof.
  intros k. split; [tauto|]. split; [tauto|]. exists []. now rewrite app_nil_r.
Qed.

Lemma grows_trans Q K ag1 ag2 ag3 :
  grows Q K ag1 ag2 -> grows Q K ag2 ag3 -> grows Q K ag1 ag3.
Proof.
  intros H12 H23 k. destruct (H12 k) as [K1 [N1 [x1 [E1 F1]]]].
  destruct (H23 k) as [K2 [N2 [x2 [E2 F2]]]]. split; [tauto|]. split; [tauto|].
  exists (x1 ++ x2). rewrite E2, E1, <- app_assoc. split; [reflexivity|].
  apply Forall_app; now split.
Qed.

Lemma grows_weaken (Q Q' : string -> Edge -> Prop) (K K' : string -> Prop) ag ag' :
  (forall k e, Q k e -> Q' k e) -> (forall k, K k -> K' k) ->
  grows Q K ag ag' -> grows Q' K' ag ag'.
Proof.
  intros HQ HK Hg k. destruct (Hg k) as [K1 [N1 [x [E F]]]]. split; [exact K1|].
  split; [intros Hk; destruct (N1 Hk); [now left | right; now apply HK]|].
  exists x. split; [exact E|]. eapply Forall_impl; [exact F|]. intros e. apply HQ.
Qed.

Lemma grows_In Q K ag ag' k e : grows Q K ag ag' -> In e (entry k ag) -> In e (entry k ag').
Proof.
  intros Hg Hin. destruct (Hg k) as [_ [_ [x [E _]]]]. rewrite E. apply in_or_app. now left.
Qed.

Lemma grows_pushAt (Q : string -> Edge -> Prop) (K : string -> Prop) k e ag :
  Q k e -> K k -> grows Q K ag (pushAt k e ag).
Proof.
  intros HQ HK k'. unfold pushAt. split; [|split].
  - destruct (String.eqb_spec k k') as [->|Hne].
    + now rewrite alookup_aset_eq.
    + now rewrite alookup_aset_ne.
  - destruct (String.eqb_spec k k') as [->|Hne].
    + now right.
    + rewrite alookup_aset_ne by assumption. now left.
  - fold (pushAt k e ag). rewrite entry_pushAt.
    destruct (String.eqb_spec k k') as [->|Hne].
    + exists [e]. split; [reflexivity|]. now constructor.
    + exists []. now rewrite app_nil_r.
Qed.

Lemma grows_ensureKey Q (K : string -> Prop) k (ag : list (string * list Edge)) :
  K k -> grows Q K ag (ensureKey k ag).
Proof.
  intros HK k'. split; [|split].
  - unfold ensureKey. destruct (alookup k ag) eqn:E; [tauto|].
    destruct (String.eqb_spec k k') as [->|Hne].
    + now rewrite alookup_aset_eq.
    + now rewrite alookup_aset_ne.
  - unfold ensureKey. destruct (alookup k ag) eqn:E; [tauto|].
    destruct (String.eqb_spec k k') as [->|Hne].
    + now right.
    + rewrite alookup_aset_ne by assumption. now left.
  - rewrite entry_ensureKey. exists []. now rewrite app_nil_r.
Qed.

Lemma transNodeId_neq page trigger : transNodeId page trigger <> page.
Proof. unfold transNodeId. apply append_nonempty_neq. discriminate. Qed.

Lemma optNodeId_neq node opt : optNodeId node opt <> node.
Proof. unfold optNodeId. apply append_nonempty_neq. discriminate. Qed.

Lemma optNodeId_trans_neq page trigger opt :
  optNodeId (transNodeId page trigger) opt <> page.
Proof.
  unfold optNodeId, transNodeId. intros Heq.
  apply (f_equal String.length) in Heq. rewrite !append_length in Heq. simpl in Heq. lia.
Qed.

Section TransitionFacts.
Context `{Platform}.

Lemma navMatches_transition opt e : e_type e = ETransition -> navMatches opt e = false.
Proof. intros He. unfold navMatches. now rewrite He. Qed.

(** The search for a navigation match only ever sees the scanned edges:
    the transition edges pushed meanwhile cannot match. *)
Lemma find_navMatches_app opt scanned ts :
  Forall (fun e => e_type e = ETransition) ts ->
  find (navMatches opt) (scanned ++ ts) = find (navMatches opt) scanned.
Proof.
  intros Hts. induction scanned as [|e l IH]; simpl.
  - induction Hts as [|e ts He Hts IH]; simpl; [reflexivity|].
    now rewrite navMatches_transition.
  - destruct (navMatches opt e); [reflexivity | exact IH].
Qed.

Lemma transEdgeOf_types n trs :
  Forall (fun e => e_type e = ETransition) (flat_map (transEdgeOf n) trs).
Proof.
  induction trs as [|tr l IH]; simpl; [constructor|].
  apply Forall_app. split; [|exact IH].
  unfold transEdgeOf. destruct (truthy _); repeat constructor.
Qed.

Lemma optionStep_grows n trigger scanned ts ag opt :
  Forall (fun e => e_type e = ETransition) ts ->
  grows (fun k e => truthy opt = true /\ optionPush n scanned trigger opt k e)
        (fun k => truthy opt = true /\
                  (k = transNodeId n trigger \/ k = optNodeId (transNodeId n trigger) opt))
        ag (optionStep n (transNodeId n trigger) (scanned ++ ts) ag opt).
Proof.
  intros Hts. unfold optionStep. destruct (truthy opt) eqn:Ho; simpl; [|apply grows_refl].
  rewrite find_navMatches_app by assumption.
  set (tnode := transNodeId n trigger). set (onode := optNodeId tnode opt).
  eapply grows_trans;
    [apply (grows_pushAt _ _ tnode (mkEdge onode opt EClick None))|].
  { split; [reflexivity|]. now left. }
  { split; [reflexivity|]. now left. }
  eapply grows_trans; [apply (grows_ensureKey _ _ onode)|].
  { split; [reflexivity|]. now right. }
  assert (HQ : forall e, e = optionTarget n scanned opt ->
               true = true /\ optionPush n scanned trigger opt onode e).
  { intros e ->. split; [reflexivity|]. now right. }
  assert (HK : true = true /\ (onode = tnode \/ onode = onode)) by (split; [reflexivity | now right]).
  unfold optionTarget in HQ.
  destruct (find (navMatches opt) scanned) as [m|]; apply grows_pushAt; auto.
Qed.

Lemma optionFold_grows n trigger scanned ts opts ag :
  Forall (fun e => e_type e = ETransition) ts ->
  grows (fun k e => exists opt, In opt opts /\ truthy opt = true /\
                                optionPush n scanned trigger opt k e)
        (fun k => exists opt, In opt opts /\ truthy opt = true /\
                  (k = transNodeId n trigger \/ k = optNodeId (transNodeId n trigger) opt))
        ag (fold_left (optionStep n (transNodeId n trigger) (scanned ++ ts)) opts ag).
Proof.
  intros Hts. revert ag. induction opts as [|o l IH]; intros ag; cbn [fold_left].
  - apply grows_refl.
  - eapply grows_trans.
    + eapply grows_weaken; [| |apply (optionStep_grows n trigger scanned ts ag o Hts)].
      * intros k e [Ho Hp]. exists o. split; [now left | now split].
      * intros k [Ho Hk]. exists o. split; [now left | now split].
    + eapply grows_weaken; [| |apply IH].
      * intros k e [o' [Hin Hp]]. exists o'. split; [now right | exact Hp].
      * intros k [o' [Hin Hp]]. exists o'. split; [now right | exact Hp].
Qed.

Lemma transitionStep_edges n ae ag tr :
  fst (transitionStep n (ae, ag) tr) = ae ++ transEdgeOf n tr.
Proof.
  unfold transitionStep, transEdgeOf.
  destruct (truthy (vt_triggerLabel tr)); simpl; [reflexivity | now rewrite app_nil_r].
Qed.

Lemma transitionStep_grows n scanned ts ag tr :
  Forall (fun e => e_type e = ETransition) ts ->
  grows (pushedBy n scanned [tr]) (syntheticKey n [tr])
        ag (snd (transitionStep n (scanned ++ ts, ag) tr)).
Proof.
  intros Hts. unfold transitionStep.
  destruct (truthy (vt_triggerLabel tr)) eqn:Ht; simpl; [|apply grows_refl].
  eapply grows_trans;
    [apply (grows_ensureKey _ _ (transNodeId n (vt_triggerLabel tr)))|].
  { exists tr. split; [now left|]. split; [exact Ht | now left]. }
  rewrite <- app_assoc.
  eapply grows_weaken; [| |apply optionFold_grows].
  - intros k e [opt [Hin [Ho Hp]]]. exists tr, opt. repeat split; auto. now left.
  - intros k [opt [Hin [Ho Hk]]]. exists tr. split; [now left|]. split; [exact Ht|].
    destruct Hk as [->| ->]; [now left|]. right. now exists opt.
  - apply Forall_app. split; [exact Hts|]. repeat constructor.
Qed.

Lemma pushedBy_mono n scanned l l' k e :
  (forall tr, In tr l -> In tr l') -> pushedBy n scanned l k e -> pushedBy n scanned l' k e.
Proof.
  intros Hsub [tr [opt [Hin Hrest]]]. exists tr, opt. split; [now apply Hsub | exact Hrest].
Qed.

Lemma syntheticKey_mono n l l' k :
  (forall tr, In tr l -> In tr l') -> syntheticKey n l k -> syntheticKey n l' k.
Proof.
  intros Hsub [tr [Hin Hrest]]. exists tr. split; [now apply Hsub | exact Hrest].
Qed.

Lemma scanTransitions_cons n tr trs ae ag :
  scanTransitions n (tr :: trs) ae ag =
  scanTransitions n trs (fst (transitionStep n (ae, ag) tr))
                        (snd (transitionStep n (ae, ag) tr)).
Proof.
  unfold scanTransitions. cbn [fold_left].
  now destruct (transitionStep n (ae, ag) tr).
Qed.

Lemma scanTransitions_edges n trs ae ag :
  fst (scanTransitions n trs ae ag) = ae ++ flat_map (transEdgeOf n) trs.
Proof.
  revert ae ag. induction trs as [|tr l IH]; intros ae ag.
  - simpl. now rewrite app_nil_r.
  - rewrite scanTransitions_cons, IH, transitionStep_edges, <- app_assoc. reflexivity.
Qed.

Lemma scanTransitions_grows_gen n trs scanned ts ag :
  Forall (fun e => e_type e = ETransition) ts ->
  grows (pushedBy n scanned trs) (syntheticKey n trs)
        ag (snd (scanTransitions n trs (scanned ++ ts) ag)).
Proof.
  revert ts ag. induction trs as [|tr l IH]; intros ts ag Hts.
  - apply grows_refl.
  - rewrite scanTransitions_cons, transitionStep_edges, <- app_assoc.
    eapply grows_trans.
    + eapply grows_weaken; [| |apply (transitionStep_grows n scanned ts ag tr Hts)].
      * intros k e. apply pushedBy_mono. intros x [->|[]]. now left.
      * intros k. apply syntheticKey_mono. intros x [->|[]]. now left.
    + eapply grows_weaken; [| |apply IH].
      * intros k e. apply pushedBy_mono. intros x Hx. now right.
      * intros k. apply syntheticKey_mono. intros x Hx. now right.
      * apply Forall_app. split; [exact Hts|].
        unfold transEdgeOf. destruct (truthy _); repeat constructor.
Qed.

Lemma scanTransitions_grows n trs scanned ag :
  grows (pushedBy n scanned trs) (syntheticKey n trs)
        ag (snd (scanTransitions n trs scanned ag)).
Proof.
  rewrite <- (app_nil_r scanned) at 2. apply scanTransitions_grows_gen. constructor.
Qed.

Lemma scanTransitions_app n l1 l2 ae ag :
  scanTransitions n (l1 ++ l2) ae ag =
  scanTransitions n l2 (fst (scanTransitions n l1 ae ag)) (snd (scanTransitions n l1 ae ag)).
Proof.
  unfold scanTransitions. rewrite fold_left_app.
  now destruct (fold_left (transitionStep n) l1 (ae, ag)).
Qed.

Lemma mergePage_spec so st input res :
  mergePage so st input res =
  ({| visited := {[v_normalized res]} ∪ visited st;
      pages := pages st ++
               [mkPageVisit (v_normalized res) (v_title res) (f_depth input)
                            (v_actions res) (v_screenshotPath res)];
      graph := aset (v_normalized res)
                 (flat_map (nextUrlsOf so (f_origin input)
                              ({[v_normalized res]} ∪ visited st) (v_normalized res))
                           (v_actions res))
                 (graph st);
      actionGraph :=
        aset (v_normalized res)
             (entry (v_normalized res) (probedGraph so st input res) ++
              filteredEdges (allEdges so input res))
             (probedGraph so st input res) |},
   flat_map (nextUrlsOf so (f_origin input)
               ({[v_normalized res]} ∪ visited st) (v_normalized res))
            (v_actions res)).
Proof.
  unfold mergePage, probedGraph, allEdges, scannedEdges.
  rewrite scanActions_spec.
  rewrite <- scanTransitions_edges with (ag := actionGraph st).
  destruct (scanTransitions _ _ _ _) as [ae' ag']. reflexivity.
Qed.

Lemma optionPush_key_neq n scanned trigger opt k e :
  optionPush n scanned trigger opt k e -> k <> n.
Proof.
  intros [[-> _]|[-> _]]; [apply transNodeId_neq | apply optNodeId_trans_neq].
Qed.

Lemma optionPush_synthetic n scanned trigger opt k e :
  optionPush n scanned trigger opt k e -> syntheticEdge k e.
Proof.
  intros [[-> ->]|[-> ->]].
  - left. split; [reflexivity|]. apply optNodeId_neq.
  - unfold optionTarget. destruct (find (navMatches opt) scanned) as [m|].
    + now right.
    + left. split; [reflexivity|]. simpl. intros Heq. symmetry in Heq. revert Heq.
      apply optNodeId_trans_neq.
Qed.

Lemma pushedBy_key_neq n scanned trs k e : pushedBy n scanned trs k e -> k <> n.
Proof.
  intros [tr [opt [_ [_ [_ [_ Hp]]]]]]. eapply optionPush_key_neq; exact Hp.
Qed.

Lemma pushedBy_synthetic n scanned trs k e : pushedBy n scanned trs k e -> syntheticEdge k e.
Proof.
  intros [tr [opt [_ [_ [_ [_ Hp]]]]]]. eapply optionPush_synthetic; exact Hp.
Qed.

Lemma syntheticKey_neq n trs k : syntheticKey n trs k -> k <> n.
Proof.
  intros [tr [_ [_ [->|[opt [_ [_ ->]]]]]]];
    [apply transNodeId_neq | apply optNodeId_trans_neq].
Qed.

Lemma probedGraph_grows so st input res :
  grows (pushedBy (v_normalized res) (scannedEdges so input res) (v_transitions res))
        (syntheticKey (v_normalized res) (v_transitions res))
        (actionGraph st) (probedGraph so st input res).
Proof. unfold probedGraph. apply scanTransitions_grows. Qed.

(** The transition loop leaves the page's own entry alone. *)
Lemma probedGraph_entry_page so st input res :
  entry (v_normalized res) (probedGraph so st input res) =
  entry (v_normalized res) (actionGraph st).
Proof.
  destruct (probedGraph_grows so st input res (v_normalized res)) as [_ [_ [x [E F]]]].
  destruct x as [|e x]; [now rewrite app_nil_r in E|].
  inversion F as [|? ? He _]; subst. now apply pushedBy_key_neq in He.
Qed.

End TransitionFacts.

(** ** Invariants of the loops *)

Section LoopFacts.
Context `{Platform}.
Variables (browser : nat -> string -> PageLoad) (shotPath : string -> option string).
Variables (so : bool) (md : Z) (d : bool) (t : Z).

Lemma mergeResult_skip st cands input res :
  has (v_normalized res) (visited st) = true ->
  mergeResult so md (st, cands) (Some (input, res)) = (st, cands).
Proof. intros Hv. simpl. now rewrite Hv. Qed.

Lemma mergeResult_fresh st cands input res :
  has (v_normalized res) (visited st) = false ->
  mergeResult so md (st, cands) (Some (input, res)) =
  (fst (mergePage so st input res),
   if (f_depth input + 1 <=? md)%Z
   then cands ++ map (fun nurl => mkFrontierEntry nurl (f_depth input + 1) (f_origin input))
                     (snd (mergePage so st input res))
   else cands).
Proof.
  intros Hv. simpl. rewrite Hv. now destruct (mergePage so st input res).
Qed.

Lemma dispatch_settled (Q : FrontierEntry -> Prop) clock chunk :
  Forall Q chunk ->
  Forall (settled browser shotPath d t Q) (dispatch browser shotPath d t clock chunk).
Proof.
  revert clock. induction chunk as [|f l IH]; intros clock HQ; cbn [dispatch].
  - constructor.
  - inversion HQ; subst. constructor; [|now apply IH].
    destruct (visit shotPath (browser clock (f_url f)) (f_url f) d t) eqn:E; simpl; [|exact I].
    split; [assumption|]. now exists clock.
Qed.

Lemma dispatch_length clock chunk :
  length (dispatch browser shotPath d t clock chunk) = length chunk.
Proof.
  revert clock. induction chunk as [|f l IH]; intros clock; cbn [dispatch length];
    [reflexivity | now rewrite IH].
Qed.

Section Invariant.
Variables (P : CrawlState -> Prop) (Q : FrontierEntry -> Prop).
Hypothesis Hstep : forall st input res,
  P st -> Q input -> visitedBy browser shotPath d t input res ->
  has (v_normalized res) (visited st) = false ->
  P (fst (mergePage so st input res)).

Lemma mergeResult_inv acc r :
  settled browser shotPath d t Q r -> P (fst acc) -> P (fst (mergeResult so md acc r)).
Proof.
  destruct acc as [st cands]. destruct r as [[input res]|]; [|trivial].
  intros [HQ Hv] HP. destruct (has (v_normalized res) (visited st)) eqn:E.
  - now rewrite mergeResult_skip.
  - rewrite mergeResult_fresh by assumption. simpl. now apply Hstep.
Qed.

Lemma fold_mergeResult_inv rs acc :
  Forall (settled browser shotPath d t Q) rs -> P (fst acc) ->
  P (fst (fold_left (mergeResult so md) rs acc)).
Proof.
  revert acc. induction rs as [|r l IH]; intros acc HF HP; cbn [fold_left]; [assumption|].
  inversion HF; subst. apply IH; [assumption|]. now apply mergeResult_inv.
Qed.

Lemma chunkLoop_inv rounds c toVisit i clock acc :
  Forall Q toVisit -> P (fst acc) ->
  P (fst (fst (chunkLoop browser shotPath rounds so md c d t toVisit i clock acc))).
Proof.
  intros HQ. revert i clock acc.
  induction rounds as [|n IH]; intros i clock acc HP; cbn [chunkLoop]; [assumption|].
  destruct (i <? length toVisit)%nat; [|assumption].
  apply IH. apply fold_mergeResult_inv; [|assumption].
  apply dispatch_settled. apply Forall_take. now apply Forall_drop.
Qed.

Hypothesis HQ : forall f, (f_depth f <= md)%Z -> Q f.

Lemma layerLoop_inv layers mp c depth frontier clock st :
  P st ->
  P (layerLoop browser shotPath layers so md mp c d t depth frontier clock st).
Proof.
  revert depth frontier clock st.
  induction layers as [|n IH]; intros depth frontier clock st HP; cbn [layerLoop];
    [assumption|].
  destruct ((depth <=? md)%Z && (0 <? length frontier)%nat && (pagesLen st <? mp)%Z)
    eqn:Hcond; [|assumption].
  apply andb_true_iff in Hcond as [Hcond _]. apply andb_true_iff in Hcond as [Hd _].
  apply Z.leb_le in Hd.
  destruct (length (List.filter (fun f => (f_depth f =? depth)%Z) frontier) =? 0)%nat;
    [now apply IH|].
  match goal with |- context [chunkLoop _ _ ?r _ _ ?c ?d ?t ?tv ?i ?cl ?acc] =>
    pose proof (chunkLoop_inv r c tv i cl acc) as Hc;
    destruct (chunkLoop browser shotPath r so md c d t tv i cl acc) as [[st' cands] clock']
  end.
  apply IH. apply Hc; [|assumption].
  unfold toVisitOf. apply Forall_take. apply Forall_forall. intros f Hf. apply HQ.
  apply list_elem_of_In in Hf. apply filter_In in Hf as [Hf _].
  apply filter_In in Hf as [_ Hf]. apply Z.eqb_eq in Hf. lia.
Qed.

End Invariant.

End LoopFacts.

(** ** Pages are unique, within budget and within depth *)

Section PageFacts.
Context `{Platform}.
Variables (browser : nat -> string -> PageLoad) (shotPath : string -> option string).

Lemma claimedOnce_initial : claimedOnce initialState.
Proof.
  split; simpl; [constructor|]. intros u. split; [set_solver | tauto].
Qed.

Lemma claimedOnce_mergePage so st input res :
  claimedOnce st -> has (v_normalized res) (visited st) = false ->
  claimedOnce (fst (mergePage so st input res)).
Proof.
  intros [Hnd Hv] Hfresh. apply has_false in Hfresh.
  rewrite mergePage_spec. unfold claimedOnce. simpl. rewrite map_app. simpl. split.
  - apply NoDup_app. split; [assumption|]. split.
    + intros x Hx Hx'. apply list_elem_of_In in Hx.
      apply list_elem_of_singleton in Hx'. subst x. apply Hfresh. now apply Hv.
    + apply NoDup_singleton.
  - intros u. rewrite in_app_iff, elem_of_union, elem_of_singleton, Hv. simpl.
    intuition congruence.
Qed.

Lemma crawlState_claimedOnce o : claimedOnce (crawlState browser shotPath o).
Proof.
  unfold crawlState.
  apply (layerLoop_inv browser shotPath _ _ _ _ claimedOnce (fun _ => True)).
  - intros st input res HP _ _ Hf. now apply claimedOnce_mergePage.
  - trivial.
  - apply claimedOnce_initial.
Qed.

Lemma mergePage_pages_length so st input res :
  length (pages (fst (mergePage so st input res))) = S (length (pages st)).
Proof. rewrite mergePage_spec. simpl. rewrite length_app. simpl. lia. Qed.

Lemma mergeResult_pages_length so md acc r :
  (length (pages (fst (mergeResult so md acc r))) <= S (length (pages (fst acc))))%nat.
Proof.
  destruct acc as [st cands]. destruct r as [[input res]|]; [|simpl; lia].
  destruct (has (v_normalized res) (visited st)) eqn:E.
  - rewrite mergeResult_skip by assumption. simpl. lia.
  - rewrite mergeResult_fresh by assumption. simpl. rewrite mergePage_pages_length. lia.
Qed.

Lemma fold_mergeResult_pages_length so md rs acc :
  (length (pages (fst (fold_left (mergeResult so md) rs acc)))
   <= length (pages (fst acc)) + length rs)%nat.
Proof.
  revert acc. induction rs as [|r l IH]; intros acc; cbn [fold_left length]; [lia|].
  specialize (IH (mergeResult so md acc r)).
  pose proof (mergeResult_pages_length so md acc r). lia.
Qed.

Lemma chunkLoop_pages_length rounds so md c d t toVisit i clock acc :
  (length (pages (fst (fst (chunkLoop browser shotPath rounds so md c d t toVisit i clock acc))))
   <= length (pages (fst acc)) + (length toVisit - i))%nat.
Proof.
  revert i clock acc.
  induction rounds as [|n IH]; intros i clock acc; cbn [chunkLoop]; [cbn [fst]; lia|].
  destruct (i <? length toVisit)%nat eqn:Hi; [|cbn [fst]; lia].
  apply Nat.ltb_lt in Hi.
  match goal with |- context [chunkLoop _ _ n _ _ _ _ _ _ ?i' ?cl ?acc'] =>
    specialize (IH i' cl acc'); set (acc1 := acc') in *
  end.
  assert (Hf : (length (pages (fst acc1))
                <= length (pages (fst acc)) + length (firstn c (skipn i toVisit)))%nat).
  { subst acc1. etransitivity; [apply fold_mergeResult_pages_length|].
    rewrite dispatch_length. lia. }
  rewrite length_firstn, length_skipn in Hf. lia.
Qed.

Lemma layerLoop_pages_length layers so md mp c d t depth frontier clock st :
  (pagesLen (layerLoop browser shotPath layers so md mp c d t depth frontier clock st)
   <= Z.max (pagesLen st) mp)%Z.
Proof.
  revert depth frontier clock st.
  induction layers as [|n IH]; intros depth frontier clock st; cbn [layerLoop]; [lia|].
  destruct ((depth <=? md)%Z && (0 <? length frontier)%nat && (pagesLen st <? mp)%Z)
    eqn:Hcond; [|lia].
  apply andb_true_iff in Hcond as [_ Hp]. apply Z.ltb_lt in Hp.
  destruct (length (List.filter (fun f => (f_depth f =? depth)%Z) frontier) =? 0)%nat;
    [apply IH|].
  match goal with |- context [chunkLoop _ _ ?r _ _ ?c ?d ?t ?tv ?i ?cl ?acc] =>
    pose proof (chunkLoop_pages_length r so md c d t tv i cl acc) as Hc;
    pose proof (length_firstn (Z.to_nat (Z.max 0 (mp - pagesLen st)))
                  (List.filter (fun f => negb (has (f_url f) (visited st)))
                     (List.filter (fun f => (f_depth f =? depth)%Z) frontier))) as Hl;
    fold (toVisitOf mp st (List.filter (fun f => (f_depth f =? depth)%Z) frontier)) in Hl;
    destruct (chunkLoop browser shotPath r so md c d t tv i cl acc) as [[st' cands] clock']
  end.
  simpl in Hc. etransitivity; [apply IH|].
  unfold pagesLen in *. lia.
Qed.

Lemma depthBound_mergePage so md st input res :
  Forall (fun p => (p_depth p <= md)%Z) (pages st) -> (f_depth input <= md)%Z ->
  Forall (fun p => (p_depth p <= md)%Z) (pages (fst (mergePage so st input res))).
Proof.
  intros HF Hd. rewrite mergePage_spec. simpl. apply Forall_app. split; [assumption|].
  constructor; [assumption | constructor].
Qed.

End PageFacts.

(** ** Partial failure and termination of the loops *)

Section FailureFacts.
Context `{Platform}.
Variables (browser : nat -> string -> PageLoad) (shotPath : string -> option string).

Lemma dispatch_app d t clock l1 l2 :
  dispatch browser shotPath d t clock (l1 ++ l2) =
  dispatch browser shotPath d t clock l1 ++
  dispatch browser shotPath d t (clock + length l1) l2.
Proof.
  revert clock. induction l1 as [|f l IH]; intros clock; cbn [dispatch app length].
  - now rewrite Nat.add_0_r.
  - rewrite IH. now rewrite <- Nat.add_succ_comm.
Qed.

Lemma chunkLoop_more_rounds rounds extra so md c d t toVisit i clock acc :
  (1 <= c)%nat -> (length toVisit - i <= rounds)%nat ->
  chunkLoop browser shotPath (rounds + extra) so md c d t toVisit i clock acc =
  chunkLoop browser shotPath rounds so md c d t toVisit i clock acc.
Proof.
  intros Hc. revert i clock acc.
  induction rounds as [|n IH]; intros i clock acc Hr.
  - destruct extra as [|e]; cbn [chunkLoop Nat.add]; [reflexivity|].
    destruct (i <? length toVisit)%nat eqn:Hi; [|reflexivity].
    apply Nat.ltb_lt in Hi. lia.
  - cbn [chunkLoop Nat.add].
    destruct (i <? length toVisit)%nat eqn:Hi; [|reflexivity].
    apply IH. lia.
Qed.


End FailureFacts.

(** ** What one merge writes *)

Section MergeFacts.
Context `{Platform}.

Lemma transitionLabels_has ae l :
  has l (transitionLabels ae) = true <->
  exists t, In t ae /\ e_type t = ETransition /\ e_label t = l.
Proof.
  rewrite has_true. unfold transitionLabels.
  rewrite elem_of_list_to_set, list_elem_of_In, in_map_iff. split.
  - intros [t [Hl Hin]]. apply filter_In in Hin as [Hin Ht]. exists t.
    split; [assumption|]. split; [|assumption]. now destruct (e_type t).
  - intros [t [Hin [Ht Hl]]]. exists t. split; [assumption|].
    apply filter_In. split; [assumption|]. now rewrite Ht.
Qed.

Lemma keepEdge_true ae e :
  keepEdge (transitionLabels ae) e = true <->
  ~ ((e_type e = EClick \/ e_type e = EToggle) /\
     exists t, In t ae /\ e_type t = ETransition /\ e_label t = e_label e).
Proof.
  unfold keepEdge. rewrite negb_true_iff. rewrite <- transitionLabels_has.
  destruct (has (e_label e) (transitionLabels ae)); destruct (e_type e); simpl;
    intuition congruence.
Qed.

Lemma filteredEdges_In ae e :
  In e (filteredEdges ae) <->
  In e ae /\
  ~ ((e_type e = EClick \/ e_type e = EToggle) /\
     exists t, In t ae /\ e_type t = ETransition /\ e_label t = e_label e).
Proof.
  unfold filteredEdges. rewrite filter_In, keepEdge_true. reflexivity.
Qed.

Lemma mergePage_entry_page so st input res :
  entry (v_normalized res) (actionGraph (fst (mergePage so st input res))) =
  entry (v_normalized res) (actionGraph st) ++ filteredEdges (allEdges so input res).
Proof.
  rewrite mergePage_spec. cbn [fst actionGraph].
  rewrite entry_aset, String.eqb_refl. now rewrite probedGraph_entry_page.
Qed.

Lemma mergePage_entry_other so st input res k :
  k <> v_normalized res ->
  entry k (actionGraph (fst (mergePage so st input res))) =
  entry k (probedGraph so st input res).
Proof.
  intros Hne. rewrite mergePage_spec. cbn [fst actionGraph].
  rewrite entry_aset. destruct (String.eqb_spec (v_normalized res) k); congruence.
Qed.

(** Every entry only ever gets longer by a merge. *)
Lemma mergePage_grows so st input res :
  grows (fun k e =>
           (k = v_normalized res /\ In e (filteredEdges (allEdges so input res))) \/
           pushedBy (v_normalized res) (scannedEdges so input res) (v_transitions res) k e)
        (fun k => k = v_normalized res \/
                  syntheticKey (v_normalized res) (v_transitions res) k)
        (actionGraph st) (actionGraph (fst (mergePage so st input res))).
Proof.
  intros k. destruct (probedGraph_grows so st input res k) as [K1 [N1 [x [E F]]]].
  destruct (String.eqb_spec k (v_normalized res)) as [->|Hne].
  - split; [|split].
    + intros _. rewrite mergePage_spec. cbn [fst actionGraph].
      now rewrite alookup_aset_eq.
    + intros _. right. now left.
    + rewrite mergePage_entry_page. eexists. split; [reflexivity|].
      apply Forall_forall. intros e He. apply list_elem_of_In in He. left. now split.
  - assert (Hl : alookup k (actionGraph (fst (mergePage so st input res))) =
                 alookup k (probedGraph so st input res)).
    { rewrite mergePage_spec. cbn [fst actionGraph]. apply alookup_aset_ne. congruence. }
    split; [|split].
    + rewrite Hl. exact K1.
    + rewrite Hl. intros Hk. destruct (N1 Hk); [now left | right; now right].
    + rewrite mergePage_entry_other by assumption. exists x. split; [exact E|].
      eapply Forall_impl; [exact F|]. intros e He. now right.
Qed.

Lemma mergePage_keeps_edges so st input res k e :
  In e (entry k (actionGraph st)) ->
  In e (entry k (actionGraph (fst (mergePage so st input res)))).
Proof. apply grows_In with (1 := mergePage_grows so st input res). Qed.

Lemma mergePage_graph so st input res :
  alookup (v_normalized res) (graph (fst (mergePage so st input res))) =
  Some (snd (mergePage so st input res)).
Proof. rewrite mergePage_spec. cbn [fst snd graph]. apply alookup_aset_eq. Qed.

Lemma mergePage_nextUrls so st input res :
  snd (mergePage so st input res) =
  flat_map (nextUrlsOf so (f_origin input) ({[v_normalized res]} ∪ visited st)
                       (v_normalized res)) (v_actions res).
Proof. now rewrite mergePage_spec. Qed.

Lemma navTarget_Some so bo n a u :
  navTarget so bo n a = Some u <->
  a_type a = Navigate /\
  exists abs, resolveHref n (a_href a) = Some abs /\ truthy abs = true /\
              u = normalizeUrl abs /\ originBlocked so bo (normalizeUrl abs) = false.
Proof.
  unfold navTarget. destruct (a_type a); try (split; [discriminate | intros [? _]; discriminate]).
  destruct (resolveHref n (a_href a)) as [abs|].
  - destruct (truthy abs) eqn:Ht.
    + destruct (originBlocked so bo (normalizeUrl abs)) eqn:Hb.
      * split; [discriminate|]. intros [_ [abs' [[= <-] [_ [_ Hb']]]]]. congruence.
      * split.
        -- intros [= <-]. split; [reflexivity|]. now exists abs.
        -- intros [_ [abs' [[= <-] [_ [-> _]]]]]. reflexivity.
    + split; [discriminate|]. intros [_ [abs' [[= <-] [Ht' _]]]]. congruence.
  - split; [discriminate|]. intros [_ [abs' [Hr _]]]. discriminate.
Qed.

Lemma nextUrls_In so bo seen n actions u :
  In u (flat_map (nextUrlsOf so bo seen n) actions) <->
  exists a, In a actions /\ navTarget so bo n a = Some u /\ u ∉ seen.
Proof.
  rewrite in_flat_map. unfold nextUrlsOf. split.
  - intros [a [Hin Hu]]. exists a. split; [assumption|].
    destruct (navTarget so bo n a) as [f|]; [|destruct Hu].
    destruct (has f seen) eqn:Hs; [destruct Hu|].
    destruct Hu as [<-|[]]. split; [reflexivity|]. now apply has_false.
  - intros [a [Hin [Hn Hs]]]. exists a. split; [assumption|].
    rewrite Hn. apply has_false in Hs. rewrite Hs. now left.
Qed.

Lemma scannedEdges_navigate so input res a u :
  In a (v_actions res) ->
  navTarget so (f_origin input) (v_normalized res) a = Some u ->
  In (mkEdge u (a_label a) ENavigate None) (scannedEdges so input res).
Proof.
  intros Hin Hn. unfold scannedEdges. apply in_flat_map. exists a. split; [assumption|].
  unfold actionEdgesOf. rewrite Hn.
  apply navTarget_Some in Hn as [-> _]. now left.
Qed.

Lemma scannedEdges_In so input res e :
  In e (scannedEdges so input res) <->
  exists a, In a (v_actions res) /\
    ((a_type a <> Navigate /\
      e = mkEdge (v_normalized res) (a_label a) (edgeTypeOf (a_type a)) (a_options a)) \/
     (exists u, navTarget so (f_origin input) (v_normalized res) a = Some u /\
                e = mkEdge u (a_label a) ENavigate None)).
Proof.
  unfold scannedEdges. rewrite in_flat_map. split.
  - intros [a [Hin He]]. exists a. split; [assumption|].
    unfold actionEdgesOf in He. destruct (a_type a) eqn:Ht.
    + right. destruct (navTarget _ _ _ a) as [u|] eqn:Hn; [|destruct He].
      destruct He as [<-|[]]. now exists u.
    + left. destruct He as [<-|[]]. split; [discriminate | reflexivity].
    + left. destruct He as [<-|[]]. split; [discriminate | reflexivity].
  - intros [a [Hin [[Ht ->]|[u [Hn ->]]]]]; exists a; (split; [assumption|]);
      unfold actionEdgesOf.
    + destruct (a_type a); [congruence | now left | now left].
    + rewrite Hn. apply navTarget_Some in Hn as [-> _]. now left.
Qed.

Lemma scannedEdges_types so input res e :
  In e (scannedEdges so input res) -> e_type e <> ETransition.
Proof.
  intros He. apply scannedEdges_In in He as [a [_ [[_ ->]|[u [_ ->]]]]]; simpl;
    [destruct (a_type a)|]; discriminate.
Qed.

Lemma transEdges_In n trs e :
  In e (flat_map (transEdgeOf n) trs) <->
  exists tr, In tr trs /\ truthy (vt_triggerLabel tr) = true /\
             e = mkEdge (transNodeId n (vt_triggerLabel tr)) (vt_triggerLabel tr)
                        ETransition None.
Proof.
  rewrite in_flat_map. unfold transEdgeOf. split.
  - intros [tr [Hin He]]. exists tr. split; [assumption|].
    destruct (truthy (vt_triggerLabel tr)); [|destruct He].
    destruct He as [<-|[]]. now split.
  - intros [tr [Hin [Ht ->]]]. exists tr. split; [assumption|]. rewrite Ht. now left.
Qed.

End MergeFacts.

(** ** The same-origin check and the frontier candidates *)

Section GateFacts.
Context `{Platform}.

Lemma originBlocked_sameOrigin o f :
  o <> "" -> (originBlocked true (Some o) f = false <-> originOf f = Some o).
Proof.
  intros Ho. apply truthy_true in Ho. unfold originBlocked, originOf. rewrite Ho. simpl.
  destruct (url_parse f) as [u|]; [|split; discriminate].
  rewrite negb_false_iff, String.eqb_eq. split; [now intros -> | now intros [= ->]].
Qed.

Lemma mergeResult_state so md st cands input res :
  v_normalized res ∉ visited st ->
  fst (mergeResult so md (st, cands) (Some (input, res))) = fst (mergePage so st input res).
Proof. intros Hf. apply has_false in Hf. now rewrite mergeResult_fresh. Qed.

Lemma mergeResult_candidates so md st cands input res :
  v_normalized res ∉ visited st ->
  snd (mergeResult so md (st, cands) (Some (input, res))) =
  if (f_depth input + 1 <=? md)%Z
  then cands ++ map (fun nurl => mkFrontierEntry nurl (f_depth input + 1) (f_origin input))
                    (snd (mergePage so st input res))
  else cands.
Proof. intros Hf. apply has_false in Hf. now rewrite mergeResult_fresh. Qed.

Lemma entry_graph_mergePage so st input res :
  entry (v_normalized res) (graph (fst (mergePage so st input res))) =
  snd (mergePage so st input res).
Proof. unfold entry. now rewrite mergePage_graph. Qed.

Lemma navigate_edge_kept so st input res a u :
  In a (v_actions res) ->
  navTarget so (f_origin input) (v_normalized res) a = Some u ->
  In (mkEdge u (a_label a) ENavigate None)
     (entry (v_normalized res) (actionGraph (fst (mergePage so st input res)))).
Proof.
  intros Hin Hn. rewrite mergePage_entry_page. apply in_or_app. right.
  apply filteredEdges_In. split.
  - unfold allEdges. apply in_or_app. left. now apply scannedEdges_navigate with (a := a).
  - intros [[Hc|Hc] _]; discriminate.
Qed.

Lemma navigate_edge_origin so input res u l :
  In (mkEdge u l ENavigate None) (filteredEdges (allEdges so input res)) ->
  exists a, In a (v_actions res) /\
            navTarget so (f_origin input) (v_normalized res) a = Some u.
Proof.
  intros Hin. apply filteredEdges_In in Hin as [Hin _]. unfold allEdges in Hin.
  apply in_app_or in Hin as [Hin|Hin].
  - apply scannedEdges_In in Hin as [a [Ha [[Hty He]|[u' [Hn He]]]]].
    + injection He as _ _ Hc _. destruct (a_type a); simpl in Hc; congruence.
    + injection He as -> _. now exists a.
  - apply transEdges_In in Hin as [tr [_ [_ He]]]. discriminate.
Qed.

End GateFacts.

(** ** Self-loops that duplicate a trigger *)

Section PruneFacts.
Context `{Platform}.

Lemma synthetic_not_transition k e : syntheticEdge k e -> e_type e <> ETransition.
Proof. intros [[Hc _]|Hn]; congruence. Qed.

Lemma synthetic_not_self_loop k e :
  syntheticEdge k e -> e_type e = EClick \/ e_type e = EToggle -> e_to e <> k.
Proof. intros [[_ Hne]|Hn] [Hc|Hc]; congruence. Qed.

Lemma pruned_mergePage so st input res :
  selfLoopsPruned (actionGraph st) /\ onlySynthetic st ->
  v_normalized res ∉ visited st ->
  selfLoopsPruned (actionGraph (fst (mergePage so st input res))) /\
  onlySynthetic (fst (mergePage so st input res)).
Proof.
  intros [Hp Hs] Hfresh. set (n := v_normalized res) in *.
  pose proof (mergePage_grows so st input res) as Hg. fold n in Hg.
  assert (Hvis : visited (fst (mergePage so st input res)) = {[n]} ∪ visited st)
    by now rewrite mergePage_spec.
  split.
  - intros k e t He Ht Hty Hto Htt.
    destruct (Hg k) as [_ [_ [x [E F]]]]. rewrite E in He, Ht.
    rewrite Forall_forall in F.
    assert (Hex : forall e', In e' x -> e_type e' = EClick \/ e_type e' = EToggle ->
                  e_to e' = k -> k = n /\ In e' (filteredEdges (allEdges so input res))).
    { intros e' Hin Hty' Hto'. apply list_elem_of_In in Hin.
      destruct (F e' Hin) as [Hq|Hq]; [exact Hq|].
      apply pushedBy_synthetic in Hq. exfalso.
      now apply (synthetic_not_self_loop k e' Hq Hty'). }
    assert (Htx : forall t', In t' x -> e_type t' = ETransition ->
                  k = n /\ In t' (filteredEdges (allEdges so input res))).
    { intros t' Hin Hty'. apply list_elem_of_In in Hin.
      destruct (F t' Hin) as [Hq|Hq]; [exact Hq|].
      apply pushedBy_synthetic in Hq. exfalso.
      now apply (synthetic_not_transition k t' Hq). }
    assert (Hold : k = n -> forall e', In e' (entry k (actionGraph st)) -> syntheticEdge k e').
    { intros -> e' Hin. specialize (Hs n Hfresh). rewrite Forall_forall in Hs.
      apply Hs. now apply list_elem_of_In. }
    apply in_app_or in He as [He|He]; apply in_app_or in Ht as [Ht|Ht].
    + now apply (Hp k e t).
    + destruct (Htx t Ht Htt) as [Hk _]. exfalso.
      now apply (synthetic_not_self_loop k e (Hold Hk e He) Hty).
    + destruct (Hex e He Hty Hto) as [Hk _]. exfalso.
      now apply (synthetic_not_transition k t (Hold Hk t Ht)).
    + destruct (Hex e He Hty Hto) as [_ Hfe]. destruct (Htx t Ht Htt) as [_ Hft].
      apply filteredEdges_In in Hfe as [_ Hno]. apply filteredEdges_In in Hft as [Hta _].
      intros Hl. apply Hno. split; [exact Hty|]. now exists t.
  - intros k Hk. rewrite Hvis in Hk.
    assert (Hkn : k <> n).
    { intros ->. apply Hk. apply elem_of_union. left. now apply elem_of_singleton. }
    assert (Hkv : k ∉ visited st).
    { intros Hin. apply Hk. apply elem_of_union. now right. }
    destruct (Hg k) as [_ [_ [x [E F]]]]. rewrite E. apply Forall_app. split.
    + now apply Hs.
    + eapply Forall_impl; [exact F|]. intros e [[Hc _]|Hq]; [congruence|].
      eapply pushedBy_synthetic; exact Hq.
Qed.

End PruneFacts.

(** ** Labels produced by the prober *)

Lemma uniq_In x l : In x (uniq l) <-> In x l.
Proof.
  induction l as [|y l IH]; simpl; [tauto|].
  rewrite filter_In, IH, negb_true_iff, String.eqb_neq.
  destruct (String.eqb_spec x y) as [->|Hne]; [tauto|]. intuition congruence.
Qed.

Lemma uniq_NoDup l : NoDup (uniq l).
Proof.
  induction l as [|y l IH]; simpl; [constructor|].
  apply NoDup_cons. split.
  - rewrite list_elem_of_In, filter_In, String.eqb_refl. simpl. intros [_ Hc]. discriminate.
  - apply NoDup_ListNoDup. apply List.NoDup_filter. now apply NoDup_ListNoDup.
Qed.

Lemma collectSel_truthy els labels : allTruthy labels -> allTruthy (collectSel els labels).
Proof.
  revert labels. induction els as [|el l IH]; intros labels Hl; cbn [collectSel]; [exact Hl|].
  destruct (se_shown el); cbn [negb]; [|now apply IH].
  destruct (truthy (se_label el)) eqn:Ht; cbn [negb]; [|now apply IH].
  assert (Hl' : allTruthy (labels ++ [se_label el])).
  { apply Forall_app. split; [exact Hl|]. now repeat constructor. }
  destruct (40 <=? length (labels ++ [se_label el]))%nat; [exact Hl' | now apply IH].
Qed.

Lemma collectAll_truthy root labels : allTruthy labels -> allTruthy (collectAll root labels).
Proof.
  revert labels. induction root as [|els l IH]; intros labels Hl; cbn [collectAll]; [exact Hl|].
  pose proof (collectSel_truthy els labels Hl) as Hl'.
  destruct (40 <=? length (collectSel els labels))%nat; [exact Hl' | now apply IH].
Qed.

Lemma collectScopedLabels_truthy scope : allTruthy (collectScopedLabels scope).
Proof.
  destruct scope as [root|]; simpl; [|constructor].
  unfold collect. apply Forall_forall. intros x Hx.
  apply list_elem_of_In in Hx. rewrite uniq_In in Hx.
  pose proof (collectAll_truthy root [] (Forall_nil_2 _)) as Ha.
  unfold allTruthy in Ha. rewrite Forall_forall in Ha. apply Ha. now apply list_elem_of_In.
Qed.

Lemma filter_truthy (f : string -> bool) l : allTruthy l -> allTruthy (List.filter f l).
Proof.
  intros Hl. apply Forall_forall. intros x Hx. apply list_elem_of_In in Hx. apply filter_In in Hx as [Hx _].
  unfold allTruthy in Hl. rewrite Forall_forall in Hl. apply Hl. now apply list_elem_of_In.
Qed.

Lemma pickTriggers_labelled limit nodes out :
  Forall (fun el => truthy (te_label el) = true) out ->
  Forall (fun el => truthy (te_label el) = true) (pickTriggers limit nodes out).
Proof.
  revert out. induction nodes as [|el l IH]; intros out Ho; cbn [pickTriggers]; [exact Ho|].
  destruct (te_visible el); cbn [negb]; [|now apply IH].
  destruct (truthy (te_label el)) eqn:Ht; cbn [negb]; [|now apply IH].
  assert (Ho' : Forall (fun el => truthy (te_label el) = true) (out ++ [el])).
  { apply Forall_app. split; [exact Ho|]. now repeat constructor. }
  destruct (limit <=? Z.of_nat (length (out ++ [el])))%Z; [exact Ho' | now apply IH].
Qed.

(** Every transition the prober reports has a non-empty trigger label and
    non-empty labels in its [added] and [removed] lists. *)
Lemma discoverTransitions_labelled nodes maxTriggers tr :
  In tr (discoverTransitions nodes maxTriggers) ->
  truthy (t_triggerLabel tr) = true /\ allTruthy (t_added tr) /\ allTruthy (t_removed tr).
Proof.
  unfold discoverTransitions. intros Hin. apply list_elem_of_In in Hin.
  apply list_elem_of_omap in Hin as [el [Hel Hp]].
  pose proof (pickTriggers_labelled maxTriggers nodes [] (Forall_nil_2 _)) as Hl.
  rewrite Forall_forall in Hl. specialize (Hl el Hel).
  unfold probeTrigger in Hp. destruct (te_handle el); simpl in Hp; [|discriminate].
  injection Hp as <-. simpl. split; [exact Hl|].
  split; apply filter_truthy, collectScopedLabels_truthy.
Qed.

Section VisitFacts.
Context `{Platform}.

Lemma visit_transitions_labelled shotPath load url discover tpp res tr :
  visit shotPath load url discover tpp = Some res ->
  In tr (v_transitions res) ->
  truthy (vt_triggerLabel tr) = true /\ allTruthy (vt_added tr) /\ allTruthy (vt_removed tr).
Proof.
  unfold visit. destruct load as [|cur title items probe]; [discriminate|].
  intros [= <-]. simpl. destruct discover; [|intros []].
  destruct probe as [nodes|]; [|intros []].
  rewrite in_map_iff. intros [d [<- Hd]]. simpl.
  now apply discoverTransitions_labelled in Hd.
Qed.

Lemma visit_no_discovery shotPath load url tpp res :
  visit shotPath load url false tpp = Some res -> v_transitions res = [].
Proof.
  unfold visit. destruct load; [discriminate|]. now intros [= <-].
Qed.

(** The labels the option loop runs over. *)
Lemma combinedOptions_In tr opt :
  In opt (combinedOptions tr) <->
  In opt (match vt_added tr with [] => vt_removed tr | _ => vt_added tr end).
Proof.
  unfold combinedOptions. rewrite uniq_In. destruct (vt_added tr) as [|x l]; simpl.
  - reflexivity.
  - rewrite app_nil_r. reflexivity.
Qed.

Lemma pushAt_In (k : string) (e : Edge) ag : In e (entry k (pushAt k e ag)).
Proof.
  rewrite entry_pushAt, String.eqb_refl. apply in_or_app. right. now left.
Qed.

Lemma pushAt_key (k : string) (e : Edge) ag : alookup k (pushAt k e ag) <> None.
Proof. unfold pushAt. now rewrite alookup_aset_eq. Qed.

(** The option loop's body pushes its two edges. *)
Lemma optionStep_pushes n trigger scanned ts ag opt k e :
  Forall (fun e => e_type e = ETransition) ts ->
  truthy opt = true ->
  optionPush n scanned trigger opt k e ->
  In e (entry k (optionStep n (transNodeId n trigger) (scanned ++ ts) ag opt)) /\
  alookup k (optionStep n (transNodeId n trigger) (scanned ++ ts) ag opt) <> None.
Proof.
  intros Hts Ho Hp. unfold optionStep. rewrite Ho. simpl.
  rewrite find_navMatches_app by assumption.
  set (tnode := transNodeId n trigger) in *. set (onode := optNodeId tnode opt) in *.
  set (ag1 := pushAt tnode (mkEdge onode opt EClick None) ag).
  assert (Hlast : forall e', grows (fun _ _ => True) (fun _ => True) ag1
                              (pushAt onode e' (ensureKey onode ag1))).
  { intros e'. eapply grows_trans; [apply grows_ensureKey | apply grows_pushAt]; exact I. }
  destruct Hp as [[-> ->]|[-> ->]].
  - assert (Hin : In (mkEdge onode opt EClick None) (entry tnode ag1)) by apply pushAt_In.
    assert (Hk : alookup tnode ag1 <> None) by apply pushAt_key.
    destruct (find (navMatches opt) scanned) as [m|];
      (split; [apply (grows_In _ _ _ _ _ _ (Hlast _) Hin)
              | now apply (proj1 (Hlast _ tnode))]).
  - unfold optionTarget.
    destruct (find (navMatches opt) scanned) as [m|]; (split; [apply pushAt_In | apply pushAt_key]).
Qed.

Lemma optionFold_pushes n trigger scanned ts opts ag opt k e :
  Forall (fun e => e_type e = ETransition) ts ->
  In opt opts -> truthy opt = true ->
  optionPush n scanned trigger opt k e ->
  In e (entry k (fold_left (optionStep n (transNodeId n trigger) (scanned ++ ts)) opts ag)) /\
  alookup k (fold_left (optionStep n (transNodeId n trigger) (scanned ++ ts)) opts ag) <> None.
Proof.
  intros Hts Hin Ho Hp. revert ag. induction opts as [|o l IH]; intros ag; [destruct Hin|].
  cbn [fold_left]. destruct Hin as [->|Hin]; [|now apply IH].
  destruct (optionStep_pushes n trigger scanned ts ag opt k e Hts Ho Hp) as [He Hk].
  pose proof (optionFold_grows n trigger scanned ts l
                (optionStep n (transNodeId n trigger) (scanned ++ ts) ag opt) Hts) as Hg.
  split; [now apply (grows_In _ _ _ _ _ _ Hg) | now apply (proj1 (Hg k))].
Qed.

Lemma transitionStep_pushes n scanned ts ag tr :
  Forall (fun e => e_type e = ETransition) ts ->
  truthy (vt_triggerLabel tr) = true ->
  alookup (transNodeId n (vt_triggerLabel tr))
          (snd (transitionStep n (scanned ++ ts, ag) tr)) <> None /\
  forall opt k e,
    In opt (combinedOptions tr) -> truthy opt = true ->
    optionPush n scanned (vt_triggerLabel tr) opt k e ->
    In e (entry k (snd (transitionStep n (scanned ++ ts, ag) tr))) /\
    alookup k (snd (transitionStep n (scanned ++ ts, ag) tr)) <> None.
Proof.
  intros Hts Ht. unfold transitionStep. rewrite Ht. cbn [negb snd].
  rewrite <- app_assoc.
  assert (Hts' : Forall (fun e => e_type e = ETransition)
                   (ts ++ [mkEdge (transNodeId n (vt_triggerLabel tr)) (vt_triggerLabel tr)
                                  ETransition None])).
  { apply Forall_app. split; [exact Hts | repeat constructor]. }
  split.
  - pose proof (optionFold_grows n (vt_triggerLabel tr) scanned _ (combinedOptions tr)
                  (ensureKey (transNodeId n (vt_triggerLabel tr)) ag) Hts') as Hg.
    apply (proj1 (Hg (transNodeId n (vt_triggerLabel tr)))).
    unfold ensureKey. destruct (alookup _ ag) eqn:E; [congruence|].
    now rewrite alookup_aset_eq.
  - intros opt k e Hin Ho Hp.
    now apply (optionFold_pushes n (vt_triggerLabel tr) scanned _ (combinedOptions tr) _ opt).
Qed.

Lemma scanTransitions_pushes n trs scanned ts ag tr :
  Forall (fun e => e_type e = ETransition) ts ->
  In tr trs -> truthy (vt_triggerLabel tr) = true ->
  alookup (transNodeId n (vt_triggerLabel tr))
          (snd (scanTransitions n trs (scanned ++ ts) ag)) <> None /\
  forall opt k e,
    In opt (combinedOptions tr) -> truthy opt = true ->
    optionPush n scanned (vt_triggerLabel tr) opt k e ->
    In e (entry k (snd (scanTransitions n trs (scanned ++ ts) ag))) /\
    alookup k (snd (scanTransitions n trs (scanned ++ ts) ag)) <> None.
Proof.
  intros Hts Hin Ht. revert ts ag Hts. induction trs as [|t0 l IH]; intros ts ag Hts;
    [destruct Hin|].
  rewrite scanTransitions_cons, transitionStep_edges, <- app_assoc.
  assert (Hts' : Forall (fun e => e_type e = ETransition) (ts ++ transEdgeOf n t0)).
  { apply Forall_app. split; [exact Hts|].
    unfold transEdgeOf. destruct (truthy (vt_triggerLabel t0)); repeat constructor. }
  destruct Hin as [->|Hin]; [|now apply IH].
  destruct (transitionStep_pushes n scanned ts ag tr Hts Ht) as [Hk Hp].
  pose proof (scanTransitions_grows_gen n l scanned (ts ++ transEdgeOf n tr)
                (snd (transitionStep n (scanned ++ ts, ag) tr)) Hts') as Hg.
  split; [now apply (proj1 (Hg (transNodeId n (vt_triggerLabel tr))))|].
  intros opt k e Ho Hto Hpush. destruct (Hp opt k e Ho Hto Hpush) as [He Hke].
  split; [now apply (grows_In _ _ _ _ _ _ Hg) | now apply (proj1 (Hg k))].
Qed.

Lemma mergePage_pushes so st input res tr :
  In tr (v_transitions res) -> truthy (vt_triggerLabel tr) = true ->
  alookup (transNodeId (v_normalized res) (vt_triggerLabel tr))
          (actionGraph (fst (mergePage so st input res))) <> None /\
  forall opt k e,
    In opt (combinedOptions tr) -> truthy opt = true ->
    optionPush (v_normalized res) (scannedEdges so input res) (vt_triggerLabel tr) opt k e ->
    In e (entry k (actionGraph (fst (mergePage so st input res)))) /\
    alookup k (actionGraph (fst (mergePage so st input res))) <> None.
Proof.
  intros Hin Ht.
  pose proof (scanTransitions_pushes (v_normalized res) (v_transitions res)
                (scannedEdges so input res) [] (actionGraph st) tr (Forall_nil_2 _) Hin Ht)
    as [Hk Hp].
  rewrite app_nil_r in Hk, Hp. fold (probedGraph so st input res) in Hk, Hp.
  assert (Hother : forall k, k <> v_normalized res ->
            alookup k (actionGraph (fst (mergePage so st input res))) =
            alookup k (probedGraph so st input res)).
  { intros k Hne. rewrite mergePage_spec. cbn [fst actionGraph].
    apply alookup_aset_ne. congruence. }
  split.
  - rewrite Hother; [exact Hk | apply transNodeId_neq].
  - intros opt k e Ho Hto Hpush. destruct (Hp opt k e Ho Hto Hpush) as [He Hke].
    assert (Hne : k <> v_normalized res) by (eapply optionPush_key_neq; exact Hpush).
    rewrite mergePage_entry_other by assumption. now rewrite Hother.
Qed.

End VisitFacts.

(** ** Without discovery there are no synthetic nodes *)

Section PlainFacts.
Context `{Platform}.

Lemma plainGraph_mergePage so st input res :
  plainGraph st -> v_transitions res = [] ->
  plainGraph (fst (mergePage so st input res)).
Proof.
  intros [Hk He] Hnil.
  pose proof (mergePage_grows so st input res) as Hg. rewrite Hnil in Hg.
  assert (Hvis : visited (fst (mergePage so st input res)) =
                 {[v_normalized res]} ∪ visited st) by now rewrite mergePage_spec.
  split.
  - intros k Hkey. rewrite Hvis. apply elem_of_union.
    destruct (Hg k) as [_ [Hnew _]]. destruct (Hnew Hkey) as [Hold|[->|[tr [[] _]]]].
    + right. now apply Hk.
    + left. now apply elem_of_singleton.
  - intros k e Hin. destruct (Hg k) as [_ [_ [x [E F]]]]. rewrite E in Hin.
    apply in_app_or in Hin as [Hin|Hin]; [now apply (He k)|].
    rewrite Forall_forall in F. apply list_elem_of_In in Hin.
    destruct (F e Hin) as [[_ Hf]|[tr [opt [[] _]]]].
    apply filteredEdges_In in Hf as [Hf _]. unfold allEdges in Hf. rewrite Hnil in Hf.
    simpl in Hf. rewrite app_nil_r in Hf. now apply scannedEdges_types in Hf.
Qed.

End PlainFacts.

(** ** The DOT exporter *)

Lemma replace_backslash_inj s1 s2 :
  replaceAll backslash (String backslash (String backslash EmptyString)) s1 =
  replaceAll backslash (String backslash (String backslash EmptyString)) s2 ->
  s1 = s2.
Proof.
  revert s2. induction s1 as [|a1 t1 IH]; intros [|a2 t2]; cbn [replaceAll]; intros Heq.
  - reflexivity.
  - destruct (Ascii.eqb a2 backslash); discriminate.
  - destruct (Ascii.eqb a1 backslash); discriminate.
  - destruct (Ascii.eqb_spec a1 backslash) as [->|H1];
      destruct (Ascii.eqb_spec a2 backslash) as [->|H2]; cbn [append] in Heq.
    + injection Heq as Heq. f_equal. now apply IH.
    + injection Heq as Ha _. congruence.
    + injection Heq as Ha _. congruence.
    + injection Heq as -> Heq. f_equal. now apply IH.
Qed.

Lemma replace_quote_head t x :
  replaceAll dquote (String backslash qt) t <> String dquote x.
Proof.
  destruct t as [|b t]; cbn [replaceAll]; [discriminate|].
  destruct (Ascii.eqb_spec b dquote) as [->|Hb]; cbn [append qt].
  - discriminate.
  - intros [= Hc _]. congruence.
Qed.

Lemma replace_quote_inj s1 s2 :
  replaceAll dquote (String backslash qt) s1 = replaceAll dquote (String backslash qt) s2 ->
  s1 = s2.
Proof.
  revert s2. induction s1 as [|a1 t1 IH]; intros [|a2 t2]; cbn [replaceAll]; intros Heq.
  - reflexivity.
  - destruct (Ascii.eqb a2 dquote); discriminate.
  - destruct (Ascii.eqb a1 dquote); discriminate.
  - destruct (Ascii.eqb_spec a1 dquote) as [->|H1];
      destruct (Ascii.eqb_spec a2 dquote) as [->|H2]; cbn [append qt] in Heq.
    + injection Heq as Heq. f_equal. now apply IH.
    + injection Heq as _ Heq. symmetry in Heq. now apply replace_quote_head in Heq.
    + injection Heq as _ Heq. now apply replace_quote_head in Heq.
    + injection Heq as -> Heq. f_equal. now apply IH.
Qed.

(** Escaping loses nothing: distinct identifiers stay distinct. *)
Lemma esc_inj s1 s2 : esc s1 = esc s2 -> s1 = s2.
Proof.
  unfold esc. intros Heq. apply replace_quote_inj in Heq. now apply replace_backslash_inj.
Qed.

Lemma count_in_NoDup (f : string -> string) (n : string) (l : list string) :
  (forall a b, f a = f b -> a = b) -> NoDup l -> In n l ->
  length (List.filter (fun n' => f n' =? f n) l) = 1%nat.
Proof.
  intros Hinj Hnd Hin. induction Hnd as [|x l Hx Hnd IH]; [destruct Hin|].
  cbn [List.filter]. destruct (String.eqb_spec (f x) (f n)) as [Heq|Hne].
  - apply Hinj in Heq. subst x. cbn [length]. f_equal.
    assert (Hnone : forall y, In y l -> (f y =? f n) = false).
    { intros y Hy. apply String.eqb_neq. intros Hc. apply Hinj in Hc. subst y.
      apply Hx. now apply list_elem_of_In. }
    clear -Hnone. induction l as [|y l IHl]; [reflexivity|].
    cbn [List.filter]. rewrite (Hnone y) by now left. apply IHl.
    intros z Hz. apply Hnone. now right.
  - apply IH. destruct Hin as [->|Hin]; [congruence | exact Hin].
Qed.

Section ExporterFacts.
Context `{Platform}.

Lemma isDeclOf_declLine id n : isDeclOf id (declLine n) = (esc n =? id).
Proof. reflexivity. Qed.

Lemma filter_isDeclOf_decls id nodes :
  length (List.filter (isDeclOf id) (map declLine nodes)) =
  length (List.filter (fun n => esc n =? id) nodes).
Proof.
  induction nodes as [|n l IH]; [reflexivity|].
  cbn [map List.filter]. rewrite isDeclOf_declLine.
  destruct (esc n =? id); cbn [length]; now rewrite IH.
Qed.

Lemma filter_isDeclOf_edges id (ls : list DotLine) :
  Forall (fun l => match l with NodeDecl _ _ _ _ _ _ => False | _ => True end) ls ->
  List.filter (isDeclOf id) ls = [].
Proof.
  induction 1 as [|l ls Hl _ IH]; [reflexivity|].
  cbn [List.filter]. destruct l; try contradiction; exact IH.
Qed.

Lemma navLine_shape r src dst :
  exists attrs, navLine r src dst = EdgeLine (esc src) (esc dst) attrs.
Proof. unfold navLine. destruct (truthy _); eauto. Qed.

Lemma navLines_edges r :
  Forall (fun l => match l with NodeDecl _ _ _ _ _ _ => False | _ => True end) (navLines r).
Proof.
  apply Forall_forall. intros l Hl. apply list_elem_of_In in Hl.
  unfold navLines in Hl. apply in_flat_map in Hl as [[s outs] [_ Hl]].
  cbn [fst snd] in Hl. apply in_map_iff in Hl as [d [<- _]].
  destruct (navLine_shape r s d) as [attrs ->]. exact I.
Qed.

Lemma actionLine_shape src e l :
  In l (actionLine src e) -> exists attrs, l = EdgeLine (esc src) (esc (e_to e)) attrs.
Proof.
  unfold actionLine. destruct (e_type e); [destruct (isSynthetic src)| | |];
    simpl; intros Hl; try destruct Hl as [<-|[]]; try destruct Hl; eauto.
Qed.

Lemma actionLines_edges r :
  Forall (fun l => match l with NodeDecl _ _ _ _ _ _ => False | _ => True end)
         (actionLines r).
Proof.
  apply Forall_forall. intros l Hl. apply list_elem_of_In in Hl.
  unfold actionLines in Hl. apply in_flat_map in Hl as [[s edges] [_ Hl]].
  cbn [fst snd] in Hl. apply in_flat_map in Hl as [e [_ Hl]].
  apply actionLine_shape in Hl as [attrs ->]. exact I.
Qed.

Lemma declCount_toDotLines id r :
  declCount id (toDotLines r) = length (List.filter (fun n => esc n =? id) (dotNodes r)).
Proof.
  unfold declCount, toDotLines. rewrite !List.filter_app, !length_app.
  rewrite filter_isDeclOf_decls.
  rewrite (filter_isDeclOf_edges id (navLines r)) by apply navLines_edges.
  rewrite (filter_isDeclOf_edges id (actionLines r)) by apply actionLines_edges.
  cbn. lia.
Qed.

(** Both ends of every edge line are members of the [nodes] set. *)
Lemma edge_line_ends r src dst attrs :
  In (EdgeLine src dst attrs) (toDotLines r) ->
  exists s d, src = esc s /\ dst = esc d /\ In s (dotNodes r) /\ In d (dotNodes r).
Proof.
  unfold toDotLines. intros Hin.
  apply in_app_or in Hin as [Hin|Hin].
  { simpl in Hin. destruct Hin as [Hc|[Hc|[Hc|[]]]]; discriminate. }
  apply in_app_or in Hin as [Hin|Hin].
  { apply in_map_iff in Hin as [n [Hc _]]. discriminate. }
  unfold dotNodes. apply in_app_or in Hin as [Hin|Hin]; [|apply in_app_or in Hin as [Hin|Hin]].
  - unfold navLines in Hin. apply in_flat_map in Hin as [[s outs] [Hso Hin]].
    apply in_map_iff in Hin as [d [Hl Hd]]. cbn [fst snd] in *.
    destruct (navLine_shape r s d) as [attrs' Hs]. rewrite Hs in Hl.
    injection Hl as <- <- _. exists s, d. rewrite !uniq_In, !in_app_iff.
    rewrite uniq_In in Hd. repeat split.
    + left. unfold akeys. apply in_map_iff. now exists (s, outs).
    + right. left. apply in_concat. exists outs. split; [|exact Hd].
      apply in_map_iff. now exists (s, outs).
  - unfold actionLines in Hin. apply in_flat_map in Hin as [[s edges] [Hse Hin]].
    apply in_flat_map in Hin as [e [He Hl]]. cbn [fst snd] in *.
    apply actionLine_shape in Hl as [attrs' Hl]. injection Hl as -> -> _.
    exists s, (e_to e). rewrite !uniq_In, !in_app_iff. repeat split.
    + right. right. apply in_flat_map. exists (s, edges). split; [exact Hse | now left].
    + right. right. apply in_flat_map. exists (s, edges). split; [exact Hse|].
      right. cbn [snd]. apply in_map_iff. now exists e.
  - simpl in Hin. destruct Hin as [Hc|[]]. discriminate.
Qed.

End ExporterFacts.

(** * The claims *)

(** C5, amended.  The returned [pages] array has at most [max(0, maxPages)]
    entries, and every entry's depth is at most [maxDepth]. *)
Theorem crawl_within_budget `{Platform}
    (browser : nat -> string -> PageLoad) (shotPath : string -> option string)
    (o : CrawlOptions) :
  (Z.of_nat (length (r_pages (crawl browser shotPath o))) <= Z.max 0 (optMaxPages o))%Z /\
  Forall (fun p => (p_depth p <= optMaxDepth o)%Z) (r_pages (crawl browser shotPath o)).
Proof.
  unfold crawl, crawlState. cbn [r_pages]. split.
  - etransitivity; [apply layerLoop_pages_length|]. unfold pagesLen. simpl. lia.
  - apply (layerLoop_inv browser shotPath _ _ _ _
             (fun st => Forall (fun p => (p_depth p <= optMaxDepth o)%Z) (pages st))
             (fun f => (f_depth f <= optMaxDepth o)%Z)).
    + intros st input res HP HQ _ _. now apply depthBound_mergePage.
    + trivial.
    + constructor.
Qed.

(** C5 as stated fails for a negative page budget: the crawl returns no
    page, and [0 <= -1] does not hold. *)
Lemma crawl_budget_negative_maxPages :
  ~ ((Z.of_nat (length (r_pages (crawl Demo.browser Demo.shotPath Demo.optionsNegativeBudget)))
      <= optMaxPages Demo.optionsNegativeBudget)%Z /\
     Forall (fun p => (p_depth p <= optMaxDepth Demo.optionsNegativeBudget)%Z)
            (r_pages (crawl Demo.browser Demo.shotPath Demo.optionsNegativeBudget))).
Proof.
  intros [Hle _]. vm_compute in Hle. now apply Hle.
Qed.

(** C1, amended.  With [sameOrigin = true] and a known seed origin [o], a
    navigate action whose href resolves is recorded as a navigate edge of the
    page exactly when the resolved target has the origin [o]: the merge then
    adds the edge (whether or not the target was visited) and enqueues the
    target if it is unvisited and within the depth budget; for a target of
    another origin the merge adds neither the edge nor a [graph] entry nor a
    frontier candidate. *)
Theorem navigate_edge_needs_seed_origin `{Platform}
    (st : CrawlState) (cands : list FrontierEntry) (md : Z)
    (input : FrontierEntry) (res : VisitRes) (a : Action) (abs o : string) :
  v_normalized res ∉ visited st ->
  In a (v_actions res) -> a_type a = Navigate ->
  resolveHref (v_normalized res) (a_href a) = Some abs -> abs <> "" ->
  f_origin input = Some o -> o <> "" ->
  let n := v_normalized res in
  let target := normalizeUrl abs in
  let edge := mkEdge target (a_label a) ENavigate None in
  let acc' := mergeResult true md (st, cands) (Some (input, res)) in
  let child := mkFrontierEntry target (f_depth input + 1) (Some o) in
  (originOf target = Some o ->
     In edge (entry n (actionGraph (fst acc'))) /\
     (In child (snd acc') <->
      In child cands \/ ((target ∉ visited st) /\ target <> n /\ (f_depth input + 1 <= md)%Z)))
  /\
  (originOf target <> Some o ->
     (In edge (entry n (actionGraph (fst acc'))) -> In edge (entry n (actionGraph st))) /\
     ~ In target (entry n (graph (fst acc'))) /\
     (In child (snd acc') -> In child cands)).
Proof.
  intros Hfresh Hin Hty Hres Habs Hor Ho n target edge acc' child.
  subst n edge child. apply truthy_true in Habs.
  assert (Hst : fst acc' = fst (mergePage true st input res))
    by (apply mergeResult_state; exact Hfresh).
  assert (Hcs := mergeResult_candidates true md st cands input res Hfresh).
  fold acc' in Hcs. rewrite Hor in Hcs. rewrite Hst, Hcs. clear Hst Hcs acc'.
  assert (Hnav : forall a' u, navTarget true (f_origin input) (v_normalized res) a' = Some u ->
                 originOf u = Some o).
  { intros a' u Hn. apply navTarget_Some in Hn as [_ [abs' [_ [_ [-> Hb]]]]].
    rewrite Hor in Hb. now apply (originBlocked_sameOrigin o). }
  assert (Hchild : In (mkFrontierEntry target (f_depth input + 1) (Some o))
                      (map (fun nurl => mkFrontierEntry nurl (f_depth input + 1) (Some o))
                           (snd (mergePage true st input res))) <->
                   exists a', In a' (v_actions res) /\
                     navTarget true (f_origin input) (v_normalized res) a' = Some target /\
                     target ∉ {[v_normalized res]} ∪ visited st).
  { rewrite <- nextUrls_In, <- mergePage_nextUrls, in_map_iff. split.
    - intros [u [[= ->] Hu]]. exact Hu.
    - intros Hu. now exists target. }
  split.
  - intros Horigin.
    assert (Hn : navTarget true (f_origin input) (v_normalized res) a = Some target).
    { apply navTarget_Some. split; [exact Hty|]. exists abs. repeat split; try assumption.
      rewrite Hor. now apply (originBlocked_sameOrigin o). }
    split.
    + now apply navigate_edge_kept.
    + destruct (f_depth input + 1 <=? md)%Z eqn:Hd.
      * apply Z.leb_le in Hd. rewrite in_app_iff, Hchild. split.
        -- intros [Hc|[a' [_ [_ Hs]]]]; [now left|]. right.
           rewrite elem_of_union, elem_of_singleton in Hs. tauto.
        -- intros [Hc|[Hv [Hne _]]]; [now left|]. right. exists a.
           repeat split; try assumption.
           rewrite elem_of_union, elem_of_singleton. tauto.
      * apply Z.leb_gt in Hd. split; [tauto|]. intros [Hc|[_ [_ Hle]]]; [exact Hc | lia].
  - intros Horigin. split; [|split].
    + rewrite mergePage_entry_page. intros He.
      apply in_app_or in He as [He|He]; [exact He|].
      apply navigate_edge_origin in He as [a' [_ Hn]]. now apply Hnav in Hn.
    + rewrite entry_graph_mergePage, mergePage_nextUrls, nextUrls_In.
      intros [a' [_ [Hn _]]]. now apply Hnav in Hn.
    + destruct (f_depth input + 1 <=? md)%Z; [|tauto].
      rewrite in_app_iff, Hchild. intros [Hc|[a' [_ [Hn _]]]]; [exact Hc|].
      now apply Hnav in Hn.
Qed.

Lemma navigate_edge_needs_seed_origin_witness :
  In (mkEdge "https://example.com/docs" "Docs" ENavigate None)
     (entry "https://example.com/a"
        (actionGraph (fst (mergeResult true 1 (initialState, [])
                             (Some (Demo.seedEntry, Demo.seedRes)))))).
Proof.
  refine (proj1 (proj1 (navigate_edge_needs_seed_origin initialState [] 1
                          Demo.seedEntry Demo.seedRes (Demo.link "Docs" "/docs/")
                          "https://example.com/docs/" "https://example.com"
                          _ _ _ _ _ _ _) _)).
  - apply not_elem_of_empty.
  - left. reflexivity.
  - reflexivity.
  - reflexivity.
  - discriminate.
  - reflexivity.
  - discriminate.
  - reflexivity.
Defined.

(** C1 as stated fails: the demo crawl runs with [sameOrigin = true], visits
    [/a], whose action "Ext" resolves to the valid URL [https://other.com/x],
    and the page's [actionGraph] entry holds no navigate edge to it. *)
Lemma offsite_link_not_recorded :
  let r := crawl Demo.browser Demo.shotPath Demo.options in
  optSameOrigin Demo.options = true /\
  (exists p a,
      In p (r_pages r) /\ p_url p = "https://example.com/a" /\
      In a (p_actions p) /\ a_type a = Navigate /\
      resolveHref (p_url p) (a_href a) = Some "https://other.com/x" /\
      isHttpProtocol (nullish (option_map url_protocol (url_parse "https://other.com/x")) "")
      = true) /\
  ~ exists e,
      In e (entry "https://example.com/a" (r_actionGraph r)) /\
      e_type e = ENavigate /\ e_to e = normalizeUrl "https://other.com/x".
Proof.
  split; [reflexivity|]. split.
  - eexists. exists (Demo.link "Ext" "https://other.com/x").
    split; [left; vm_compute; reflexivity|].
    repeat split; try reflexivity. right. left. reflexivity.
  - intros [e [Hin [_ Hto]]]. vm_compute in Hin.
    repeat (destruct Hin as [<-|Hin]; [vm_compute in Hto; discriminate|]).
    destruct Hin.
Qed.

(** C7.  In the result of every crawl no [actionGraph] entry holds a click
    or toggle self-loop together with a transition edge of the same label.
    When a page is merged, the self-loop of a click or toggle action is added
    to the page's entry exactly when no transition of the page has the
    action's label as its (non-empty) trigger label; the navigate edges and
    the transition edges are added whatever their labels. *)
Theorem trigger_self_loops_dropped `{Platform}
    (browser : nat -> string -> PageLoad) (shotPath : string -> option string)
    (o : CrawlOptions) :
  selfLoopsPruned (r_actionGraph (crawl browser shotPath o)) /\
  forall so md st cands input res,
    v_normalized res ∉ visited st ->
    let n := v_normalized res in
    let st' := fst (mergeResult so md (st, cands) (Some (input, res))) in
    (forall a,
        In a (v_actions res) -> a_type a <> Navigate ->
        let loop := mkEdge n (a_label a) (edgeTypeOf (a_type a)) (a_options a) in
        ((exists tr, In tr (v_transitions res) /\ vt_triggerLabel tr <> "" /\
                     vt_triggerLabel tr = a_label a) ->
         In loop (entry n (actionGraph st')) -> In loop (entry n (actionGraph st))) /\
        (~ (exists tr, In tr (v_transitions res) /\ vt_triggerLabel tr <> "" /\
                       vt_triggerLabel tr = a_label a) ->
         In loop (entry n (actionGraph st')))) /\
    (forall a abs,
        In a (v_actions res) -> a_type a = Navigate ->
        resolveHref n (a_href a) = Some abs -> abs <> "" ->
        originBlocked so (f_origin input) (normalizeUrl abs) = false ->
        In (mkEdge (normalizeUrl abs) (a_label a) ENavigate None) (entry n (actionGraph st'))) /\
    (forall tr,
        In tr (v_transitions res) -> vt_triggerLabel tr <> "" ->
        In (mkEdge (transNodeId n (vt_triggerLabel tr)) (vt_triggerLabel tr) ETransition None)
           (entry n (actionGraph st'))).
Proof.
  split.
  - unfold crawl, crawlState. cbn [r_actionGraph].
    refine (proj1 (layerLoop_inv browser shotPath _ _ _ _
                     (fun st => selfLoopsPruned (actionGraph st) /\ onlySynthetic st)
                     (fun _ => True) _ _ _ _ _ _ _ _ _ _)).
    + intros st input res HP _ _ Hf. apply pruned_mergePage; [exact HP|]. now apply has_false.
    + trivial.
    + split.
      * intros k e t He. destruct He.
      * intros k _. constructor.
  - intros so md st cands input res Hfresh n st'. subst n st'.
    rewrite (mergeResult_state so md st cands input res Hfresh).
    assert (Htrans : forall l,
        (exists t, In t (allEdges so input res) /\ e_type t = ETransition /\ e_label t = l) <->
        (exists tr, In tr (v_transitions res) /\ vt_triggerLabel tr <> "" /\
                    vt_triggerLabel tr = l)).
    { intros l. unfold allEdges. split.
      - intros [t [Hin [Hty Hl]]]. apply in_app_or in Hin as [Hin|Hin].
        + now apply scannedEdges_types in Hin.
        + apply transEdges_In in Hin as [tr [Htr [Ht ->]]]. exists tr.
          apply truthy_true in Ht. now repeat split.
      - intros [tr [Htr [Ht Hl]]].
        exists (mkEdge (transNodeId (v_normalized res) (vt_triggerLabel tr))
                       (vt_triggerLabel tr) ETransition None).
        split; [|split; [reflexivity | exact Hl]].
        apply in_or_app. right. apply transEdges_In. exists tr.
        apply truthy_true in Ht. now repeat split. }
    split; [|split].
    + intros a Hin Hty loop. subst loop.
      assert (Hall : In (mkEdge (v_normalized res) (a_label a) (edgeTypeOf (a_type a))
                                (a_options a)) (allEdges so input res)).
      { unfold allEdges. apply in_or_app. left. apply scannedEdges_In. exists a.
        split; [exact Hin|]. left. now split. }
      assert (Hct : e_type (mkEdge (v_normalized res) (a_label a) (edgeTypeOf (a_type a))
                                   (a_options a)) = EClick \/
                    e_type (mkEdge (v_normalized res) (a_label a) (edgeTypeOf (a_type a))
                                   (a_options a)) = EToggle).
      { simpl. destruct (a_type a); [congruence | now left | now right]. }
      rewrite mergePage_entry_page. split.
      * intros Htr He. apply in_app_or in He as [He|He]; [exact He|].
        apply filteredEdges_In in He as [_ Hno]. exfalso. apply Hno.
        split; [exact Hct|]. now apply Htrans.
      * intros Hno. apply in_or_app. right. apply filteredEdges_In.
        split; [exact Hall|]. intros [_ Ht]. apply Hno. now apply Htrans in Ht.
    + intros a abs Hin Hty Hr Ht Hb. apply navigate_edge_kept; [exact Hin|].
      apply navTarget_Some. split; [exact Hty|]. exists abs.
      apply truthy_true in Ht. repeat split; auto.
    + intros tr Htr Ht. rewrite mergePage_entry_page. apply in_or_app. right.
      apply filteredEdges_In. split.
      * unfold allEdges. apply in_or_app. right. apply transEdges_In. exists tr.
        apply truthy_true in Ht. now repeat split.
      * intros [[Hc|Hc] _]; discriminate.
Qed.

Lemma trigger_self_loops_dropped_witness :
  ~ In (mkEdge "https://example.com/a" "Menu" EClick None)
       (entry "https://example.com/a"
          (actionGraph (fst (mergeResult true 1 (initialState, [])
                               (Some (Demo.seedEntry, Demo.seedRes)))))).
Proof.
  intros Hin.
  refine (proj1 (proj1 (proj2 (trigger_self_loops_dropped Demo.browser Demo.shotPath
                                  Demo.options)
                              true 1%Z initialState [] Demo.seedEntry Demo.seedRes _)
                       (mkAction Click "Menu" None "button" None) _ _) _ Hin).
  - apply not_elem_of_empty.
  - right. right. right. left. reflexivity.
  - discriminate.
  - eexists. split; [left; reflexivity|]. split; [discriminate | reflexivity].
Defined.

(** C3, amended.  With [discoverTransitions] off, every key of the
    [actionGraph] is the URL of a recorded page and no edge is a transition
    edge.  When a page is merged, the only keys that appear are the page, the
    transition node of a transition with a non-empty trigger label, and the
    option node of a non-empty label of its [added] list (of [removed] when
    [added] is empty); the transition node and the page-to-transition edge
    are created for every transition with a non-empty trigger label, also
    when [added] and [removed] are both empty. *)
Theorem synthetic_nodes_need_discovery `{Platform}
    (browser : nat -> string -> PageLoad) (shotPath : string -> option string)
    (o : CrawlOptions) :
  (optDiscover o = false ->
   (forall k, alookup k (r_actionGraph (crawl browser shotPath o)) <> None ->
              In k (map p_url (r_pages (crawl browser shotPath o)))) /\
   (forall k e, In e (entry k (r_actionGraph (crawl browser shotPath o))) ->
                e_type e <> ETransition)) /\
  forall so md st cands input res,
    v_normalized res ∉ visited st ->
    let n := v_normalized res in
    let ag' := actionGraph (fst (mergeResult so md (st, cands) (Some (input, res)))) in
    (forall k,
        alookup k ag' <> None ->
        alookup k (actionGraph st) <> None \/ k = n \/
        exists tr,
          In tr (v_transitions res) /\ vt_triggerLabel tr <> "" /\
          (k = transNodeId n (vt_triggerLabel tr) \/
           exists opt,
             In opt (match vt_added tr with [] => vt_removed tr | _ => vt_added tr end) /\
             opt <> "" /\ k = optNodeId (transNodeId n (vt_triggerLabel tr)) opt)) /\
    (forall tr,
        In tr (v_transitions res) -> vt_triggerLabel tr <> "" ->
        alookup (transNodeId n (vt_triggerLabel tr)) ag' <> None /\
        In (mkEdge (transNodeId n (vt_triggerLabel tr)) (vt_triggerLabel tr) ETransition None)
           (entry n ag')).
Proof.
  split.
  - intros Hd.
    assert (Hplain : plainGraph (crawlState browser shotPath o)).
    { unfold crawlState. rewrite Hd.
      apply (layerLoop_inv browser shotPath _ _ _ _ plainGraph (fun _ => True)).
      - intros st input res HP _ [clock Hv] _. apply plainGraph_mergePage; [exact HP|].
        now apply visit_no_discovery in Hv.
      - trivial.
      - split; [intros k Hk; now simpl in Hk | intros k e []]. }
    destruct Hplain as [Hk He].
    destruct (crawlState_claimedOnce browser shotPath o) as [_ Hv].
    split; [|exact He]. intros k Hkey. apply Hv. now apply Hk.
  - intros so md st cands input res Hfresh n ag'. subst n ag'.
    rewrite (mergeResult_state so md st cands input res Hfresh). split.
    + intros k Hkey. destruct (mergePage_grows so st input res k) as [_ [Hnew _]].
      destruct (Hnew Hkey) as [Hold|[->|[tr [Htr [Ht Hcase]]]]];
        [now left | right; now left |].
      right. right. exists tr. split; [exact Htr|]. split; [now apply truthy_true|].
      destruct Hcase as [->|[opt [Ho [Hto ->]]]]; [now left|].
      right. exists opt. split; [now apply combinedOptions_In|].
      split; [now apply truthy_true | reflexivity].
    + intros tr Htr Ht. apply truthy_true in Ht.
      destruct (mergePage_pushes so st input res tr Htr Ht) as [Hkey _].
      split; [exact Hkey|].
      rewrite mergePage_entry_page. apply in_or_app. right.
      apply filteredEdges_In. split.
      * unfold allEdges. apply in_or_app. right. apply transEdges_In. now exists tr.
      * intros [[Hc|Hc] _]; discriminate.
Qed.

Lemma synthetic_nodes_need_discovery_witness :
  alookup "https://example.com/a::TRANS::Nop"
          (actionGraph (fst (mergeResult true 1 (initialState, [])
                               (Some (Demo.seedEntry, Demo.seedRes))))) <> None.
Proof.
  refine (proj1 (proj2 (proj2 (synthetic_nodes_need_discovery Demo.browser Demo.shotPath
                                 Demo.options)
                              true 1%Z initialState [] Demo.seedEntry Demo.seedRes _)
                       (mkVisitTransition "Nop" [mkAction Click "Home" None "" None] [] [])
                       _ _)).
  - apply not_elem_of_empty.
  - right. left. reflexivity.
  - discriminate.
Defined.

(** C3 as stated fails: in the demo crawl the trigger "Nop" yields a
    transition whose [added] and [removed] lists are both empty, and the
    result still has its transition node and the page-to-transition edge. *)
Lemma empty_delta_still_creates_node :
  let r := crawl Demo.browser Demo.shotPath Demo.options in
  (exists res tr,
      visit Demo.shotPath (Demo.browser 0 "https://example.com/a") "https://example.com/a"
            (optDiscover Demo.options) (optTransitionsPerPage Demo.options) = Some res /\
      In tr (v_transitions res) /\ vt_triggerLabel tr = "Nop" /\
      vt_added tr = [] /\ vt_removed tr = []) /\
  alookup "https://example.com/a::TRANS::Nop" (r_actionGraph r) <> None /\
  In (mkEdge "https://example.com/a::TRANS::Nop" "Nop" ETransition None)
     (entry "https://example.com/a" (r_actionGraph r)).
Proof.
  split; [|split].
  - eexists. eexists. split; [vm_compute; reflexivity|].
    split; [right; left; reflexivity|]. repeat split.
  - vm_compute. discriminate.
  - vm_compute. right. right. right. left. reflexivity.
Qed.

(** C9.  In the lines of [toDot], both ends of every edge line are the
    escaped forms of members of the [nodes] set, each of which has exactly
    one declaration line carrying the same escaped identifier; escaping is
    the one function [esc] in declarations and in edge lines, and it maps
    distinct identifiers to distinct texts. *)
Theorem dot_edge_ends_declared_once `{Platform}
    (r : CrawlResult) (src dst attrs : string) :
  In (EdgeLine src dst attrs) (toDotLines r) ->
  declCount src (toDotLines r) = 1%nat /\
  declCount dst (toDotLines r) = 1%nat /\
  exists s d,
    src = esc s /\ dst = esc d /\
    In (declLine s) (toDotLines r) /\ In (declLine d) (toDotLines r) /\
    (forall s', esc s' = src -> s' = s) /\ (forall d', esc d' = dst -> d' = d).
Proof.
  intros Hin. destruct (edge_line_ends r src dst attrs Hin) as [s [d [-> [-> [Hs Hd]]]]].
  rewrite !declCount_toDotLines.
  split; [|split].
  - apply count_in_NoDup; [apply esc_inj | apply uniq_NoDup | exact Hs].
  - apply count_in_NoDup; [apply esc_inj | apply uniq_NoDup | exact Hd].
  - exists s, d. repeat split; try (intros x Hx; now apply esc_inj).
    + unfold toDotLines. apply in_or_app. right. apply in_or_app. left.
      apply in_map_iff. now exists s.
    + unfold toDotLines. apply in_or_app. right. apply in_or_app. left.
      apply in_map_iff. now exists d.
Qed.

Lemma dot_edge_ends_declared_once_witness :
  declCount (esc "https://example.com/a")
            (toDotLines (crawl Demo.browser Demo.shotPath Demo.options)) = 1%nat /\
  declCount (esc "https://example.com/docs")
            (toDotLines (crawl Demo.browser Demo.shotPath Demo.options)) = 1%nat.
Proof.
  destruct (dot_edge_ends_declared_once (crawl Demo.browser Demo.shotPath Demo.options)
              (esc "https://example.com/a") (esc "https://example.com/docs")
              (labelAttr (esc "Docs"))) as [Hs [Hd _]].
  - vm_compute. do 9 right. left. reflexivity.
  - split; [exact Hs | exact Hd].
Defined.

From Stdlib Require Import Sorted.

(** * Further properties of the crawler *)

(** ** Invariants that follow the frontier *)

Section FrontierFacts.
Context `{Platform}.
Variables (browser : nat -> string -> PageLoad) (shotPath : string -> option string).
Variables (so : bool) (md : Z) (d : bool) (t : Z).

(** [P dep st] is kept by the state while layer [dep] is processed;
    [Q dep st f] by the entries of that layer's frontier. *)
Variables (P : Z -> CrawlState -> Prop) (Q : Z -> CrawlState -> FrontierEntry -> Prop).

Hypothesis Hstep : forall dep st input res,
  P dep st -> Q dep st input -> visitedBy browser shotPath d t input res ->
  has (v_normalized res) (visited st) = false ->
  P dep (fst (mergePage so st input res)) /\
  forall u, In u (snd (mergePage so st input res)) ->
    Q (dep + 1) (fst (mergePage so st input res))
      (mkFrontierEntry u (f_depth input + 1) (f_origin input)).

Hypothesis Hmono : forall dep dep' st input res f,
  P dep st -> has (v_normalized res) (visited st) = false ->
  Q dep' st f -> Q dep' (fst (mergePage so st input res)) f.

Hypothesis Hnext : forall dep st, P dep st -> P (dep + 1) st.

Hypothesis Hskip : forall dep st f,
  Q dep st f -> (f_depth f =? dep)%Z = false -> Q (dep + 1) st f.

Let good (dep : Z) (pending : list FrontierEntry)
    (acc : CrawlState * list FrontierEntry) : Prop :=
  P dep (fst acc) /\ Forall (Q dep (fst acc)) pending /\
  Forall (Q (dep + 1) (fst acc)) (snd acc).

Lemma mergeResult_frontier dep pending acc r :
  settled browser shotPath d t (fun f => In f pending) r ->
  good dep pending acc -> good dep pending (mergeResult so md acc r).
Proof.
  destruct acc as [st cands]. destruct r as [[input res]|]; [|trivial].
  intros [Hin Hv] [HP [Hpend Hc]]. cbn [fst snd] in *.
  destruct (has (v_normalized res) (visited st)) eqn:E.
  - rewrite mergeResult_skip by assumption. now repeat split.
  - rewrite mergeResult_fresh by assumption.
    assert (HQ : Q dep st input).
    { rewrite Forall_forall in Hpend. apply Hpend. now apply list_elem_of_In. }
    destruct (Hstep dep st input res HP HQ Hv E) as [HP' Hnew].
    split; [exact HP'|]. cbn [fst snd]. split.
    + eapply Forall_impl; [exact Hpend|]. intros f Hf. now apply (Hmono dep dep st).
    + assert (Hold : Forall (Q (dep + 1) (fst (mergePage so st input res))) cands).
      { eapply Forall_impl; [exact Hc|]. intros f Hf. now apply (Hmono dep (dep + 1)%Z st). }
      destruct (f_depth input + 1 <=? md)%Z; [|exact Hold].
      apply Forall_app. split; [exact Hold|].
      apply Forall_forall. intros f Hf. apply list_elem_of_In in Hf.
      apply in_map_iff in Hf as [u [<- Hu]]. now apply Hnew.
Qed.

Lemma fold_mergeResult_frontier dep pending rs acc :
  Forall (settled browser shotPath d t (fun f => In f pending)) rs ->
  good dep pending acc -> good dep pending (fold_left (mergeResult so md) rs acc).
Proof.
  revert acc. induction rs as [|r l IH]; intros acc HF Hg; cbn [fold_left]; [assumption|].
  inversion HF; subst. apply IH; [assumption|]. now apply mergeResult_frontier.
Qed.

Lemma chunkLoop_frontier dep rounds c toVisit i clock acc :
  good dep toVisit acc ->
  good dep toVisit (fst (chunkLoop browser shotPath rounds so md c d t toVisit i clock acc)).
Proof.
  revert i clock acc.
  induction rounds as [|n IH]; intros i clock acc Hg; cbn [chunkLoop]; [assumption|].
  destruct (i <? length toVisit)%nat; [|assumption].
  apply IH. apply fold_mergeResult_frontier; [|assumption].
  apply dispatch_settled. apply Forall_take, Forall_drop.
  apply Forall_forall. intros f Hf. now apply list_elem_of_In.
Qed.

Lemma nextFrontierStep_sub seen acc c x :
  In x (snd (nextFrontierStep seen acc c)) -> In x (snd acc) \/ x = c.
Proof.
  destruct acc as [sn nf]. unfold nextFrontierStep.
  destruct (has (f_url c) seen); [now left|].
  destruct (has (f_url c) sn); [now left|].
  cbn [snd]. rewrite in_app_iff. intros [Hx|[ <- |[]]]; [now left | now right].
Qed.

Lemma nextFrontier_fold_sub seen cands acc x :
  In x (snd (fold_left (nextFrontierStep seen) cands acc)) -> In x (snd acc) \/ In x cands.
Proof.
  revert acc. induction cands as [|c l IH]; intros acc Hx; cbn [fold_left] in Hx;
    [now left|].
  apply IH in Hx as [Hx|Hx]; [|right; now right].
  apply nextFrontierStep_sub in Hx as [Hx| ->]; [now left | right; now left].
Qed.

Lemma nextFrontierOf_sub seen cands x : In x (nextFrontierOf seen cands) -> In x cands.
Proof.
  intros Hx. apply nextFrontier_fold_sub in Hx as [[]|Hx]. exact Hx.
Qed.

Lemma layerLoop_frontier layers mp c dep frontier clock st :
  P dep st -> Forall (Q dep st) frontier ->
  exists dep',
    P dep' (layerLoop browser shotPath layers so md mp c d t dep frontier clock st).
Proof.
  revert dep frontier clock st.
  induction layers as [|n IH]; intros dep frontier clock st HP HQ; cbn [layerLoop];
    [now exists dep|].
  destruct ((dep <=? md)%Z && (0 <? length frontier)%nat && (pagesLen st <? mp)%Z);
    [|now exists dep].
  destruct (length (List.filter (fun f => (f_depth f =? dep)%Z) frontier) =? 0)%nat eqn:El.
  - apply IH; [now apply Hnext|].
    apply Nat.eqb_eq, length_zero_iff_nil in El.
    apply Forall_forall. intros f Hf. rewrite Forall_forall in HQ.
    apply Hskip; [now apply HQ|].
    destruct (f_depth f =? dep)%Z eqn:Ef; [|reflexivity].
    apply list_elem_of_In in Hf.
    assert (Hin : In f (List.filter (fun f => (f_depth f =? dep)%Z) frontier))
      by (apply filter_In; now split).
    rewrite El in Hin. destruct Hin.
  - match goal with |- context [chunkLoop _ _ ?r _ _ ?c ?d ?t ?tv ?i ?cl ?acc] =>
      pose proof (chunkLoop_frontier dep r c tv i cl acc) as Hc;
      destruct (chunkLoop browser shotPath r so md c d t tv i cl acc) as [[st' cands] clock']
    end.
    destruct Hc as [HP' [_ Hcands]].
    { split; [exact HP|]. split; [|constructor]. cbn [fst].
      unfold toVisitOf. apply Forall_take. apply Forall_forall. intros f Hf.
      rewrite Forall_forall in HQ. apply HQ. apply list_elem_of_In.
      apply list_elem_of_In in Hf. apply filter_In in Hf as [Hf _].
      now apply filter_In in Hf as [Hf _]. }
    cbn [fst snd] in *. apply IH; [now apply Hnext|].
    apply Forall_forall. intros f Hf. rewrite Forall_forall in Hcands. apply Hcands.
    apply list_elem_of_In. apply list_elem_of_In in Hf. now apply nextFrontierOf_sub in Hf.
Qed.

End FrontierFacts.

(** * The crawl and the record of its visits *)

(** ** First pages *)

Lemma firstByUrl_snoc ps p :
  firstByUrl (ps ++ [p]) =
  firstByUrl ps ++ (if existsb (fun q => p_url q =? p_url p) ps then [] else [p]).
Proof.
  induction ps as [|x l IH]; cbn [app firstByUrl existsb List.filter]; [reflexivity|].
  rewrite IH, List.filter_app. cbn [app]. f_equal.
  destruct (p_url x =? p_url p) eqn:E; cbn [orb].
  - apply String.eqb_eq in E.
    destruct (existsb (fun q => p_url q =? p_url p) l); cbn [List.filter];
      [reflexivity|].
    rewrite E, String.eqb_refl. reflexivity.
  - destruct (existsb (fun q => p_url q =? p_url p) l); cbn [List.filter];
      [reflexivity|].
    rewrite String.eqb_sym, E. reflexivity.
Qed.

Lemma existsb_url u (ps : list PageVisit) :
  existsb (fun q => p_url q =? u) ps = true <-> In u (map p_url ps).
Proof.
  rewrite existsb_exists, in_map_iff. split.
  - intros [q [Hq E]]. apply String.eqb_eq in E. now exists q.
  - intros [q [E Hq]]. exists q. split; [exact Hq | now apply String.eqb_eq].
Qed.

Lemma firstByUrl_urls u ps : In u (map p_url (firstByUrl ps)) <-> In u (map p_url ps).
Proof.
  induction ps as [|x l IH] using rev_ind; [reflexivity|].
  rewrite firstByUrl_snoc, !map_app, !in_app_iff, IH.
  destruct (existsb (fun q => p_url q =? p_url x) l) eqn:E; [|reflexivity].
  apply existsb_url in E. cbn. split; [tauto|]. intros [Hu|[<-|[]]]; tauto.
Qed.

(** ** The visited set only grows *)

Section TraceFacts.
Context `{Platform}.
Variables (browser : nat -> string -> PageLoad) (shotPath : string -> option string).
Variables (so : bool) (md : Z) (d : bool) (t : Z).

Lemma dispatch_cons clock f rest :
  dispatch browser shotPath d t clock (f :: rest) =
  settledResult browser shotPath d t clock f ::
  dispatch browser shotPath d t (S clock) rest.
Proof. reflexivity. Qed.

Lemma mergeResult_visited acc r :
  visited (fst acc) ⊆ visited (fst (mergeResult so md acc r)).
Proof.
  destruct acc as [st c]. destruct r as [[input res]|]; [|reflexivity].
  destruct (has (v_normalized res) (visited st)) eqn:E.
  - now rewrite mergeResult_skip by assumption.
  - rewrite mergeResult_fresh by assumption. cbn [fst]. rewrite mergePage_spec.
    cbn [fst visited]. intros x Hx. apply elem_of_union. now right.
Qed.

Lemma fold_mergeResult_visited rs acc :
  visited (fst acc) ⊆ visited (fst (fold_left (mergeResult so md) rs acc)).
Proof.
  revert acc. induction rs as [|r l IH]; intros acc; cbn [fold_left]; [reflexivity|].
  etransitivity; [apply (mergeResult_visited acc r) | apply IH].
Qed.

Lemma chunkLoop_visited rounds c toVisit i clock acc :
  visited (fst acc) ⊆
  visited (fst (fst (chunkLoop browser shotPath rounds so md c d t toVisit i clock acc))).
Proof.
  revert i clock acc. induction rounds as [|n IH]; intros i clock acc; cbn [chunkLoop];
    [reflexivity|].
  destruct (i <? length toVisit)%nat; [|reflexivity].
  etransitivity; [apply fold_mergeResult_visited | apply IH].
Qed.

(** ** Invariants that follow the record *)

Section TraceInvariant.

(** [P st log] relates the state to the visits recorded so far; [Q] is kept
    by the frontier entries. *)
Variables (P : CrawlState -> list Fetch -> Prop) (Q : FrontierEntry -> Prop).

Hypothesis Hnone : forall st log ft,
  P st log -> Q (ft_entry ft) -> inOrder ft ->
  fetchResult browser shotPath d t ft = None -> P st (log ++ [ft]).

Hypothesis Hseen : forall st log ft res,
  P st log -> Q (ft_entry ft) -> inOrder ft -> ft_atMerge ft = visited st ->
  fetchResult browser shotPath d t ft = Some res ->
  v_normalized res ∈ visited st -> P st (log ++ [ft]).

Hypothesis Hnew : forall st log ft res,
  P st log -> Q (ft_entry ft) -> inOrder ft -> ft_atMerge ft = visited st ->
  fetchResult browser shotPath d t ft = Some res ->
  v_normalized res ∉ visited st ->
  P (fst (mergePage so st (ft_entry ft) res)) (log ++ [ft]).

Hypothesis HQ : forall input u,
  Q input -> Q (mkFrontierEntry u (f_depth input + 1) (f_origin input)).

Lemma settle_inv atLayer atDispatch clock chunk acc log :
  P (fst acc) log -> Forall Q chunk -> Forall Q (snd acc) ->
  Forall (fun f => f_url f ∉ atLayer) chunk ->
  atLayer ⊆ atDispatch -> atDispatch ⊆ visited (fst acc) ->
  P (fst (fold_left (mergeResult so md) (dispatch browser shotPath d t clock chunk) acc))
    (log ++ settle browser shotPath so md d t atLayer atDispatch clock chunk acc) /\
  Forall Q (snd (fold_left (mergeResult so md)
                           (dispatch browser shotPath d t clock chunk) acc)).
Proof.
  revert clock acc log.
  induction chunk as [|f l IH]; intros clock acc log HP Hc Hq Hfresh Hld Hdv.
  - cbn [dispatch fold_left settle]. rewrite app_nil_r. now split.
  - rewrite dispatch_cons. cbn [fold_left settle].
    inversion Hc as [|? ? Hf Hl]; subst. inversion Hfresh as [|? ? Hu Hrest]; subst.
    set (ft := mkFetch clock f atLayer atDispatch (visited (fst acc))).
    assert (Hord : inOrder ft) by (now repeat split).
    assert (Hstep :
      P (fst (mergeResult so md acc (settledResult browser shotPath d t clock f)))
        (log ++ [ft]) /\
      Forall Q (snd (mergeResult so md acc (settledResult browser shotPath d t clock f)))).
    { destruct acc as [st cands]. cbn [fst snd] in *. unfold settledResult.
      destruct (visit shotPath (browser clock (f_url f)) (f_url f) d t) as [res|] eqn:Ev.
      - destruct (has (v_normalized res) (visited st)) eqn:E.
        + rewrite mergeResult_skip by assumption. cbn [fst snd]. split; [|exact Hq].
          apply (Hseen st log ft res); try assumption; try reflexivity.
          now apply has_true.
        + rewrite mergeResult_fresh by assumption. cbn [fst snd]. split.
          * apply (Hnew st log ft res); try assumption; try reflexivity.
            now apply has_false.
          * destruct (f_depth f + 1 <=? md)%Z; [|exact Hq].
            apply Forall_app. split; [exact Hq|].
            apply Forall_forall. intros x Hx. apply list_elem_of_In in Hx.
            apply in_map_iff in Hx as [u [<- _]]. now apply HQ.
      - cbn [mergeResult fst snd]. split; [|exact Hq].
        apply (Hnone st log ft); assumption. }
    destruct Hstep as [HP' Hq'].
    replace (log ++ ft :: settle browser shotPath so md d t atLayer atDispatch (S clock) l
                            (mergeResult so md acc
                               (settledResult browser shotPath d t clock f)))
      with ((log ++ [ft]) ++
            settle browser shotPath so md d t atLayer atDispatch (S clock) l
                   (mergeResult so md acc (settledResult browser shotPath d t clock f)))
      by (now rewrite <- app_assoc).
    apply IH; try assumption.
    etransitivity; [exact Hdv | apply mergeResult_visited].
Qed.

Lemma chunkFetches_inv rounds c atLayer toVisit i clock acc log :
  P (fst acc) log -> Forall Q toVisit -> Forall Q (snd acc) ->
  Forall (fun f => f_url f ∉ atLayer) toVisit -> atLayer ⊆ visited (fst acc) ->
  P (fst (fst (chunkLoop browser shotPath rounds so md c d t toVisit i clock acc)))
    (log ++ chunkFetches browser shotPath rounds so md c d t atLayer toVisit i clock acc) /\
  Forall Q (snd (fst (chunkLoop browser shotPath rounds so md c d t toVisit i clock acc))).
Proof.
  revert i clock acc log.
  induction rounds as [|n IH]; intros i clock acc log HP Hv Hq Hfresh Hsub;
    cbn [chunkLoop chunkFetches].
  - rewrite app_nil_r. now split.
  - destruct (i <? length toVisit)%nat; [|rewrite app_nil_r; now split].
    destruct (settle_inv atLayer (visited (fst acc)) clock
                (firstn c (skipn i toVisit)) acc log) as [HP' Hq']; try assumption.
    + now apply Forall_take, Forall_drop.
    + now apply Forall_take, Forall_drop.
    + reflexivity.
    + rewrite app_assoc. apply IH; try assumption.
      etransitivity; [exact Hsub | apply fold_mergeResult_visited].
Qed.

Lemma layerFetches_inv layers mp c depth frontier clock st log :
  P st log -> Forall Q frontier ->
  P (layerLoop browser shotPath layers so md mp c d t depth frontier clock st)
    (log ++ layerFetches browser shotPath layers so md mp c d t depth frontier clock st).
Proof.
  revert depth frontier clock st log.
  induction layers as [|n IH]; intros depth frontier clock st log HP HQf;
    cbn [layerLoop layerFetches]; [now rewrite app_nil_r|].
  destruct ((depth <=? md)%Z && (0 <? length frontier)%nat && (pagesLen st <? mp)%Z);
    [|now rewrite app_nil_r].
  destruct (length (List.filter (fun f => (f_depth f =? depth)%Z) frontier) =? 0)%nat;
    [now apply IH|].
  set (toVisit := toVisitOf mp st (List.filter (fun f => (f_depth f =? depth)%Z) frontier)).
  assert (Hsel : Forall Q toVisit /\ Forall (fun f => f_url f ∉ visited st) toVisit).
  { unfold toVisit, toVisitOf. split; apply Forall_take, Forall_forall; intros f Hf;
      apply list_elem_of_In, filter_In in Hf as [Hf Hnv].
    - apply filter_In in Hf as [Hf _]. rewrite Forall_forall in HQf.
      apply HQf. now apply list_elem_of_In.
    - now apply negb_true_iff, has_false in Hnv. }
  destruct Hsel as [Hq Hfresh].
  pose proof (chunkFetches_inv (length toVisit) c (visited st) toVisit 0 clock (st, []) log)
    as Hc.
  destruct (chunkLoop browser shotPath (length toVisit) so md c d t toVisit 0 clock (st, []))
    as [[st' cands] clock'].
  cbn [fst snd] in Hc. destruct Hc as [HP' Hcands]; try assumption;
    [constructor | reflexivity |].
  rewrite app_assoc. apply IH; [exact HP'|].
  apply Forall_forall. intros f Hf. rewrite Forall_forall in Hcands. apply Hcands.
  apply list_elem_of_In. apply list_elem_of_In in Hf. now apply nextFrontierOf_sub in Hf.
Qed.

End TraceInvariant.

End TraceFacts.

Section CrawlTrace.
Context `{Platform}.
Variables (browser : nat -> string -> PageLoad) (shotPath : string -> option string).

(** The invariant, for a whole crawl. *)
Lemma crawlFetches_inv (o : CrawlOptions)
    (P : CrawlState -> list Fetch -> Prop) (Q : FrontierEntry -> Prop) :
  (forall st log ft,
      P st log -> Q (ft_entry ft) -> inOrder ft ->
      fetchResult browser shotPath (optDiscover o) (optTransitionsPerPage o) ft = None ->
      P st (log ++ [ft])) ->
  (forall st log ft res,
      P st log -> Q (ft_entry ft) -> inOrder ft -> ft_atMerge ft = visited st ->
      fetchResult browser shotPath (optDiscover o) (optTransitionsPerPage o) ft = Some res ->
      v_normalized res ∈ visited st -> P st (log ++ [ft])) ->
  (forall st log ft res,
      P st log -> Q (ft_entry ft) -> inOrder ft -> ft_atMerge ft = visited st ->
      fetchResult browser shotPath (optDiscover o) (optTransitionsPerPage o) ft = Some res ->
      v_normalized res ∉ visited st ->
      P (fst (mergePage (optSameOrigin o) st (ft_entry ft) res)) (log ++ [ft])) ->
  (forall input u, Q input -> Q (mkFrontierEntry u (f_depth input + 1) (f_origin input))) ->
  P initialState [] -> Forall Q (seedFrontier (o_seeds o)) ->
  P (crawlState browser shotPath o) (crawlFetches browser shotPath o).
Proof.
  intros Hnone Hseen Hnew HQ HP0 HQ0. unfold crawlState, crawlFetches.
  apply (layerFetches_inv browser shotPath (optSameOrigin o) (optMaxDepth o)
           (optDiscover o) (optTransitionsPerPage o) P Q Hnone Hseen Hnew HQ
           _ _ _ _ _ _ initialState []); assumption.
Qed.

End CrawlTrace.

(** * The claims about the crawl as a whole *)

Section ClaimFacts.
Context `{Platform}.
Variables (browser : nat -> string -> PageLoad) (shotPath : string -> option string).

Lemma Forall_top {A} (l : list A) : Forall (fun _ => True) l.
Proof. apply Forall_forall. trivial. Qed.

Lemma In_snoc {A} (x y : A) (l : list A) : In x (l ++ [y]) <-> In x l \/ x = y.
Proof. rewrite in_app_iff. cbn. intuition congruence. Qed.

Lemma mergePage_pages so st input res :
  pages (fst (mergePage so st input res)) = pages st ++ [pageOf input res].
Proof. now rewrite mergePage_spec. Qed.

Lemma mergePage_visited so st input res :
  visited (fst (mergePage so st input res)) = {[v_normalized res]} ∪ visited st.
Proof. now rewrite mergePage_spec. Qed.

Lemma fetchedPages_snoc d t log ft :
  omap (fetchedPage browser shotPath d t) (log ++ [ft]) =
  omap (fetchedPage browser shotPath d t) log ++
  match fetchResult browser shotPath d t ft with
  | Some res => [pageOf (ft_entry ft) res]
  | None => []
  end.
Proof.
  rewrite omap_app. f_equal. cbn. unfold fetchedPage.
  now destruct (fetchResult browser shotPath d t ft).
Qed.

(** The pages are the first pages of the visits' landing URLs. *)
Lemma crawl_pages_first o :
  claimedOnce (crawlState browser shotPath o) /\
  pages (crawlState browser shotPath o) =
  firstByUrl (omap (fetchedPage browser shotPath (optDiscover o) (optTransitionsPerPage o))
                   (crawlFetches browser shotPath o)).
Proof.
  apply (crawlFetches_inv browser shotPath o
           (fun st log =>
              claimedOnce st /\
              pages st = firstByUrl (omap (fetchedPage browser shotPath (optDiscover o)
                                             (optTransitionsPerPage o)) log))
           (fun _ => True)); try trivial; try apply Forall_top.
  - intros st log ft [Hc Hp] _ _ Hr. split; [exact Hc|].
    rewrite fetchedPages_snoc, Hr. now rewrite app_nil_r.
  - intros st log ft res [Hc Hp] _ _ _ Hr Hv. split; [exact Hc|].
    rewrite fetchedPages_snoc, Hr, firstByUrl_snoc.
    replace (existsb _ _) with true; [now rewrite app_nil_r|].
    symmetry. apply existsb_url. apply firstByUrl_urls. rewrite <- Hp.
    cbn [pageOf p_url]. now apply Hc.
  - intros st log ft res [Hc Hp] _ _ _ Hr Hv. split.
    + apply (claimedOnce_mergePage shotPath); [exact Hc | now apply has_false].
    + rewrite mergePage_pages, fetchedPages_snoc, Hr, firstByUrl_snoc, <- Hp.
      replace (existsb _ _) with false; [reflexivity|].
      symmetry. apply not_true_iff_false. intros E. apply existsb_url in E.
      apply firstByUrl_urls in E. rewrite <- Hp in E. apply Hv. now apply Hc.
  - split; [apply (claimedOnce_initial shotPath) | reflexivity].
Qed.

(** A page is recorded exactly by a visit whose result claims its URL. *)
Lemma crawl_pages_claimed o p :
  In p (pages (crawlState browser shotPath o)) <->
  exists ft res, claims browser shotPath o ft res /\ p = pageOf (ft_entry ft) res.
Proof.
  unfold claims.
  apply (crawlFetches_inv browser shotPath o
           (fun st log =>
              In p (pages st) <->
              exists ft res,
                (In ft log /\
                 fetchResult browser shotPath (optDiscover o) (optTransitionsPerPage o) ft
                 = Some res /\
                 v_normalized res ∉ ft_atMerge ft) /\
                p = pageOf (ft_entry ft) res)
           (fun _ => True)); try trivial; try apply Forall_top.
  - intros st log ft IH _ _ Hr. rewrite IH. split.
    + intros [ft' [res [[Hin Hc] E]]]. exists ft', res. rewrite In_snoc. tauto.
    + intros [ft' [res [[Hin [Hr' Hc]] E]]]. apply In_snoc in Hin as [Hin| ->].
      * now exists ft', res.
      * congruence.
  - intros st log ft res IH _ _ Hm Hr Hv. rewrite IH. split.
    + intros [ft' [res' [[Hin Hc] E]]]. exists ft', res'. rewrite In_snoc. tauto.
    + intros [ft' [res' [[Hin [Hr' Hc]] E]]]. apply In_snoc in Hin as [Hin| ->].
      * now exists ft', res'.
      * rewrite Hr in Hr'. injection Hr' as <-. rewrite Hm in Hc. contradiction.
  - intros st log ft res IH _ _ Hm Hr Hv. rewrite mergePage_pages, In_snoc, IH. split.
    + intros [[ft' [res' [[Hin Hc] E]]]| ->].
      * exists ft', res'. rewrite In_snoc. tauto.
      * exists ft, res. rewrite In_snoc, Hm. tauto.
    + intros [ft' [res' [[Hin [Hr' Hc]] E]]]. apply In_snoc in Hin as [Hin| ->].
      * left. now exists ft', res'.
      * right. rewrite Hr in Hr'. now injection Hr' as <-.
  - cbn. split; [tauto|]. now intros [ft [res [[[] _] _]]].
Qed.

Lemma crawl_fetches_inOrder o : Forall inOrder (crawlFetches browser shotPath o).
Proof.
  apply (crawlFetches_inv browser shotPath o (fun _ log => Forall inOrder log)
           (fun _ => True)); try trivial; try apply Forall_top; try constructor.
  - intros st log ft IH _ Ho _. apply Forall_app. split; [exact IH | now constructor].
  - intros st log ft res IH _ Ho _ _ _. apply Forall_app. split; [exact IH | now constructor].
  - intros st log ft res IH _ Ho _ _ _. apply Forall_app. split; [exact IH | now constructor].
Qed.

End ClaimFacts.

(** C4, amended.  No two entries of [pages] share a canonical URL, and the
    visited set is the set of the recorded pages' URLs.  The first fulfilled
    visit that lands on a URL wins: [pages] is the list of the first page of
    every landing URL, in the order of the dispatches, and a page is recorded
    exactly by a visit whose landing URL is not in the visited set when its
    result comes up in the merge loop.  An entry is dispatched only if its URL
    was not in the visited set when its layer was filtered; the set may have
    grown by the time the entry's chunk is dispatched and its result merged. *)
Theorem crawl_pages_claimed_once `{Platform}
    (browser : nat -> string -> PageLoad) (shotPath : string -> option string)
    (o : CrawlOptions) :
  let log := crawlFetches browser shotPath o in
  NoDup (map p_url (r_pages (crawl browser shotPath o))) /\
  (forall u, u ∈ visited (crawlState browser shotPath o) <->
             In u (map p_url (r_pages (crawl browser shotPath o)))) /\
  r_pages (crawl browser shotPath o) =
    firstByUrl (omap (fetchedPage browser shotPath (optDiscover o) (optTransitionsPerPage o))
                     log) /\
  (forall p,
      In p (r_pages (crawl browser shotPath o)) <->
      exists ft res,
        In ft log /\
        fetchResult browser shotPath (optDiscover o) (optTransitionsPerPage o) ft = Some res /\
        (v_normalized res ∉ ft_atMerge ft) /\
        p = pageOf (ft_entry ft) res) /\
  (forall ft,
      In ft log ->
      (f_url (ft_entry ft) ∉ ft_atLayer ft) /\
      ft_atLayer ft ⊆ ft_atDispatch ft /\ ft_atDispatch ft ⊆ ft_atMerge ft).
Proof.
  intros log. subst log. cbn [crawl r_pages].
  destruct (crawl_pages_first browser shotPath o) as [[Hnd Hv] Hfirst].
  split; [exact Hnd|]. split; [exact Hv|]. split; [exact Hfirst|]. split.
  - intros p. rewrite (crawl_pages_claimed browser shotPath o p). unfold claims.
    split; intros [ft [res Hc]]; exists ft, res; tauto.
  - intros ft Hin. pose proof (crawl_fetches_inOrder browser shotPath o) as Ho.
    rewrite Forall_forall in Ho. apply Ho. now apply list_elem_of_In.
Qed.

(** C4 as stated fails: with the seed given twice and one visit at a time,
    the second dispatch fetches the page [/a] again although its URL is in
    the visited set by then; the page is recorded once. *)
Lemma visited_url_fetched_again :
  exists ft,
    In ft (crawlFetches Demo.browser Demo.shotPath Cases.optionsTwice) /\
    ft_clock ft = 1 /\ f_url (ft_entry ft) = "https://example.com/a" /\
    "https://example.com/a" ∈ ft_atDispatch ft /\
    Demo.browser 1 "https://example.com/a" = Demo.pageA /\
    map p_url (r_pages (crawl Demo.browser Demo.shotPath Cases.optionsTwice)) =
    ["https://example.com/a"; "https://example.com/docs"].
Proof.
  assert (E : existsb (fun ft =>
             (ft_clock ft =? 1)%nat && (f_url (ft_entry ft) =? "https://example.com/a") &&
             has "https://example.com/a" (ft_atDispatch ft))
           (crawlFetches Demo.browser Demo.shotPath Cases.optionsTwice) = true)
    by (vm_compute; reflexivity).
  apply existsb_exists in E as [ft [Hin E]].
  apply andb_true_iff in E as [E E3]. apply andb_true_iff in E as [E1 E2].
  exists ft. split; [exact Hin|].
  split; [now apply Nat.eqb_eq|]. split; [now apply String.eqb_eq|].
  split; [now apply has_true|]. split; [reflexivity | vm_compute; reflexivity].
Qed.

Section GraphEntryFacts.
Context `{Platform}.

Lemma mergePage_graph_other so st input res k :
  k <> v_normalized res ->
  alookup k (graph (fst (mergePage so st input res))) = alookup k (graph st).
Proof.
  intros Hne. rewrite mergePage_spec. cbn [fst graph]. apply alookup_aset_ne. congruence.
Qed.

Lemma listedFor_merged so st input res :
  listedFor so input res (visited st) (fst (mergePage so st input res)).
Proof.
  assert (Hchar : forall u,
      In u (entry (v_normalized res) (graph (fst (mergePage so st input res)))) <->
      exists a, In a (v_actions res) /\
                navTarget so (f_origin input) (v_normalized res) a = Some u /\
                u ∉ {[v_normalized res]} ∪ visited st).
  { intros u. rewrite entry_graph_mergePage, mergePage_nextUrls. apply nextUrls_In. }
  split; [|split].
  - rewrite mergePage_graph. discriminate.
  - intros u. rewrite Hchar. split.
    + intros [a [Hin [Hn Hs]]]. apply navTarget_Some in Hn as [Hty [abs [Hr [Ht [-> Hb]]]]].
      exists a, abs. apply truthy_true in Ht.
      rewrite elem_of_union, elem_of_singleton in Hs. repeat split; auto.
    + intros [a [abs [Hin [Hty [Hr [Ht [-> [Hb [Hv Hne]]]]]]]]]. exists a.
      split; [exact Hin|]. split.
      * apply navTarget_Some. split; [exact Hty|]. exists abs.
        apply truthy_true in Ht. repeat split; auto.
      * rewrite elem_of_union, elem_of_singleton. tauto.
  - intros a abs Hin Hty Hr Ht Hb Hv.
    assert (Hn : navTarget so (f_origin input) (v_normalized res) a = Some (normalizeUrl abs)).
    { apply navTarget_Some. split; [exact Hty|]. exists abs.
      apply truthy_true in Ht. repeat split; auto. }
    split; [now apply navigate_edge_kept|].
    rewrite Hchar. intros [a' [_ [_ Hs]]]. apply Hs.
    rewrite elem_of_union, elem_of_singleton. tauto.
Qed.

Lemma listedFor_kept so st input res input' res' seen :
  v_normalized res' <> v_normalized res ->
  listedFor so input' res' seen st ->
  listedFor so input' res' seen (fst (mergePage so st input res)).
Proof.
  intros Hne [Hk [Hchar Hedge]].
  assert (He : entry (v_normalized res') (graph (fst (mergePage so st input res))) =
               entry (v_normalized res') (graph st))
    by (unfold entry; now rewrite mergePage_graph_other).
  split; [|split].
  - now rewrite mergePage_graph_other.
  - intros u. rewrite He. apply Hchar.
  - intros a abs Hin Hty Hr Ht Hb Hv. rewrite He.
    destruct (Hedge a abs Hin Hty Hr Ht Hb Hv) as [Hin' Hno]. split; [|exact Hno].
    now apply mergePage_keeps_edges.
Qed.

End GraphEntryFacts.

(** C10, amended.  Every recorded page was recorded by a visit whose result
    claimed its URL, for a frontier entry that carries the origin of a seed.
    [graph[url]] then holds exactly the resolved, canonicalized navigate
    targets of the page that pass the origin filter of that entry (the seed's
    origin when [sameOrigin] is set and that origin is known and non-empty;
    no filter otherwise) and that were neither the page itself nor in the
    visited set when the page's result came up in the merge loop.  A navigate
    edge that passes the filter and whose target was visited by then (or is
    the page itself) is in the page's [actionGraph] entry while its target is
    not in [graph[url]]. *)
Theorem legacy_graph_lists_unvisited_targets `{Platform}
    (browser : nat -> string -> PageLoad) (shotPath : string -> option string)
    (o : CrawlOptions) (p : PageVisit) :
  let r := crawl browser shotPath o in
  let so := optSameOrigin o in
  In p (r_pages r) ->
  exists ft res,
    In ft (crawlFetches browser shotPath o) /\
    fetchResult browser shotPath (optDiscover o) (optTransitionsPerPage o) ft = Some res /\
    (v_normalized res ∉ ft_atMerge ft) /\
    p = pageOf (ft_entry ft) res /\
    (exists s, In s (o_seeds o) /\ f_origin (ft_entry ft) = originOf s) /\
    alookup (p_url p) (r_graph r) <> None /\
    (forall u,
        In u (entry (p_url p) (r_graph r)) <->
        exists a abs,
          In a (p_actions p) /\ a_type a = Navigate /\
          resolveHref (p_url p) (a_href a) = Some abs /\ abs <> "" /\
          u = normalizeUrl abs /\
          originBlocked so (f_origin (ft_entry ft)) u = false /\
          (u ∉ ft_atMerge ft) /\ u <> p_url p) /\
    (forall og u,
        so = true -> f_origin (ft_entry ft) = Some og -> og <> "" ->
        In u (entry (p_url p) (r_graph r)) -> originOf u = Some og) /\
    (forall a abs,
        In a (p_actions p) -> a_type a = Navigate ->
        resolveHref (p_url p) (a_href a) = Some abs -> abs <> "" ->
        originBlocked so (f_origin (ft_entry ft)) (normalizeUrl abs) = false ->
        normalizeUrl abs ∈ ft_atMerge ft \/ normalizeUrl abs = p_url p ->
        In (mkEdge (normalizeUrl abs) (a_label a) ENavigate None)
           (entry (p_url p) (r_actionGraph r)) /\
        ~ In (normalizeUrl abs) (entry (p_url p) (r_graph r))).
Proof.
  intros r so Hp. subst r so. cbn [crawl r_pages r_graph r_actionGraph] in *.
  apply (crawl_pages_claimed browser shotPath o p) in Hp as [ft [res [[Hin [Hr Hc]] ->]]].
  exists ft, res. split; [exact Hin|]. split; [exact Hr|]. split; [exact Hc|].
  split; [reflexivity|]. cbn [pageOf p_url p_actions].
  assert (Hinv :
    forall ft res,
      In ft (crawlFetches browser shotPath o) ->
      fetchResult browser shotPath (optDiscover o) (optTransitionsPerPage o) ft = Some res ->
      v_normalized res ∉ ft_atMerge ft ->
      v_normalized res ∈ visited (crawlState browser shotPath o) /\
      (exists s, In s (o_seeds o) /\ f_origin (ft_entry ft) = originOf s) /\
      listedFor (optSameOrigin o) (ft_entry ft) res (ft_atMerge ft)
                (crawlState browser shotPath o)).
  { apply (crawlFetches_inv browser shotPath o
             (fun st log =>
                forall ft res,
                  In ft log ->
                  fetchResult browser shotPath (optDiscover o) (optTransitionsPerPage o) ft
                  = Some res ->
                  v_normalized res ∉ ft_atMerge ft ->
                  v_normalized res ∈ visited st /\
                  (exists s, In s (o_seeds o) /\ f_origin (ft_entry ft) = originOf s) /\
                  listedFor (optSameOrigin o) (ft_entry ft) res (ft_atMerge ft) st)
             (fun f => exists s, In s (o_seeds o) /\ f_origin f = originOf s)).
    - intros st log ft0 IH _ _ Hr0 ft1 res1 Hin1 Hr1 Hc1.
      apply In_snoc in Hin1 as [Hin1| ->]; [now apply IH | congruence].
    - intros st log ft0 res0 IH _ _ Hm Hr0 Hv ft1 res1 Hin1 Hr1 Hc1.
      apply In_snoc in Hin1 as [Hin1| ->]; [now apply IH|].
      rewrite Hr0 in Hr1. injection Hr1 as <-. rewrite Hm in Hc1. contradiction.
    - intros st log ft0 res0 IH Hq _ Hm Hr0 Hv ft1 res1 Hin1 Hr1 Hc1.
      apply In_snoc in Hin1 as [Hin1| ->].
      + destruct (IH ft1 res1 Hin1 Hr1 Hc1) as [Hv1 [Hs1 Hl1]].
        split; [rewrite mergePage_visited; apply elem_of_union; now right|].
        split; [exact Hs1|].
        apply listedFor_kept; [|exact Hl1]. intros E. rewrite E in Hv1. contradiction.
      + rewrite Hr0 in Hr1. injection Hr1 as <-.
        split; [rewrite mergePage_visited; apply elem_of_union; left;
                now apply elem_of_singleton|].
        split; [exact Hq|].
        rewrite Hm. apply listedFor_merged.
    - intros input u [s Hs]. now exists s.
    - intros ft0 res0 [].
    - unfold seedFrontier. apply Forall_forall. intros f Hf.
      apply list_elem_of_In, in_map_iff in Hf as [s [<- Hs]]. now exists s. }
  destruct (Hinv ft res Hin Hr Hc) as [_ [Hseed [Hk [Hchar Hedge]]]].
  split; [exact Hseed|]. split; [exact Hk|]. split; [exact Hchar|]. split; [|exact Hedge].
  intros og u Hso Hor Hog Hu. apply Hchar in Hu as [a [abs [_ [_ [_ [_ [-> [Hb _]]]]]]]].
  rewrite Hso, Hor in Hb. now apply (originBlocked_sameOrigin og).
Qed.

Section WiringFacts.
Context `{Platform}.

Lemma wired_grows Q K so input res tr ag ag' :
  grows Q K ag ag' -> wired so input res tr ag -> wired so input res tr ag'.
Proof.
  intros Hg [He [Hk Hopt]].
  assert (Hin : forall k e, In e (entry k ag) -> In e (entry k ag'))
    by (intros k e; apply (grows_In _ _ _ _ _ _ Hg)).
  assert (Hkey : forall k, alookup k ag <> None -> alookup k ag' <> None)
    by (intros k; apply (proj1 (Hg k))).
  split; [now apply Hin|]. split; [now apply Hkey|].
  intros opt Ho onode. destruct (Hopt opt Ho) as [Hc [Hok Hcase]].
  split; [now apply Hin|]. split; [now apply Hkey|].
  destruct Hcase as [[act [abs [H1 [H2 [H3 [H4 [H5 [H6 [H7 [H8 H9]]]]]]]]]]|[Hno Hback]].
  - left. exists act, abs. repeat split; try assumption; now apply Hin.
  - right. split; [exact Hno | now apply Hin].
Qed.

(** The merge of a page wires every transition its visit returned. *)
Lemma wired_merged shotPath load url discover tpp so st input res tr :
  visit shotPath load url discover tpp = Some res ->
  In tr (v_transitions res) ->
  vt_triggerLabel tr <> "" /\
  wired so input res tr (actionGraph (fst (mergePage so st input res))).
Proof.
  intros Hvisit Htr.
  destruct (visit_transitions_labelled _ _ _ _ _ _ _ Hvisit Htr) as [Ht [Hadd Hrem]].
  split; [now apply truthy_true|].
  destruct (mergePage_pushes so st input res tr Htr Ht) as [Hkey Hpush].
  set (n := v_normalized res) in *. set (trigger := vt_triggerLabel tr) in *.
  assert (Hpage : forall e,
            In e (allEdges so input res) -> e_type e = ENavigate \/ e_type e = ETransition ->
            In e (entry n (actionGraph (fst (mergePage so st input res))))).
  { intros e He Hty. subst n. rewrite mergePage_entry_page. apply in_or_app. right.
    apply filteredEdges_In. split; [exact He|].
    intros [[Hc|Hc] _]; destruct Hty; congruence. }
  split; [|split; [exact Hkey|]].
  { apply Hpage; [|now right].
    unfold allEdges. apply in_or_app. right. apply transEdges_In. now exists tr. }
  intros opt Hopt onode. subst onode.
  assert (Ho : truthy opt = true).
  { unfold allTruthy in Hadd, Hrem. rewrite Forall_forall in Hadd, Hrem.
    destruct (vt_added tr) as [|x l]; [apply Hrem | apply Hadd]; now apply list_elem_of_In. }
  apply combinedOptions_In in Hopt.
  destruct (Hpush opt (transNodeId n trigger)
              (mkEdge (optNodeId (transNodeId n trigger) opt) opt EClick None) Hopt Ho)
    as [Hclick _]; [now left|].
  destruct (Hpush opt (optNodeId (transNodeId n trigger) opt)
              (optionTarget n (scannedEdges so input res) opt) Hopt Ho)
    as [Htarget Hokey]; [now right|].
  split; [exact Hclick|]. split; [exact Hokey|].
  unfold optionTarget in Htarget.
  destruct (find (navMatches opt) (scannedEdges so input res)) as [m|] eqn:Hfind.
  - left. apply find_some in Hfind as [Hm Hmatch]. unfold navMatches in Hmatch.
    apply andb_true_iff in Hmatch as [Hmatch Hlow].
    apply andb_true_iff in Hmatch as [Hnav Hlab].
    apply String.eqb_eq in Hlow.
    unfold orElse in Htarget. rewrite Hlab in Htarget.
    pose proof Hm as Hm'.
    apply scannedEdges_In in Hm' as [act [Hact [[Hty ->]|[u [Hn ->]]]]].
    + cbn [e_type] in Hnav. destruct (a_type act); cbn in Hnav; congruence.
    + cbn [e_to e_label] in *.
      apply navTarget_Some in Hn as [Hty [abs [Hr [Habs [-> Hb]]]]].
      exists act, abs. apply truthy_true in Habs. apply truthy_true in Hlab.
      repeat split; try assumption.
      apply Hpage; [|now left]. unfold allEdges. apply in_or_app. now left.
  - right. split; [|exact Htarget].
    intros act abs Hin Hty Hr Habs Hb.
    assert (Hn : navTarget so (f_origin input) n act = Some (normalizeUrl abs)).
    { apply navTarget_Some. split; [exact Hty|]. exists abs.
      apply truthy_true in Habs. repeat split; auto. }
    pose proof (scannedEdges_navigate so input res act _ Hin Hn) as Hedge.
    pose proof (find_none _ _ Hfind _ Hedge) as Hno. unfold navMatches in Hno. simpl in Hno.
    destruct (truthy (a_label act)) eqn:Hl; simpl in Hno.
    + right. now apply String.eqb_neq.
    + left. now apply truthy_false.
Qed.

End WiringFacts.

(** C2.  Let a visit of the crawl return [res], let its result claim the
    page [a] (its landing URL was not visited when the result came up in the
    merge loop), and let [tr] be one of its discovered transitions; its
    trigger label is then non-empty.  In the result of the crawl, [a] is a
    recorded page, the entry of [a] holds the transition edge to
    [a::TRANS::trigger], and that node is a key of the [actionGraph].  For
    every label [opt] of [added] (of [removed] when [added] is empty) the
    transition node has a click edge to [a::TRANS::trigger::OPT::opt], the
    option node is a key, and it has an outgoing edge: a navigate edge to the
    destination of a navigate edge of the page whose non-empty label equals
    [opt] up to case when the page has one, and otherwise a click edge back
    to [a]. *)
Theorem discovered_transition_is_wired `{Platform}
    (browser : nat -> string -> PageLoad) (shotPath : string -> option string)
    (o : CrawlOptions) (ft : Fetch) (res : VisitRes) (tr : VisitTransition) :
  In ft (crawlFetches browser shotPath o) ->
  fetchResult browser shotPath (optDiscover o) (optTransitionsPerPage o) ft = Some res ->
  v_normalized res ∉ ft_atMerge ft ->
  In tr (v_transitions res) ->
  let a := v_normalized res in
  let ag := r_actionGraph (crawl browser shotPath o) in
  let trigger := vt_triggerLabel tr in
  let tnode := transNodeId a trigger in
  In (pageOf (ft_entry ft) res) (r_pages (crawl browser shotPath o)) /\
  trigger <> "" /\
  In (mkEdge tnode trigger ETransition None) (entry a ag) /\
  alookup tnode ag <> None /\
  forall opt,
    In opt (match vt_added tr with [] => vt_removed tr | _ => vt_added tr end) ->
    let onode := optNodeId tnode opt in
    In (mkEdge onode opt EClick None) (entry tnode ag) /\
    alookup onode ag <> None /\
    ((exists act abs,
         In act (v_actions res) /\ a_type act = Navigate /\
         resolveHref a (a_href act) = Some abs /\ abs <> "" /\
         originBlocked (optSameOrigin o) (f_origin (ft_entry ft)) (normalizeUrl abs) = false /\
         a_label act <> "" /\ toLowerCase (a_label act) = toLowerCase opt /\
         In (mkEdge (normalizeUrl abs) (a_label act) ENavigate None) (entry a ag) /\
         In (mkEdge (normalizeUrl abs) (a_label act) ENavigate None) (entry onode ag))
     \/
     ((forall act abs,
          In act (v_actions res) -> a_type act = Navigate ->
          resolveHref a (a_href act) = Some abs -> abs <> "" ->
          originBlocked (optSameOrigin o) (f_origin (ft_entry ft)) (normalizeUrl abs) = false ->
          a_label act = "" \/ toLowerCase (a_label act) <> toLowerCase opt) /\
      In (mkEdge a opt EClick None) (entry onode ag))).
Proof.
  intros Hin Hr Hc Htr a ag trigger tnode. subst a ag trigger tnode.
  cbn [crawl r_pages r_actionGraph].
  split.
  { apply (crawl_pages_claimed browser shotPath o). now exists ft, res. }
  assert (Hinv :
    forall ft res,
      In ft (crawlFetches browser shotPath o) ->
      fetchResult browser shotPath (optDiscover o) (optTransitionsPerPage o) ft = Some res ->
      v_normalized res ∉ ft_atMerge ft ->
      forall tr, In tr (v_transitions res) ->
        vt_triggerLabel tr <> "" /\
        wired (optSameOrigin o) (ft_entry ft) res tr
              (actionGraph (crawlState browser shotPath o))).
  { apply (crawlFetches_inv browser shotPath o
             (fun st log =>
                forall ft res,
                  In ft log ->
                  fetchResult browser shotPath (optDiscover o) (optTransitionsPerPage o) ft
                  = Some res ->
                  v_normalized res ∉ ft_atMerge ft ->
                  forall tr, In tr (v_transitions res) ->
                    vt_triggerLabel tr <> "" /\
                    wired (optSameOrigin o) (ft_entry ft) res tr (actionGraph st))
             (fun _ => True)); try trivial; try apply Forall_top.
    - intros st log ft0 IH _ _ Hr0 ft1 res1 Hin1 Hr1 Hc1.
      apply In_snoc in Hin1 as [Hin1| ->]; [now apply IH | congruence].
    - intros st log ft0 res0 IH _ _ Hm Hr0 Hv ft1 res1 Hin1 Hr1 Hc1.
      apply In_snoc in Hin1 as [Hin1| ->]; [now apply IH|].
      rewrite Hr0 in Hr1. injection Hr1 as <-. rewrite Hm in Hc1. contradiction.
    - intros st log ft0 res0 IH _ _ Hm Hr0 Hv ft1 res1 Hin1 Hr1 Hc1 tr1 Htr1.
      apply In_snoc in Hin1 as [Hin1| ->].
      + destruct (IH ft1 res1 Hin1 Hr1 Hc1 tr1 Htr1) as [Ht Hw]. split; [exact Ht|].
        eapply wired_grows; [apply mergePage_grows | exact Hw].
      + rewrite Hr0 in Hr1. injection Hr1 as <-.
        apply (wired_merged shotPath _ _ _ _ _ _ _ _ _ Hr0 Htr1).
    - intros ft0 res0 []. }
  destruct (Hinv ft res Hin Hr Hc tr Htr) as [Ht Hw]. split; [exact Ht|]. exact Hw.
Qed.

(** ** What merging a chunk records *)

Section ChunkMergeFacts.
Context `{Platform}.
Variables (browser : nat -> string -> PageLoad) (shotPath : string -> option string).
Variables (so : bool) (md : Z) (d : bool) (t : Z).








End ChunkMergeFacts.



Lemma discovered_transition_is_wired_witness :
  In (mkEdge "https://example.com/docs" "Docs" ENavigate None)
     (entry "https://example.com/a::TRANS::Menu::OPT::docs"
        (r_actionGraph (crawl Demo.browser Demo.shotPath Demo.options))) /\
  In (mkEdge "https://example.com/a::TRANS::Nop" "Nop" ETransition None)
     (entry "https://example.com/a" (r_actionGraph (crawl Demo.browser Demo.shotPath Demo.options))).
Proof.
  split.
  - pose proof (discovered_transition_is_wired Demo.browser Demo.shotPath Demo.options
                  (mkFetch 0 Demo.seedEntry ∅ ∅ ∅) Demo.seedRes
                  (mkVisitTransition "Menu"
                     [mkAction Click "Home" None "" None; mkAction Click "docs" None "" None;
                      mkAction Click "Logout" None "" None]
                     ["docs"; "Logout"] [])) as W.
    cbv zeta in W.
    destruct W as [_ [_ [_ [_ W]]]].
    + vm_compute. left. reflexivity.
    + reflexivity.
    + apply not_elem_of_empty.
    + left. reflexivity.
    + destruct (W "docs")
        as [_ [_ [[act [abs [Hact [_ [Hr [_ [_ [_ [Hlow [_ Hedge]]]]]]]]]]|[Hno _]]]].
      * left. reflexivity.
      * destruct Hact as [<-|[<-|[<-|[<-|[]]]]]; try discriminate Hr; try discriminate Hlow.
        injection Hr as <-. exact Hedge.
      * exfalso.
        destruct (Hno (Demo.link "Docs" "/docs/") "https://example.com/docs/") as [Hc|Hc];
          try reflexivity; try discriminate.
        -- left. reflexivity.
        -- apply Hc. reflexivity.
  - refine (proj1 (proj2 (proj2 (discovered_transition_is_wired Demo.browser Demo.shotPath
                                   Demo.options (mkFetch 0 Demo.seedEntry ∅ ∅ ∅) Demo.seedRes
                                   (mkVisitTransition "Nop"
                                      [mkAction Click "Home" None "" None] [] [])
                                   _ _ _ _)))).
    + vm_compute. left. reflexivity.
    + reflexivity.
    + apply not_elem_of_empty.
    + right. left. reflexivity.
Defined.

Lemma legacy_graph_lists_unvisited_targets_witness :
  In (mkEdge "https://example.com/a" "Self" ENavigate None)
     (entry "https://example.com/a"
        (r_actionGraph (crawl Demo.browser Demo.shotPath Demo.options))) /\
  ~ In "https://example.com/a"
       (entry "https://example.com/a" (r_graph (crawl Demo.browser Demo.shotPath Demo.options))).
Proof.
  destruct (legacy_graph_lists_unvisited_targets Demo.browser Demo.shotPath Demo.options
              (pageOf Demo.seedEntry Demo.seedRes))
    as [ft [res [_ [_ [_ [_ [[s [Hs Hor]] [_ [_ [_ Hedge]]]]]]]]]].
  - vm_compute. left. reflexivity.
  - destruct Hs as [<-|[]].
    apply (Hedge (Demo.link "Self" "/a") "https://example.com/a").
    + right. right. left. reflexivity.
    + reflexivity.
    + reflexivity.
    + discriminate.
    + rewrite Hor. reflexivity.
    + right. reflexivity.
Defined.

(** C10 as stated fails: without the same-origin filter the demo crawl
    records the page [/a], and [graph] lists under it the target
    [https://other.com/x], whose origin is not the page's. *)
Lemma graph_lists_offsite_target :
  let r := crawl Demo.browser Demo.shotPath Cases.optionsAnyOrigin in
  In "https://example.com/a" (map p_url (r_pages r)) /\
  In "https://other.com/x" (entry "https://example.com/a" (r_graph r)) /\
  originOf "https://other.com/x" <> originOf "https://example.com/a".
Proof.
  split; [vm_compute; left; reflexivity|].
  split; [vm_compute; right; left; reflexivity | discriminate].
Qed.

(** C6.  [normalizeUrl] removes the trailing slashes by assigning
    [u.pathname] and returns [u.toString()] whatever the setter did.  Take a
    URL whose pathname, once the fragment is cleared, is not the root path and
    ends in a slash, and on which the pathname setter changes nothing (the
    rule of the URL Standard for a URL with an opaque path, such as
    [mailto:a/]).  Its canonical form is the serialization of that same URL:
    it parses to a URL whose pathname is not the root path and still ends in
    a slash. *)
Theorem normalizeUrl_misses_opaque_path `{Platform} (raw : string) (u : URL) :
  url_parse raw = Some u ->
  let u1 := url_set_hash "" u in
  url_pathname u1 <> "/" -> endsWith (url_pathname u1) "/" = true ->
  url_set_pathname (stripTrailingSlashes (url_pathname u1)) u1 = u1 ->
  url_parse (url_href u1) = Some u1 ->
  normalizeUrl raw = url_href u1 /\
  exists u', url_parse (normalizeUrl raw) = Some u' /\
             url_pathname u' <> "/" /\ endsWith (url_pathname u') "/" = true.
Proof.
  intros Hp u1 Hroot Hslash Hset Hround.
  assert (E : normalizeUrl raw = url_href u1).
  { unfold normalizeUrl. rewrite Hp. fold u1.
    apply String.eqb_neq in Hroot. rewrite Hroot, Hslash. cbn [negb andb].
    now rewrite Hset. }
  split; [exact E|]. exists u1. rewrite E. apply String.eqb_neq in Hroot.
  split; [exact Hround|]. split; [now apply String.eqb_neq | exact Hslash].
Qed.

Lemma normalizeUrl_misses_opaque_path_witness :
  normalizeUrl "mailto:a/" = "mailto:a/" /\
  exists u' : Lite.LUrl,
    url_parse (normalizeUrl "mailto:a/") = Some u' /\
    url_pathname u' <> "/" /\ endsWith (url_pathname u') "/" = true.
Proof.
  apply (@normalizeUrl_misses_opaque_path Lite.platform "mailto:a/"
           (Lite.mkLUrl "mailto" None true "a/" None None)).
  - reflexivity.
  - discriminate.
  - reflexivity.
  - reflexivity.
  - reflexivity.
Defined.

(** ** The two graphs of a crawl agree with its pages *)

Section GraphFacts.
Context `{Platform}.
Variables (browser : nat -> string -> PageLoad) (shotPath : string -> option string).

Lemma keysMatch_mergePage so st input res :
  keysMatch st -> keysMatch (fst (mergePage so st input res)).
Proof.
  intros [Hg Ha]. split.
  - intros u. rewrite mergePage_spec. cbn [fst graph visited].
    rewrite elem_of_union, elem_of_singleton.
    destruct (String.eqb_spec (v_normalized res) u) as [->|Hne].
    + rewrite alookup_aset_eq. split; [now left | discriminate].
    + rewrite alookup_aset_ne by assumption. rewrite Hg. split; [now right|].
      intros [->|Hu]; [contradiction | assumption].
  - intros u Hu. rewrite mergePage_spec in Hu. cbn [fst visited] in Hu.
    apply elem_of_union in Hu as [Hu|Hu].
    + apply elem_of_singleton in Hu. subst u. rewrite mergePage_spec.
      cbn [fst actionGraph]. rewrite alookup_aset_eq. discriminate.
    + apply (proj1 (mergePage_grows so st input res u)). now apply Ha.
Qed.

Lemma linksBacked_mergePage so st input res :
  linksBacked st -> linksBacked (fst (mergePage so st input res)).
Proof.
  intros Hl u v Hv.
  destruct (String.eqb_spec (v_normalized res) u) as [<-|Hne].
  - rewrite entry_graph_mergePage, mergePage_nextUrls in Hv.
    apply nextUrls_In in Hv as [a [Ha [Hn Hs]]]. split.
    + intros ->. apply Hs. apply elem_of_union. left. now apply elem_of_singleton.
    + exists (a_label a). now apply navigate_edge_kept.
  - rewrite mergePage_spec in Hv. cbn [fst graph] in Hv. rewrite entry_aset in Hv.
    apply String.eqb_neq in Hne. rewrite Hne in Hv.
    destruct (Hl u v Hv) as [Hd [l Hin]]. split; [exact Hd|].
    exists l. now apply mergePage_keeps_edges.
Qed.

Lemma crawlState_keysMatch o : keysMatch (crawlState browser shotPath o).
Proof.
  unfold crawlState.
  apply (layerLoop_inv browser shotPath _ _ _ _ keysMatch (fun _ => True)).
  - intros st input res HP _ _ _. now apply keysMatch_mergePage.
  - trivial.
  - split; [|intros u Hu; now apply not_elem_of_empty in Hu].
    intros u. cbn. split; [congruence | intros Hu; now apply not_elem_of_empty in Hu].
Qed.

Lemma crawlState_linksBacked o : linksBacked (crawlState browser shotPath o).
Proof.
  unfold crawlState.
  apply (layerLoop_inv browser shotPath _ _ _ _ linksBacked (fun _ => True)).
  - intros st input res HP _ _ _. now apply linksBacked_mergePage.
  - trivial.
  - intros u v []. 
Qed.

End GraphFacts.

(** The legacy [graph] has an entry for exactly the URLs of the recorded
    pages, and every recorded page also has an [actionGraph] entry. *)
Theorem crawl_graph_keys_are_pages `{Platform}
    (browser : nat -> string -> PageLoad) (shotPath : string -> option string)
    (o : CrawlOptions) :
  let r := crawl browser shotPath o in
  (forall u, alookup u (r_graph r) <> None <-> In u (map p_url (r_pages r))) /\
  (forall u, In u (map p_url (r_pages r)) -> alookup u (r_actionGraph r) <> None).
Proof.
  cbn. destruct (crawlState_keysMatch browser shotPath o) as [Hg Ha].
  destruct (crawlState_claimedOnce browser shotPath o) as [_ Hv]. split.
  - intros u. now rewrite Hg, Hv.
  - intros u Hu. apply Ha. now apply Hv.
Qed.

(** Every URL that the legacy [graph] lists under a page is another URL
    than the page's own and is the target of a navigate edge in the page's
    [actionGraph] entry. *)
Theorem crawl_graph_links_have_edges `{Platform}
    (browser : nat -> string -> PageLoad) (shotPath : string -> option string)
    (o : CrawlOptions) (u v : string) :
  let r := crawl browser shotPath o in
  In v (entry u (r_graph r)) ->
  v <> u /\ exists l, In (mkEdge v l ENavigate None) (entry u (r_actionGraph r)).
Proof.
  cbn. apply (crawlState_linksBacked browser shotPath o).
Qed.

Lemma crawl_graph_links_have_edges_witness :
  "https://example.com/docs" <> "https://example.com/a" /\
  exists l, In (mkEdge "https://example.com/docs" l ENavigate None)
               (entry "https://example.com/a"
                      (r_actionGraph (crawl Demo.browser Demo.shotPath Demo.options))).
Proof.
  apply (crawl_graph_links_have_edges Demo.browser Demo.shotPath Demo.options
           "https://example.com/a" "https://example.com/docs").
  vm_compute. left. reflexivity.
Defined.

(** ** Pages come in the order of their layers *)

Section LayerFacts.
Context `{Platform}.
Variables (browser : nat -> string -> PageLoad) (shotPath : string -> option string).

Lemma StronglySorted_snoc {A} (R : A -> A -> Prop) (l : list A) (y : A) :
  StronglySorted R l -> Forall (fun x => R x y) l -> StronglySorted R (l ++ [y]).
Proof.
  induction 1 as [|x l Hs IH Hx]; intros Hy; cbn.
  - constructor; constructor.
  - inversion Hy; subst. constructor; [now apply IH|].
    apply Forall_app. split; [assumption|]. now constructor.
Qed.

Lemma crawlState_layered o :
  StronglySorted (fun p q => (p_depth p <= p_depth q)%Z) (pages (crawlState browser shotPath o)) /\
  Forall (fun p => (0 <= p_depth p)%Z) (pages (crawlState browser shotPath o)).
Proof.
  unfold crawlState.
  pose (P := fun (dep : Z) (st : CrawlState) =>
               (0 <= dep)%Z /\
               StronglySorted (fun p q => (p_depth p <= p_depth q)%Z) (pages st) /\
               Forall (fun p => (0 <= p_depth p <= dep)%Z) (pages st)).
  pose (Q := fun (dep : Z) (_ : CrawlState) (f : FrontierEntry) => f_depth f = dep).
  cut (exists dep',
          P dep' (layerLoop browser shotPath (Z.to_nat (optMaxDepth o + 1)) (optSameOrigin o)
                    (optMaxDepth o) (optMaxPages o) (Z.to_nat (optConcurrency o))
                    (optDiscover o) (optTransitionsPerPage o) 0%Z
                    (seedFrontier (o_seeds o)) 0%nat initialState)).
  { intros [dep' [_ [Hs Hb]]]. split; [exact Hs|].
    eapply Forall_impl; [exact Hb|]. cbn. intros p Hp. lia. }
  apply (layerLoop_frontier browser shotPath _ _ _ _ P Q); subst P Q; cbn beta.
  - intros dep st input res [Hd [Hs Hb]] Hq _ _. rewrite mergePage_spec. cbn [fst snd pages].
    split; [|intros u _; cbn; lia].
    split; [exact Hd|]. split.
    + apply StronglySorted_snoc; [exact Hs|].
      eapply Forall_impl; [exact Hb|]. cbn. intros p Hp. lia.
    + apply Forall_app. split; [exact Hb|]. constructor; [cbn; lia | constructor].
  - intros dep dep' st input res f _ _ Hf. exact Hf.
  - intros dep st [Hd [Hs Hb]]. split; [lia|]. split; [exact Hs|].
    eapply Forall_impl; [exact Hb|]. cbn. intros p Hp. lia.
  - intros dep st f Hf Hne. apply Z.eqb_neq in Hne. contradiction.
  - split; [lia|]. split; constructor.
  - unfold seedFrontier. apply Forall_forall. intros f Hf. apply list_elem_of_In in Hf.
    apply in_map_iff in Hf as [s [<- _]]. reflexivity.
Qed.

End LayerFacts.

(** The pages of a crawl are recorded layer by layer: along [pages] the
    depth never decreases, and no depth is negative. *)
Theorem crawl_pages_in_layer_order `{Platform}
    (browser : nat -> string -> PageLoad) (shotPath : string -> option string)
    (o : CrawlOptions) :
  let r := crawl browser shotPath o in
  StronglySorted (fun p q => (p_depth p <= p_depth q)%Z) (r_pages r) /\
  Forall (fun p => (0 <= p_depth p)%Z) (r_pages r).
Proof.
  cbn. apply crawlState_layered.
Qed.

(** ** With [sameOrigin], the recorded links stay on the seeds' origins *)

Section OriginFacts.
Context `{Platform}.
Variables (browser : nat -> string -> PageLoad) (shotPath : string -> option string).
Variable seeds : list string.

Lemma navTarget_origin bo og n a u :
  bo = Some og -> og <> "" -> navTarget true bo n a = Some u -> originOf u = Some og.
Proof.
  intros -> Hog Hn. apply navTarget_Some in Hn as [_ [abs [_ [_ [-> Hb]]]]].
  now apply originBlocked_sameOrigin in Hb.
Qed.

Lemma scanned_navigate_origin input res og e :
  f_origin input = Some og -> og <> "" ->
  In e (scannedEdges true input res) -> e_type e = ENavigate ->
  originOf (e_to e) = Some og.
Proof.
  intros Ho Hog He Ht. apply scannedEdges_In in He as [a [_ [[Hna ->]|[u [Hn ->]]]]].
  - cbn in Ht. destruct (a_type a); [contradiction | discriminate | discriminate].
  - cbn. eapply navTarget_origin; eassumption.
Qed.

Lemma confined_mergePage st input res :
  confined seeds st -> carriesSeedOrigin seeds input ->
  confined seeds (fst (mergePage true st input res)).
Proof.
  intros [Ha Hg] [s [og [Hs [Hos [Hog Hf]]]]].
  assert (Hscan : forall e, In e (scannedEdges true input res) -> e_type e = ENavigate ->
                            onSeedOrigin seeds (e_to e)).
  { intros e He Ht. exists s. split; [exact Hs|]. rewrite Hos.
    eapply scanned_navigate_origin; eassumption. }
  split.
  - intros k e He Ht.
    destruct (mergePage_grows true st input res k) as [_ [_ [extra [E F]]]].
    rewrite E in He. apply in_app_iff in He as [He|He]; [now apply (Ha k)|].
    rewrite Forall_forall in F. apply list_elem_of_In in He.
    destruct (F e He) as [[_ Hin]|[tr [opt [_ [_ [_ [_ Hp]]]]]]].
    + apply filteredEdges_In in Hin as [Hin _]. unfold allEdges in Hin.
      apply in_app_iff in Hin as [Hin|Hin]; [now apply Hscan|].
      apply transEdges_In in Hin as [tr [_ [_ ->]]]. discriminate.
    + destruct Hp as [[_ ->]|[_ ->]]; [discriminate|].
      unfold optionTarget in *.
      destruct (find (navMatches opt) (scannedEdges true input res)) as [m|] eqn:Ef;
        [|discriminate].
      apply find_some in Ef as [Hm Hnm]. cbn. apply Hscan; [exact Hm|].
      unfold navMatches in Hnm. apply andb_true_iff in Hnm as [Hnm _].
      apply andb_true_iff in Hnm as [Hnm _]. now destruct (e_type m).
  - intros u v Hv. rewrite mergePage_spec in Hv. cbn [fst graph] in Hv.
    rewrite entry_aset in Hv. destruct (v_normalized res =? u); [|now apply (Hg u)].
    apply nextUrls_In in Hv as [a [_ [Hn _]]]. exists s. split; [exact Hs|].
    rewrite Hos. eapply navTarget_origin; eassumption.
Qed.

Lemma crawlState_confined o :
  optSameOrigin o = true -> o_seeds o = seeds ->
  (forall s, In s seeds -> exists og, originOf s = Some og /\ og <> "") ->
  confined seeds (crawlState browser shotPath o).
Proof.
  intros Hso Hseeds Hor. unfold crawlState. rewrite Hso, Hseeds.
  pose (P := fun (_ : Z) (st : CrawlState) => confined seeds st).
  pose (Q := fun (_ : Z) (_ : CrawlState) (f : FrontierEntry) => carriesSeedOrigin seeds f).
  cut (exists dep',
          P dep' (layerLoop browser shotPath (Z.to_nat (optMaxDepth o + 1)) true
                    (optMaxDepth o) (optMaxPages o) (Z.to_nat (optConcurrency o))
                    (optDiscover o) (optTransitionsPerPage o) 0%Z
                    (seedFrontier seeds) 0%nat initialState)).
  { now intros [dep' HP]. }
  apply (layerLoop_frontier browser shotPath _ _ _ _ P Q); subst P Q; cbn beta.
  - intros _ st input res HP HQ _ _. split; [now apply confined_mergePage|].
    intros u _. destruct HQ as [s [og [Hs [Hos [Hog Hf]]]]]. now exists s, og.
  - intros _ _ st input res f _ _ Hf. exact Hf.
  - trivial.
  - trivial.
  - split; intros k e [].
  - unfold seedFrontier. apply Forall_forall. intros f Hf. apply list_elem_of_In in Hf.
    apply in_map_iff in Hf as [s [<- Hs]]. destruct (Hor s Hs) as [og [Hos Hog]].
    now exists s, og.
Qed.

End OriginFacts.

(** With [sameOrigin] on and seeds whose origins are known, every navigate
    edge of [actionGraph], under a page or under a synthetic node, and every
    URL listed in [graph] leads to the origin of one of the seeds. *)
Theorem crawl_stays_on_seed_origins `{Platform}
    (browser : nat -> string -> PageLoad) (shotPath : string -> option string)
    (o : CrawlOptions) :
  optSameOrigin o = true ->
  (forall s, In s (o_seeds o) -> exists og, originOf s = Some og /\ og <> "") ->
  let r := crawl browser shotPath o in
  (forall k e, In e (entry k (r_actionGraph r)) -> e_type e = ENavigate ->
               onSeedOrigin (o_seeds o) (e_to e)) /\
  (forall u v, In v (entry u (r_graph r)) -> onSeedOrigin (o_seeds o) v).
Proof.
  intros Hso Hor. cbn. now apply crawlState_confined.
Qed.

Lemma crawl_stays_on_seed_origins_witness :
  onSeedOrigin (o_seeds Demo.options) "https://example.com/docs".
Proof.
  refine (proj2 (crawl_stays_on_seed_origins Demo.browser Demo.shotPath Demo.options _ _)
                "https://example.com/a" "https://example.com/docs" _).
  - reflexivity.
  - intros s [<-|[]]. eexists. split; [reflexivity | discriminate].
  - vm_compute. left. reflexivity.
Defined.

(** ** Every page is reached from a seed *)

Section ReachFacts.
Context `{Platform}.
Variables (browser : nat -> string -> PageLoad) (shotPath : string -> option string).
Variables (d : bool) (t : Z) (seeds : list string).

Lemma graph_entry_kept so st input res q :
  claimedOnce st -> has (v_normalized res) (visited st) = false -> In q (pages st) ->
  entry (p_url q) (graph (fst (mergePage so st input res))) = entry (p_url q) (graph st).
Proof.
  intros [_ Hv] Hf Hq. apply has_false in Hf.
  rewrite mergePage_spec. cbn [fst graph]. rewrite entry_aset.
  destruct (String.eqb_spec (v_normalized res) (p_url q)) as [E|_]; [|reflexivity].
  exfalso. apply Hf. rewrite E. apply Hv. now apply in_map.
Qed.

Lemma pages_kept so st input res q :
  In q (pages st) -> In q (pages (fst (mergePage so st input res))).
Proof.
  intros Hq. rewrite mergePage_spec. cbn [fst pages]. apply in_app_iff. now left.
Qed.

Lemma reachedFrom_mergePage so st input res p :
  claimedOnce st -> has (v_normalized res) (visited st) = false ->
  reachedFrom browser shotPath d t seeds (pages st) (graph st) p ->
  reachedFrom browser shotPath d t seeds (pages (fst (mergePage so st input res)))
              (graph (fst (mergePage so st input res))) p.
Proof.
  intros Hc Hf [Hseed|[q [u [Hq [Hd [Hu Hl]]]]]]; [now left|].
  right. exists q, u. split; [now apply pages_kept|]. split; [exact Hd|].
  split; [|exact Hl]. now rewrite graph_entry_kept.
Qed.

Lemma queuedFrom_mergePage so st input res dep f :
  claimedOnce st -> has (v_normalized res) (visited st) = false ->
  queuedFrom seeds dep st f -> queuedFrom seeds dep (fst (mergePage so st input res)) f.
Proof.
  intros Hc Hf [Hd [Hseed|[q [Hq [Hpd Hu]]]]]; (split; [exact Hd|]); [now left|].
  right. exists q. split; [now apply pages_kept|]. split; [exact Hpd|].
  now rewrite graph_entry_kept.
Qed.

Lemma crawlState_traced so md mp c layers :
  traced browser shotPath d t seeds
         (layerLoop browser shotPath layers so md mp c d t 0%Z (seedFrontier seeds) 0%nat
                    initialState).
Proof.
  pose (P := fun (_ : Z) (st : CrawlState) =>
               claimedOnce st /\ traced browser shotPath d t seeds st).
  pose (Q := fun (dep : Z) (st : CrawlState) (f : FrontierEntry) => queuedFrom seeds dep st f).
  cut (exists dep',
          P dep' (layerLoop browser shotPath layers so md mp c d t 0%Z (seedFrontier seeds)
                            0%nat initialState)).
  { now intros [dep' [_ HP]]. }
  apply (layerLoop_frontier browser shotPath _ _ _ _ P Q); subst P Q; cbn beta.
  - intros dep st input res [Hc Ht] HQ Hv Hf.
    assert (Hnew : In (mkPageVisit (v_normalized res) (v_title res) (f_depth input)
                                   (v_actions res) (v_screenshotPath res))
                      (pages (fst (mergePage so st input res)))).
    { rewrite mergePage_spec. cbn [fst pages]. apply in_app_iff. right. now left. }
    split; [split; [now apply (claimedOnce_mergePage shotPath)|]|].
    + intros p Hp. rewrite mergePage_spec in Hp. cbn [fst pages] in Hp.
      apply in_app_iff in Hp as [Hp|[<-|[]]];
        [apply reachedFrom_mergePage; [assumption | assumption | now apply Ht]|].
      destruct Hv as [clock Hv].
      assert (Hl : landsOn browser shotPath d t (f_url input) (v_normalized res))
        by (exists clock, res; now split).
      apply (queuedFrom_mergePage so st input res) in HQ; [|assumption|assumption].
      destruct HQ as [Hd [[H0 [s [Hs Hu]]]|[q [Hq [Hpd Hu]]]]].
      * left. cbn. split; [lia|]. exists s. split; [exact Hs|]. now rewrite <- Hu.
      * right. exists q, (f_url input). split; [exact Hq|]. cbn. split; [lia|]. now split.
    + intros u Hu. destruct HQ as [Hd _]. split; [cbn; lia|]. right.
      eexists. split; [exact Hnew|]. cbn [p_depth p_url]. split; [lia|].
      now rewrite entry_graph_mergePage.
  - intros dep dep' st input res f [Hc _] Hf HQ. now apply queuedFrom_mergePage.
  - trivial.
  - intros dep st f [Hd _] Hne. apply Z.eqb_neq in Hne. contradiction.
  - split; [apply (claimedOnce_initial shotPath) | intros p []].
  - unfold seedFrontier. apply Forall_forall. intros f Hf. apply list_elem_of_In in Hf.
    apply in_map_iff in Hf as [s [<- Hs]]. split; [reflexivity|]. left.
    split; [reflexivity|]. now exists s.
Qed.

End ReachFacts.

(** Every page of a crawl is where a dispatched visit ended: the visit of a
    canonicalized seed, for a page of depth 0, and otherwise the visit of a
    URL that [graph] lists under a recorded page of the depth just below. *)
Theorem crawl_pages_reached_from_seeds `{Platform}
    (browser : nat -> string -> PageLoad) (shotPath : string -> option string)
    (o : CrawlOptions) (p : PageVisit) :
  let r := crawl browser shotPath o in
  In p (r_pages r) ->
  reachedFrom browser shotPath (optDiscover o) (optTransitionsPerPage o) (o_seeds o)
              (r_pages r) (r_graph r) p.
Proof.
  cbn. apply crawlState_traced.
Qed.

Lemma crawl_pages_reached_from_seeds_witness :
  reachedFrom Demo.browser Demo.shotPath true 12 (o_seeds Demo.options)
    (r_pages (crawl Demo.browser Demo.shotPath Demo.options))
    (r_graph (crawl Demo.browser Demo.shotPath Demo.options))
    (mkPageVisit "https://example.com/docs" "D" 1 [Demo.link "Back" "/a"] None).
Proof.
  apply (crawl_pages_reached_from_seeds Demo.browser Demo.shotPath Demo.options).
  vm_compute. right. left. reflexivity.
Defined.

(** ** A crawl with nothing to do *)

(** Without seeds, with a negative [maxDepth] or with a page budget of zero
    or less, the crawl records nothing: no page and no entry in either
    graph. *)
Theorem crawl_without_work_is_empty `{Platform}
    (browser : nat -> string -> PageLoad) (shotPath : string -> option string)
    (o : CrawlOptions) :
  o_seeds o = [] \/ (optMaxDepth o < 0)%Z \/ (optMaxPages o <= 0)%Z ->
  crawl browser shotPath o = mkCrawlResult [] [] [].
Proof.
  intros Hw. unfold crawl.
  assert (E : crawlState browser shotPath o = initialState); [|now rewrite E].
  unfold crawlState. destruct (Z.to_nat (optMaxDepth o + 1)) as [|n] eqn:En; [reflexivity|].
  cbn [layerLoop].
  destruct ((0 <=? optMaxDepth o)%Z && (0 <? length (seedFrontier (o_seeds o)))%nat &&
            (pagesLen initialState <? optMaxPages o)%Z) eqn:Ec; [|reflexivity].
  apply andb_true_iff in Ec as [Ec Hp]. apply andb_true_iff in Ec as [Hd Hs].
  apply Z.leb_le in Hd. apply Nat.ltb_lt in Hs. apply Z.ltb_lt in Hp.
  unfold pagesLen in Hp. cbn in Hp.
  destruct Hw as [Hw|[Hw|Hw]]; [|lia|lia].
  rewrite Hw in Hs. cbn in Hs. lia.
Qed.

Lemma crawl_without_work_is_empty_witness :
  crawl Demo.browser Demo.shotPath Demo.optionsNegativeBudget = mkCrawlResult [] [] [].
Proof.
  apply (crawl_without_work_is_empty Demo.browser Demo.shotPath Demo.optionsNegativeBudget).
  right. right. cbn. lia.
Defined.

(** ** The next frontier *)

Section NextFrontier.
Variable seen : gset string.

Lemma nextFrontier_fold_spec cands sn nf :
  (forall u, u ∈ sn <-> In u (map f_url nf)) ->
  NoDup (map f_url nf) ->
  (forall c, In c nf -> f_url c ∉ seen) ->
  let r := fold_left (nextFrontierStep seen) cands (sn, nf) in
  (forall u, u ∈ fst r <-> In u (map f_url (snd r))) /\
  NoDup (map f_url (snd r)) /\
  (forall c, In c (snd r) -> (f_url c ∉ seen) /\ (In c nf \/ In c cands)) /\
  (forall c, In c nf -> In c (snd r)) /\
  (forall c, In c cands -> f_url c ∉ seen -> f_url c ∈ fst r) /\
  (forall l1 c l2, cands = l1 ++ c :: l2 -> f_url c ∉ seen -> f_url c ∉ sn ->
                   (forall x, In x l1 -> f_url x <> f_url c) -> In c (snd r)).
Proof.
  revert sn nf. induction cands as [|c0 l IH]; intros sn nf Hsn Hnd Hseen; cbn [fold_left].
  - cbn. split; [exact Hsn|]. split; [exact Hnd|]. split; [intros c Hc; split; auto|].
    split; [auto|]. split; [intros c []|]. intros [|? ?] c l2 E; discriminate.
  - assert (Hstep :
        nextFrontierStep seen (sn, nf) c0 =
        if has (f_url c0) seen then (sn, nf)
        else if has (f_url c0) sn then (sn, nf)
        else ({[f_url c0]} ∪ sn, nf ++ [c0])) by reflexivity.
    rewrite Hstep. clear Hstep.
    destruct (has (f_url c0) seen) eqn:E1; [|destruct (has (f_url c0) sn) eqn:E2].
    + apply has_true in E1.
      destruct (IH sn nf Hsn Hnd Hseen) as [A [B [C [D [E F]]]]].
      split; [exact A|]. split; [exact B|]. split.
      { intros c Hc. destruct (C c Hc) as [C1 [C2|C2]]; split; auto. right. now right. }
      split; [exact D|]. split.
      { intros c [<-|Hc] Hn; [contradiction | now apply E]. }
      intros [|x l1] c l2 Eq Hn Hs Hfirst; inversion Eq; subst; [contradiction|].
      apply (F l1 c l2); auto. intros y Hy. apply Hfirst. now right.
    + apply has_true in E2. apply has_false in E1.
      destruct (IH sn nf Hsn Hnd Hseen) as [A [B [C [D [E F]]]]].
      split; [exact A|]. split; [exact B|]. split.
      { intros c Hc. destruct (C c Hc) as [C1 [C2|C2]]; split; auto. right. now right. }
      split; [exact D|]. split.
      { intros c [<-|Hc] Hn; [|now apply E].
        apply A. apply Hsn in E2. apply in_map_iff in E2 as [y [Ey Hy]].
        rewrite <- Ey. apply in_map. now apply D. }
      intros [|x l1] c l2 Eq Hn Hs Hfirst; inversion Eq; subst; [contradiction|].
      apply (F l1 c l2); auto. intros y Hy. apply Hfirst. now right.
    + apply has_false in E1. apply has_false in E2.
      destruct (IH ({[f_url c0]} ∪ sn) (nf ++ [c0])) as [A [B [C [D [E F]]]]].
      { intros u. rewrite elem_of_union, elem_of_singleton, map_app, in_app_iff, Hsn.
        cbn. intuition. }
      { rewrite map_app. apply NoDup_app. split; [exact Hnd|]. split.
        - intros u Hu Hu'. apply list_elem_of_In in Hu. cbn in Hu'.
          apply list_elem_of_singleton in Hu'. subst u. apply E2. now apply Hsn.
        - apply NoDup_singleton. }
      { intros c Hc. apply in_app_iff in Hc as [Hc|[<-|[]]]; [now apply Hseen | exact E1]. }
      split; [exact A|]. split; [exact B|]. split.
      { intros c Hc. destruct (C c Hc) as [C1 [C2|C2]]; split; auto.
        - apply in_app_iff in C2 as [C2|[<-|[]]]; [now left | right; now left].
        - right. now right. }
      split; [intros c Hc; apply D, in_app_iff; now left|]. split.
      { intros c [<-|Hc] Hn; [|now apply E].
        apply A. apply in_map. apply D. apply in_app_iff. right. now left. }
      intros [|x l1] c l2 Eq Hn Hs Hfirst; inversion Eq; subst.
      * apply D. apply in_app_iff. right. now left.
      * apply (F l1 c l2); auto.
        -- rewrite elem_of_union, elem_of_singleton. intros [Hc|Hc]; [|contradiction].
           apply (Hfirst x); [now left | now symmetry].
        -- intros y Hy. apply Hfirst. now right.
Qed.

End NextFrontier.

(** The next frontier holds each unvisited candidate URL once: its entries
    are candidates whose URL is not visited, no two share a URL, every
    unvisited candidate URL is among them, and the entry kept for a URL is
    the first candidate that carries it. *)
Theorem next_frontier_first_listing_wins (seen : gset string) (cands : list FrontierEntry) :
  let nf := nextFrontierOf seen cands in
  NoDup (map f_url nf) /\
  (forall c, In c nf -> In c cands /\ f_url c ∉ seen) /\
  (forall c, In c cands -> f_url c ∉ seen -> In (f_url c) (map f_url nf)) /\
  (forall l1 c l2,
      cands = l1 ++ c :: l2 -> f_url c ∉ seen ->
      (forall x, In x l1 -> f_url x <> f_url c) -> In c nf).
Proof.
  cbn. unfold nextFrontierOf.
  destruct (nextFrontier_fold_spec seen cands ∅ []) as [A [B [C [_ [E F]]]]].
  - intros u. cbn. split; [intros Hu; now apply not_elem_of_empty in Hu | tauto].
  - constructor.
  - intros c [].
  - split; [exact B|]. split.
    + intros c Hc. destruct (C c Hc) as [C1 [[]|C2]]. now split.
    + split.
      * intros c Hc Hn. apply A. now apply E.
      * intros l1 c l2 Eq Hn Hfirst. apply (F l1 c l2); auto. apply not_elem_of_empty.
Qed.

(** ** Chunks only group the dispatches *)

Section ChunkFacts.
Context `{Platform}.
Variables (browser : nat -> string -> PageLoad) (shotPath : string -> option string).
Variables (so : bool) (md : Z) (d : bool) (t : Z).

(** Whatever the chunk size, the results of a layer are merged one by one
    in the order of [toVisit]. *)
Lemma chunkLoop_flat c toVisit rounds i clock acc :
  (1 <= c)%nat -> (length toVisit - i <= rounds)%nat ->
  chunkLoop browser shotPath rounds so md c d t toVisit i clock acc =
  (fold_left (mergeResult so md) (dispatch browser shotPath d t clock (skipn i toVisit)) acc,
   (clock + length (skipn i toVisit))%nat).
Proof.
  intros Hc. revert i clock acc.
  induction rounds as [|n IH]; intros i clock acc Hr; cbn [chunkLoop].
  - rewrite skipn_all2 by lia. cbn. now rewrite Nat.add_0_r.
  - destruct (i <? length toVisit)%nat eqn:Ei.
    + apply Nat.ltb_lt in Ei. rewrite IH by lia.
      assert (E : skipn i toVisit = firstn c (skipn i toVisit) ++ skipn (i + c) toVisit).
      { rewrite <- (firstn_skipn c (skipn i toVisit)) at 1. f_equal.
        rewrite skipn_skipn. f_equal. lia. }
      set (chunk := firstn c (skipn i toVisit)) in *.
      set (rest := skipn (i + c) toVisit) in *.
      rewrite E, dispatch_app, fold_left_app, length_app. f_equal. lia.
    + apply Nat.ltb_ge in Ei. rewrite skipn_all2 by lia. cbn. now rewrite Nat.add_0_r.
Qed.

Lemma layerLoop_any_chunk c1 c2 layers mp depth frontier clock st :
  (1 <= c1)%nat -> (1 <= c2)%nat ->
  layerLoop browser shotPath layers so md mp c1 d t depth frontier clock st =
  layerLoop browser shotPath layers so md mp c2 d t depth frontier clock st.
Proof.
  intros H1 H2. revert depth frontier clock st.
  induction layers as [|n IH]; intros depth frontier clock st; cbn [layerLoop]; [reflexivity|].
  destruct ((depth <=? md)%Z && (0 <? length frontier)%nat && (pagesLen st <? mp)%Z);
    [|reflexivity].
  destruct (length (List.filter (fun f => (f_depth f =? depth)%Z) frontier) =? 0)%nat;
    [apply IH|].
  rewrite !chunkLoop_flat by (try assumption; lia).
  destruct (fold_left (mergeResult so md) _ (st, [])) as [st' cands]. apply IH.
Qed.

End ChunkFacts.

(** The result of a crawl is the same for any two integer values of the
    [concurrency] option (or none): the visits of a layer are dispatched in
    the order of the frontier and their results are merged in that order,
    chunk by chunk. *)
Theorem crawl_result_ignores_concurrency `{Platform}
    (browser : nat -> string -> PageLoad) (shotPath : string -> option string)
    (seeds : list string) (maxDepth maxPages : option Z) (sameOrigin : option bool)
    (delayMs : option Z) (discover : option bool) (transitionsPerPage : option Z)
    (c1 c2 : option Z) :
  crawl browser shotPath
        (mkCrawlOptions seeds maxDepth maxPages sameOrigin delayMs c1 discover
                        transitionsPerPage) =
  crawl browser shotPath
        (mkCrawlOptions seeds maxDepth maxPages sameOrigin delayMs c2 discover
                        transitionsPerPage).
Proof.
  unfold crawl, crawlState.
  cbn [optMaxDepth optMaxPages optSameOrigin optDiscover optTransitionsPerPage o_seeds
       o_maxDepth o_maxPages o_sameOrigin o_discoverTransitions o_transitionsPerPage].
  rewrite (layerLoop_any_chunk browser shotPath _ _ _ _
             (Z.to_nat (optConcurrency (mkCrawlOptions seeds maxDepth maxPages sameOrigin
                                          delayMs c1 discover transitionsPerPage)))
             (Z.to_nat (optConcurrency (mkCrawlOptions seeds maxDepth maxPages sameOrigin
                                          delayMs c2 discover transitionsPerPage))));
    [reflexivity | |]; unfold optConcurrency; lia.
Qed.

(** ** Transition edges and their nodes *)

Section AnchorFacts.
Context `{Platform}.
Variables (browser : nat -> string -> PageLoad) (shotPath : string -> option string).

Lemma anchored_mergePage so st input res :
  transitionsAnchored st -> transitionsAnchored (fst (mergePage so st input res)).
Proof.
  intros Ha k e He Ht.
  assert (Hvis : forall x, x ∈ visited st -> x ∈ visited (fst (mergePage so st input res))).
  { intros x Hx. rewrite mergePage_spec. cbn [fst visited]. apply elem_of_union. now right. }
  assert (Hkeep : forall x, alookup x (actionGraph st) <> None ->
                            alookup x (actionGraph (fst (mergePage so st input res))) <> None).
  { intros x. apply (proj1 (mergePage_grows so st input res x)). }
  destruct (mergePage_grows so st input res k) as [_ [_ [extra [E F]]]].
  rewrite E in He. apply in_app_iff in He as [He|He].
  - destruct (Ha k e He Ht) as [Hk [Hl [Hto Hn]]]. repeat split; auto.
  - rewrite Forall_forall in F. apply list_elem_of_In in He.
    destruct (F e He) as [[-> Hin]|Hp].
    + apply filteredEdges_In in Hin as [Hin _]. unfold allEdges in Hin.
      apply in_app_iff in Hin as [Hin|Hin];
        [now apply scannedEdges_types in Hin|].
      apply transEdges_In in Hin as [tr [Htr [Hl ->]]]. cbn [e_label e_to].
      split; [rewrite mergePage_spec; cbn [fst visited]; apply elem_of_union; left;
              now apply elem_of_singleton|].
      split; [now apply truthy_true|]. split; [reflexivity|].
      now apply (mergePage_pushes so st input res tr).
    + apply pushedBy_synthetic, synthetic_not_transition in Hp. contradiction.
Qed.

Lemma crawlState_anchored o : transitionsAnchored (crawlState browser shotPath o).
Proof.
  unfold crawlState.
  apply (layerLoop_inv browser shotPath _ _ _ _ transitionsAnchored (fun _ => True)).
  - intros st input res HP _ _ _. now apply anchored_mergePage.
  - trivial.
  - intros k e [].
Qed.

End AnchorFacts.

(** In the result of every crawl, a transition edge is found only under a
    recorded page; its label is non-empty, it leads to that page's
    transition node for the label, and that node has an [actionGraph] entry of
    its own: no transition edge dangles. *)
Theorem crawl_transition_edges_anchored `{Platform}
    (browser : nat -> string -> PageLoad) (shotPath : string -> option string)
    (o : CrawlOptions) (k : string) (e : Edge) :
  let r := crawl browser shotPath o in
  In e (entry k (r_actionGraph r)) -> e_type e = ETransition ->
  In k (map p_url (r_pages r)) /\ e_label e <> "" /\
  e_to e = transNodeId k (e_label e) /\
  alookup (e_to e) (r_actionGraph r) <> None.
Proof.
  cbn. intros He Ht.
  destruct (crawlState_anchored browser shotPath o k e He Ht) as [Hk [Hl [Hto Hn]]].
  destruct (crawlState_claimedOnce browser shotPath o) as [_ Hv].
  repeat split; auto. now apply Hv.
Qed.

Lemma crawl_transition_edges_anchored_witness :
  In "https://example.com/a"
     (map p_url (r_pages (crawl Demo.browser Demo.shotPath Demo.options))) /\
  "Menu" <> "" /\
  "https://example.com/a::TRANS::Menu" = transNodeId "https://example.com/a" "Menu" /\
  alookup "https://example.com/a::TRANS::Menu"
          (r_actionGraph (crawl Demo.browser Demo.shotPath Demo.options)) <> None.
Proof.
  apply (crawl_transition_edges_anchored Demo.browser Demo.shotPath Demo.options
           "https://example.com/a"
           (mkEdge "https://example.com/a::TRANS::Menu" "Menu" ETransition None)).
  - vm_compute. do 2 right. left. reflexivity.
  - reflexivity.
Defined.

(** ** What stands under the synthetic nodes *)

Section ShapeFacts.
Context `{Platform}.
Variables (browser : nat -> string -> PageLoad) (shotPath : string -> option string).

Lemma pushedBy_shape n scanned trs k e : pushedBy n scanned trs k e -> syntheticShape k e.
Proof.
  intros [tr [opt [_ [Ht [_ [Ho Hp]]]]]]. apply truthy_true in Ht, Ho.
  exists n, (vt_triggerLabel tr), opt. split; [exact Ht|]. split; [exact Ho|].
  destruct Hp as [[-> ->]|[-> ->]]; [now left|]. right. split; [reflexivity|].
  unfold optionTarget. destruct (find (navMatches opt) scanned) as [m|] eqn:Ef; [|now left].
  right. apply find_some in Ef as [_ Hm]. unfold navMatches in Hm.
  apply andb_true_iff in Hm as [Hm Hlow]. apply andb_true_iff in Hm as [_ Hl].
  apply String.eqb_eq in Hlow. cbn [e_type e_options e_label].
  unfold orElse. rewrite Hl. apply truthy_true in Hl. now repeat split.
Qed.

Lemma syntheticOnly_mergePage so st input res :
  syntheticOnly st -> syntheticOnly (fst (mergePage so st input res)).
Proof.
  intros Hs k e He.
  assert (Hvis : forall x, x ∈ visited st -> x ∈ visited (fst (mergePage so st input res))).
  { intros x Hx. rewrite mergePage_spec. cbn [fst visited]. apply elem_of_union. now right. }
  destruct (mergePage_grows so st input res k) as [_ [_ [extra [E F]]]].
  rewrite E in He. apply in_app_iff in He as [He|He].
  - destruct (Hs k e He) as [Hk|Hsh]; [left; now apply Hvis | now right].
  - rewrite Forall_forall in F. apply list_elem_of_In in He.
    destruct (F e He) as [[-> _]|Hp]; [|right; now apply pushedBy_shape in Hp].
    left. rewrite mergePage_spec. cbn [fst visited]. apply elem_of_union. left.
    now apply elem_of_singleton.
Qed.

Lemma crawlState_syntheticOnly o : syntheticOnly (crawlState browser shotPath o).
Proof.
  unfold crawlState.
  apply (layerLoop_inv browser shotPath _ _ _ _ syntheticOnly (fun _ => True)).
  - intros st input res HP _ _ _. now apply syntheticOnly_mergePage.
  - trivial.
  - intros k e [].
Qed.

End ShapeFacts.

(** In the result of every crawl, an edge under a key that is not a
    recorded page is under a transition node or an option node: under a
    transition node it is a click edge to one of the node's option nodes,
    labelled with the option; under an option node it is a click edge back to
    the page, or a navigate edge whose label is the option up to case.  All
    trigger and option labels involved are non-empty. *)
Theorem crawl_synthetic_entries_shaped `{Platform}
    (browser : nat -> string -> PageLoad) (shotPath : string -> option string)
    (o : CrawlOptions) (k : string) (e : Edge) :
  let r := crawl browser shotPath o in
  In e (entry k (r_actionGraph r)) -> ~ In k (map p_url (r_pages r)) ->
  syntheticShape k e.
Proof.
  cbn. intros He Hk.
  destruct (crawlState_syntheticOnly browser shotPath o k e He) as [Hv|Hs]; [|exact Hs].
  destruct (crawlState_claimedOnce browser shotPath o) as [_ Hiff].
  exfalso. apply Hk. now apply Hiff.
Qed.

Lemma crawl_synthetic_entries_shaped_witness :
  syntheticShape "https://example.com/a::TRANS::Menu::OPT::docs"
                 (mkEdge "https://example.com/docs" "Docs" ENavigate None).
Proof.
  apply (crawl_synthetic_entries_shaped Demo.browser Demo.shotPath Demo.options).
  - vm_compute. left. reflexivity.
  - vm_compute. intros [Hc|[Hc|[]]]; discriminate.
Defined.

(** ** The transition prober: sizes and label deltas *)

Lemma inList_In x l : inList x l = true <-> In x l.
Proof.
  unfold inList. rewrite existsb_exists. split.
  - intros [y [Hy E]]. apply String.eqb_eq in E. now subst.
  - intros Hx. exists x. split; [exact Hx | apply String.eqb_refl].
Qed.

Lemma filter_length_le {A} (f : A -> bool) (l : list A) :
  (length (List.filter f l) <= length l)%nat.
Proof.
  induction l as [|x l IH]; cbn; [lia|]. destruct (f x); cbn; lia.
Qed.

Lemma uniq_length_le l : (length (uniq l) <= length l)%nat.
Proof.
  induction l as [|x l IH]; cbn [uniq length]; [lia|].
  pose proof (filter_length_le (fun y => negb (y =? x)) (uniq l)). lia.
Qed.

Lemma NoDup_filter_keep (f : string -> bool) (l : list string) :
  NoDup l -> NoDup (List.filter f l).
Proof. intros Hl. apply NoDup_ListNoDup, List.NoDup_filter. now apply NoDup_ListNoDup. Qed.

Lemma collectSel_length els labels :
  (length labels < 40)%nat -> (length (collectSel els labels) <= 40)%nat.
Proof.
  revert labels. induction els as [|el l IH]; intros labels Hl; cbn [collectSel]; [lia|].
  destruct (se_shown el); cbn [negb]; [|now apply IH].
  destruct (truthy (se_label el)); cbn [negb]; [|now apply IH].
  destruct (40 <=? length (labels ++ [se_label el]))%nat eqn:E.
  - rewrite length_app. cbn. lia.
  - apply Nat.leb_gt in E. now apply IH.
Qed.

Lemma collectAll_length root labels :
  (length labels < 40)%nat -> (length (collectAll root labels) <= 40)%nat.
Proof.
  revert labels. induction root as [|els l IH]; intros labels Hl; cbn [collectAll]; [lia|].
  pose proof (collectSel_length els labels Hl) as Hs.
  destruct (40 <=? length (collectSel els labels))%nat eqn:E; [exact Hs|].
  apply Nat.leb_gt in E. now apply IH.
Qed.

Lemma collectScopedLabels_length scope : (length (collectScopedLabels scope) <= 40)%nat.
Proof.
  destruct scope as [root|]; cbn; [|lia]. unfold collect.
  pose proof (uniq_length_le (collectAll root [])).
  pose proof (collectAll_length root []). cbn in *. lia.
Qed.

Lemma collectScopedLabels_NoDup scope : NoDup (collectScopedLabels scope).
Proof.
  destruct scope as [root|]; cbn; [apply uniq_NoDup | constructor].
Qed.

Lemma pickTriggers_length limit nodes out :
  (Z.of_nat (length out) < Z.max 1 limit)%Z ->
  (Z.of_nat (length (pickTriggers limit nodes out)) <= Z.max 1 limit)%Z.
Proof.
  revert out. induction nodes as [|el l IH]; intros out Ho; cbn [pickTriggers]; [lia|].
  destruct (te_visible el); cbn [negb]; [|now apply IH].
  destruct (truthy (te_label el)); cbn [negb]; [|now apply IH].
  destruct (limit <=? Z.of_nat (length (out ++ [el])))%Z eqn:E.
  - rewrite length_app. cbn. lia.
  - apply Z.leb_gt in E. apply IH. lia.
Qed.

Lemma omap_length_le {A B} (f : A -> option B) (l : list A) :
  (length (omap f l) <= length l)%nat.
Proof.
  induction l as [|x l IH]; cbn; [lia|]. destruct (f x); cbn; lia.
Qed.

(** For an integer limit, the prober reports at most [max(1, maxTriggers)]
    transitions: the limit is tested after a trigger has been taken, so a
    limit of zero or less still lets one trigger through. *)
Theorem discoverTransitions_count_capped (nodes : list TriggerEl) (maxTriggers : Z) :
  (Z.of_nat (length (discoverTransitions nodes maxTriggers)) <= Z.max 1 maxTriggers)%Z.
Proof.
  unfold discoverTransitions.
  pose proof (omap_length_le probeTrigger (pickTriggers maxTriggers nodes [])).
  pose proof (pickTriggers_length maxTriggers nodes []). cbn in *. lia.
Qed.

Lemma pickTriggers_skip limit skipped rest out :
  Forall (fun c => te_visible c = false \/ te_label c = "") skipped ->
  pickTriggers limit (skipped ++ rest) out = pickTriggers limit rest out.
Proof.
  induction 1 as [|c l Hc _ IH]; cbn [app pickTriggers]; [reflexivity|].
  destruct Hc as [Hc|Hc]; rewrite Hc; cbn [negb]; [exact IH|].
  destruct (te_visible c); exact IH.
Qed.

(** With a limit of one or less (zero and negative limits included) the
    scan takes exactly one trigger: the first candidate that is visible and
    labelled, whatever stands before or after it.  The prober reports the
    transition of that trigger when its handle is found, and nothing when it
    is not: later candidates are not tried. *)
Theorem discoverTransitions_probes_first_trigger
    (skipped : list TriggerEl) (el : TriggerEl) (rest : list TriggerEl) (maxTriggers : Z) :
  (maxTriggers <= 1)%Z ->
  Forall (fun c => te_visible c = false \/ te_label c = "") skipped ->
  te_visible el = true -> te_label el <> "" ->
  pickTriggers maxTriggers (skipped ++ el :: rest) [] = [el] /\
  (te_handle el = true ->
   exists tr, discoverTransitions (skipped ++ el :: rest) maxTriggers = [tr] /\
              t_triggerLabel tr = te_label el /\ t_triggerSelector tr = te_selector el) /\
  (te_handle el = false -> discoverTransitions (skipped ++ el :: rest) maxTriggers = []).
Proof.
  intros Hn Hs Hv Hl. apply truthy_true in Hl.
  assert (Hpick : pickTriggers maxTriggers (skipped ++ el :: rest) [] = [el]).
  { rewrite pickTriggers_skip by assumption. cbn [pickTriggers].
    rewrite Hv, Hl. cbn [negb app length].
    destruct (maxTriggers <=? Z.of_nat 1)%Z eqn:E; [reflexivity|].
    apply Z.leb_gt in E. lia. }
  split; [exact Hpick|]. unfold discoverTransitions. rewrite Hpick.
  split; intros Hh.
  - destruct (probeTrigger el) as [tr|] eqn:Ep.
    + exists tr. split; [cbn; now rewrite Ep|].
      unfold probeTrigger in Ep. rewrite Hh in Ep. cbn [negb] in Ep.
      injection Ep as <-. now split.
    + unfold probeTrigger in Ep. rewrite Hh in Ep. discriminate.
  - destruct (probeTrigger el) as [tr|] eqn:Ep; [|cbn; now rewrite Ep].
    unfold probeTrigger in Ep. rewrite Hh in Ep. discriminate.
Qed.

Lemma discoverTransitions_probes_first_trigger_witness :
  exists tr,
    discoverTransitions
      ([mkTriggerEl false "Hidden" "#h" true None None; mkTriggerEl true "" "#e" true None None]
       ++ mkTriggerEl true "Menu" "#m" true (Some [[mkScopeEl true "Home"]])
                      (Some [[mkScopeEl true "Home"; mkScopeEl true "Logout"]])
       :: [mkTriggerEl true "More" "#x" true None None]) 0 = [tr] /\
    t_triggerLabel tr = "Menu" /\ t_triggerSelector tr = "#m".
Proof.
  refine (proj1 (proj2 (discoverTransitions_probes_first_trigger
                          [mkTriggerEl false "Hidden" "#h" true None None;
                           mkTriggerEl true "" "#e" true None None]
                          (mkTriggerEl true "Menu" "#m" true (Some [[mkScopeEl true "Home"]])
                             (Some [[mkScopeEl true "Home"; mkScopeEl true "Logout"]]))
                          [mkTriggerEl true "More" "#x" true None None] 0 _ _ _ _)) _).
  - lia.
  - constructor; [now left | constructor; [now right | constructor]].
  - reflexivity.
  - discriminate.
  - reflexivity.
Defined.

Lemma probeTrigger_sizes el tr :
  probeTrigger el = Some tr ->
  (length (t_actions tr) <= 40)%nat /\
  (length (t_added tr) <= 40)%nat /\ (length (t_removed tr) <= 40)%nat.
Proof.
  unfold probeTrigger. destruct (te_handle el); cbn [negb]; [|discriminate].
  intros [= <-]. cbn [t_added t_removed t_actions]. rewrite length_map.
  pose proof (collectScopedLabels_length (te_pre el)).
  pose proof (collectScopedLabels_length (te_post el)).
  pose proof (filter_length_le
                (fun l => negb (inList l (collectScopedLabels (te_pre el))))
                (collectScopedLabels (te_post el))).
  pose proof (filter_length_le
                (fun l => negb (inList l (collectScopedLabels (te_post el))))
                (collectScopedLabels (te_pre el))).
  lia.
Qed.

(** For every reported transition: [added] and [removed] have no repeated
    label and share none; every added label is the label of one of the
    transition's actions (the labels seen after the click), and no removed
    label is; there are at most 40 actions, added and removed labels. *)
Theorem discoverTransitions_delta_consistent
    (nodes : list TriggerEl) (maxTriggers : Z) (tr : Transition) :
  In tr (discoverTransitions nodes maxTriggers) ->
  NoDup (t_added tr) /\ NoDup (t_removed tr) /\
  (forall l, In l (t_added tr) ->
             In l (map a_label (t_actions tr)) /\ ~ In l (t_removed tr)) /\
  (forall l, In l (t_removed tr) -> ~ In l (map a_label (t_actions tr))) /\
  (length (t_actions tr) <= 40)%nat /\
  (length (t_added tr) <= 40)%nat /\ (length (t_removed tr) <= 40)%nat.
Proof.
  unfold discoverTransitions. intros Hin. apply list_elem_of_In in Hin.
  apply list_elem_of_omap in Hin as [el [_ Hp]].
  pose proof (probeTrigger_sizes el tr Hp) as Hsz.
  unfold probeTrigger in Hp.
  destruct (te_handle el); cbn [negb] in Hp; [|discriminate].
  injection Hp as <-. cbn [t_added t_removed t_actions] in *.
  set (pre := collectScopedLabels (te_pre el)) in *.
  set (post := collectScopedLabels (te_post el)) in *.
  assert (Hmap : map a_label (map (fun l => mkAction Click l None "" None) post) = post).
  { rewrite map_map. cbn. apply map_id. }
  rewrite Hmap.
  split; [apply NoDup_filter_keep, collectScopedLabels_NoDup|].
  split; [apply NoDup_filter_keep, collectScopedLabels_NoDup|].
  split; [|split; [|exact Hsz]].
  - intros l Hl. apply filter_In in Hl as [Hpost Hn]. split; [exact Hpost|].
    intros Hr. apply filter_In in Hr as [_ Hr].
    apply negb_true_iff in Hr. apply (proj2 (inList_In l post)) in Hpost. congruence.
  - intros l Hl Hpost. apply filter_In in Hl as [_ Hr].
    apply negb_true_iff in Hr. apply (proj2 (inList_In l post)) in Hpost. congruence.
Qed.

Lemma discoverTransitions_delta_consistent_witness :
  NoDup ["docs"; "Logout"] /\ NoDup (@nil string) /\
  (forall l, In l ["docs"; "Logout"] ->
             In l (map a_label (map (fun l => mkAction Click l None "" None)
                                    ["Home"; "docs"; "Logout"])) /\ ~ In l []) /\
  (forall l, In l [] -> ~ In l (map a_label (map (fun l => mkAction Click l None "" None)
                                                 ["Home"; "docs"; "Logout"]))) /\
  (3 <= 40)%nat /\ (2 <= 40)%nat /\ (0 <= 40)%nat.
Proof.
  apply (discoverTransitions_delta_consistent
           [mkTriggerEl true "Menu" "#m" true
              (Some [[Demo.shown "Home"]])
              (Some [[Demo.shown "Home"; Demo.shown "docs"; Demo.shown "Logout"]])]
           12
           (mkTransition "Menu" "#m"
              (map (fun l => mkAction Click l None "" None) ["Home"; "docs"; "Logout"])
              ["docs"; "Logout"] [])).
  left. reflexivity.
Defined.

(** ** What one visit can add to the graph *)

Lemma combinedOptions_length tr :
  (length (vt_added tr) <= 40)%nat -> (length (vt_removed tr) <= 40)%nat ->
  (length (combinedOptions tr) <= 40)%nat.
Proof.
  intros Ha Hr. unfold combinedOptions.
  pose proof (uniq_length_le
                (vt_added tr ++ (if (0 <? length (vt_added tr))%nat then [] else vt_removed tr)))
    as Hu.
  rewrite length_app in Hu.
  destruct (0 <? length (vt_added tr))%nat eqn:E; cbn [length] in Hu; [lia|].
  apply Nat.ltb_ge in E. lia.
Qed.

(** A visit dispatched by [crawl] returns at most 50 transitions, whatever
    integer [transitionsPerPage] was asked for (or none), and each of them
    offers at most 40 options: one page adds at most 50 transition nodes with
    at most 40 option nodes each. *)
Theorem visit_transitions_bounded `{Platform}
    (shotPath : string -> option string) (load : PageLoad) (url : string)
    (discover : bool) (o : CrawlOptions) (res : VisitRes) :
  visit shotPath load url discover (optTransitionsPerPage o) = Some res ->
  (length (v_transitions res) <= 50)%nat /\
  Forall (fun tr => (length (combinedOptions tr) <= 40)%nat) (v_transitions res).
Proof.
  unfold visit. destruct load as [|cur title items probe]; [discriminate|].
  intros [= <-]. cbn [v_transitions].
  destruct discover; [|split; [cbn; lia | constructor]].
  destruct probe as [nodes|]; [|split; [cbn; lia | constructor]].
  split.
  - rewrite length_map. unfold discoverTransitions.
    pose proof (omap_length_le probeTrigger
                  (pickTriggers (optTransitionsPerPage o) nodes [])).
    pose proof (pickTriggers_length (optTransitionsPerPage o) nodes []).
    unfold optTransitionsPerPage in *. cbn in *. lia.
  - apply Forall_forall. intros tr Htr. apply list_elem_of_In in Htr.
    apply in_map_iff in Htr as [dt [<- Hd]]. unfold discoverTransitions in Hd.
    apply list_elem_of_In, list_elem_of_omap in Hd as [el [_ Hp]].
    destruct (probeTrigger_sizes el dt Hp) as [_ [La Lr]].
    now apply combinedOptions_length.
Qed.

Lemma visit_transitions_bounded_witness :
  (length (v_transitions Demo.seedRes) <= 50)%nat /\
  Forall (fun tr => (length (combinedOptions tr) <= 40)%nat) (v_transitions Demo.seedRes).
Proof.
  apply (visit_transitions_bounded Demo.shotPath Demo.pageA "https://example.com/a" true
           Demo.options Demo.seedRes).
  reflexivity.
Defined.

(** ** Node identifiers and the JSONL export *)

Module NodeIdFacts.

#[local] Arguments String.append !s1 s2 : simpl nomatch.

Lemma index_cons m c s :
  index 0 m (String c s) =
  if String.prefix m (String c s) then Some 0%nat
  else match index 0 m s with Some n => Some (S n) | None => None end.
Proof. reflexivity. Qed.

Lemma includes_false s m : includes s m = false <-> index 0 m s = None.
Proof.
  unfold includes, indexOf. destruct (index 0 m s); split; congruence.
Qed.

Lemma prefix_app_self m r : String.prefix m (m +:+ r) = true.
Proof.
  induction m as [|a m IH]; [now destruct r|]. cbn.
  destruct (ascii_dec a a); [exact IH | contradiction].
Qed.

Lemma prefix_app_l p a b : String.prefix p a = true -> String.prefix p (a +:+ b) = true.
Proof.
  revert a. induction p as [|x p IH]; intros a Hp; [now destruct (a +:+ b)|].
  destruct a as [|y a]; [discriminate|]. cbn in *.
  destruct (ascii_dec x y); [now apply IH | discriminate].
Qed.

Lemma prefix_extend p q s : String.prefix (p +:+ q) s = true -> String.prefix p s = true.
Proof.
  revert s. induction p as [|x p IH]; intros s Hp; [now destruct s|].
  destruct s as [|y s]; [discriminate|]. cbn in *.
  destruct (ascii_dec x y); [now apply IH | discriminate].
Qed.

Lemma index_self m r : index 0 m (m +:+ r) = Some 0%nat.
Proof.
  destruct (m +:+ r) as [|c s] eqn:E.
  - destruct m; [reflexivity | discriminate].
  - rewrite index_cons, <- E, prefix_app_self. reflexivity.
Qed.

(** A text that does not contain [p] does not contain [p +:+ q]. *)
Lemma index_None_extend p q s : index 0 p s = None -> index 0 (p +:+ q) s = None.
Proof.
  induction s as [|c s IH]; intros Hs.
  - destruct p; [discriminate | reflexivity].
  - rewrite index_cons in *.
    destruct (String.prefix p (String c s)) eqn:Ep; [discriminate|].
    destruct (String.prefix (p +:+ q) (String c s)) eqn:Epq.
    + apply prefix_extend in Epq. congruence.
    + destruct (index 0 p s); [discriminate|]. now rewrite IH.
Qed.

Lemma index_None_tail m c s : index 0 m (String c s) = None -> index 0 m s = None.
Proof.
  rewrite index_cons. destruct (String.prefix m (String c s)); [discriminate|].
  now destruct (index 0 m s).
Qed.

Lemma index_None_app_r m a b : index 0 m (a +:+ b) = None -> index 0 m b = None.
Proof.
  induction a as [|c a IH]; intros Hi; [exact Hi|].
  apply IH. cbn in Hi. now apply index_None_tail in Hi.
Qed.

Lemma index_None_app_l m a b : m <> "" -> index 0 m (a +:+ b) = None -> index 0 m a = None.
Proof.
  intros Hm. induction a as [|c a IH]; intros Hi.
  - destruct m; [contradiction | reflexivity].
  - cbn [String.append] in Hi. rewrite index_cons in Hi. rewrite index_cons.
    destruct (String.prefix m (String c (a +:+ b))) eqn:Ep; [discriminate|].
    destruct (String.prefix m (String c a)) eqn:Ea.
    + apply (prefix_app_l _ _ b) in Ea. cbn [String.append] in Ea. congruence.
    + destruct (index 0 m (a +:+ b)); [discriminate|]. now rewrite IH.
Qed.

Lemma sliceFrom_app a b : sliceFrom (String.length a) (a +:+ b) = b.
Proof.
  unfold sliceFrom. induction a as [|c a IH]; cbn.
  - rewrite Nat.sub_0_r. induction b as [|x b IHb]; cbn; [reflexivity | now rewrite IHb].
  - exact IH.
Qed.

Lemma sliceTo_app a b : sliceTo (String.length a) (a +:+ b) = a.
Proof.
  unfold sliceTo. induction a as [|c a IH]; cbn.
  - now destruct b.
  - now rewrite IH.
Qed.

Lemma append_assoc' (a b c : string) : (a +:+ b) +:+ c = a +:+ (b +:+ c).
Proof. induction a as [|x a IH]; cbn; [reflexivity | now rewrite IH]. Qed.

Lemma length_append (a b : string) :
  String.length (a +:+ b) = (String.length a + String.length b)%nat.
Proof. induction a as [|x a IH]; cbn; [reflexivity | now rewrite IH]. Qed.

Ltac split_chars :=
  repeat match goal with
         | H : context [ascii_dec ?x ?y] |- _ =>
             destruct (ascii_dec x y); try discriminate; subst
         | |- context [ascii_dec ?x ?y] =>
             destruct (ascii_dec x y); try discriminate; subst
         end;
  try reflexivity; try discriminate.

(** Where the page URL does not contain the text [::TRANS], the marker the
    crawler appends is the first one. *)
Lemma prefix_trans_fresh c a r :
  String.prefix "::TRANS" (String c a) = false ->
  String.prefix "::TRANS::" (String c (a +:+ "::TRANS::" +:+ r)) = false.
Proof.
  intros Hp.
  destruct a as [|c1 [|c2 [|c3 [|c4 [|c5 [|c6 a']]]]]];
    cbn [String.prefix String.append] in *; split_chars;
    destruct a'; discriminate.
Qed.

Lemma prefix_opt_fresh c a r :
  String.prefix "::OPT" (String c a) = false ->
  String.prefix "::OPT::" (String c (a +:+ "::OPT::" +:+ r)) = false.
Proof.
  intros Hp.
  destruct a as [|c1 [|c2 [|c3 [|c4 a']]]];
    cbn [String.prefix String.append] in *; split_chars;
    destruct a'; discriminate.
Qed.

Lemma index_trans_marker a r :
  index 0 "::TRANS" a = None ->
  index 0 "::TRANS::" (a +:+ "::TRANS::" +:+ r) = Some (String.length a).
Proof.
  induction a as [|c a IH]; intros Hi.
  - apply (index_self "::TRANS::" r).
  - change (String c a +:+ "::TRANS::" +:+ r) with (String c (a +:+ "::TRANS::" +:+ r)).
    change (String.length (String c a)) with (S (String.length a)).
    rewrite index_cons in Hi. rewrite index_cons.
    destruct (String.prefix "::TRANS" (String c a)) eqn:Ep; [discriminate|].
    rewrite (prefix_trans_fresh c a r Ep), IH; [reflexivity|].
    now destruct (index 0 "::TRANS" a).
Qed.

Lemma index_opt_marker a r :
  index 0 "::OPT" a = None ->
  index 0 "::OPT::" (a +:+ "::OPT::" +:+ r) = Some (String.length a).
Proof.
  induction a as [|c a IH]; intros Hi.
  - apply (index_self "::OPT::" r).
  - change (String c a +:+ "::OPT::" +:+ r) with (String c (a +:+ "::OPT::" +:+ r)).
    change (String.length (String c a)) with (S (String.length a)).
    rewrite index_cons in Hi. rewrite index_cons.
    destruct (String.prefix "::OPT" (String c a)) eqn:Ep; [discriminate|].
    rewrite (prefix_opt_fresh c a r Ep), IH; [reflexivity|].
    now destruct (index 0 "::OPT" a).
Qed.

Lemma index_opt_none s : index 0 "::OPT" s = None -> index 0 "::OPT::" s = None.
Proof. exact (index_None_extend "::OPT" "::" s). Qed.

End NodeIdFacts.

Section NodeIds.
Import NodeIdFacts.

Lemma sliceFrom_marker (a m c : string) :
  sliceFrom (String.length a + String.length m) (a +:+ m +:+ c) = c.
Proof.
  rewrite <- length_append, <- append_assoc'. apply sliceFrom_app.
Qed.

Lemma trigger_of_transNode (page rest : string) :
  includes page "::TRANS" = false ->
  indexOf (page +:+ "::TRANS::" +:+ rest) "::TRANS::" = Some (String.length page) /\
  sliceFrom (String.length page + String.length "::TRANS::")
            (page +:+ "::TRANS::" +:+ rest) = rest.
Proof.
  intros Hp. apply includes_false in Hp. split.
  - unfold indexOf. now apply index_trans_marker.
  - apply sliceFrom_marker.
Qed.

Lemma parseTrigger_transNode page trigger :
  includes page "::TRANS" = false -> includes trigger "::OPT" = false ->
  parseTriggerFromNode (transNodeId page trigger) = Some trigger.
Proof.
  intros Hp Ht. unfold parseTriggerFromNode, transNodeId.
  destruct (trigger_of_transNode page trigger Hp) as [-> ->].
  apply includes_false in Ht. unfold indexOf.
  now rewrite (index_opt_none trigger Ht).
Qed.

Lemma parseTrigger_optNode page trigger opt :
  includes page "::TRANS" = false -> includes trigger "::OPT" = false ->
  parseTriggerFromNode (optNodeId (transNodeId page trigger) opt) = Some trigger.
Proof.
  intros Hp Ht. unfold parseTriggerFromNode, optNodeId, transNodeId.
  rewrite !append_assoc'.
  destruct (trigger_of_transNode page (trigger +:+ "::OPT::" +:+ opt) Hp) as [-> ->].
  apply includes_false in Ht. unfold indexOf.
  rewrite (index_opt_marker trigger opt Ht). now rewrite sliceTo_app.
Qed.

Lemma parseOption_optNode node opt :
  includes node "::OPT" = false ->
  parseOptionFromNode (optNodeId node opt) = Some opt.
Proof.
  intros Hn. apply includes_false in Hn. unfold parseOptionFromNode, optNodeId, indexOf.
  rewrite (index_opt_marker node opt Hn). now rewrite sliceFrom_marker.
Qed.

Lemma parseOption_plain node :
  includes node "::OPT" = false -> parseOptionFromNode node = None.
Proof.
  intros Hn. apply includes_false in Hn. unfold parseOptionFromNode, indexOf.
  now rewrite (index_opt_none node Hn).
Qed.

Lemma includes_transNode_trigger page trigger :
  includes (transNodeId page trigger) "::OPT" = false -> includes trigger "::OPT" = false.
Proof.
  rewrite !includes_false. unfold transNodeId. intros Hn.
  apply index_None_app_r in Hn. now apply (index_None_app_r _ "::TRANS::") in Hn.
Qed.

End NodeIds.

(** For a page URL that does not contain the text [::TRANS] and a trigger
    label that does not contain [::OPT], [parseTriggerFromNode] gives back
    the trigger from the transition node's identifier and from the
    identifier of each of its option nodes. *)
Theorem parseTriggerFromNode_recovers_trigger (page trigger : string) :
  includes page "::TRANS" = false -> includes trigger "::OPT" = false ->
  parseTriggerFromNode (transNodeId page trigger) = Some trigger /\
  forall opt, parseTriggerFromNode (optNodeId (transNodeId page trigger) opt) = Some trigger.
Proof.
  intros Hp Ht. split; [now apply parseTrigger_transNode|].
  intros opt. now apply parseTrigger_optNode.
Qed.

Lemma parseTriggerFromNode_recovers_trigger_witness :
  parseTriggerFromNode (transNodeId "https://example.com/a" "Menu") = Some "Menu" /\
  forall opt,
    parseTriggerFromNode (optNodeId (transNodeId "https://example.com/a" "Menu") opt) =
    Some "Menu".
Proof.
  apply (parseTriggerFromNode_recovers_trigger "https://example.com/a" "Menu");
    reflexivity.
Defined.

(** For a transition node whose identifier does not contain the text
    [::OPT], [parseOptionFromNode] gives back the option label from the
    identifier of each of its option nodes, and nothing from the transition
    node's own identifier. *)
Theorem parseOptionFromNode_recovers_option (page trigger opt : string) :
  includes (transNodeId page trigger) "::OPT" = false ->
  parseOptionFromNode (optNodeId (transNodeId page trigger) opt) = Some opt /\
  parseOptionFromNode (transNodeId page trigger) = None.
Proof.
  intros Hn. split; [now apply parseOption_optNode | now apply parseOption_plain].
Qed.

Lemma parseOptionFromNode_recovers_option_witness :
  parseOptionFromNode (optNodeId (transNodeId "https://example.com/a" "Menu") "Logout") =
  Some "Logout" /\
  parseOptionFromNode (transNodeId "https://example.com/a" "Menu") = None.
Proof.
  apply (parseOptionFromNode_recovers_option "https://example.com/a" "Menu" "Logout").
  reflexivity.
Defined.

(** In the edges file, a click or navigate edge found under a transition
    node carries that node's trigger and no option, and one found under an
    option node carries the trigger and the option, provided the page URL
    does not contain [::TRANS], the transition node's identifier does not
    contain [::OPT] and both labels are non-empty. *)
Theorem edge_records_carry_trigger_and_option (page trigger opt : string) (e : Edge) :
  includes page "::TRANS" = false ->
  includes (transNodeId page trigger) "::OPT" = false ->
  trigger <> "" -> opt <> "" -> e_type e <> ETransition ->
  let underTrans := edgeRec (transNodeId page trigger) e in
  let underOpt := edgeRec (optNodeId (transNodeId page trigger) opt) e in
  (er_trigger underTrans = Some trigger /\ er_option underTrans = None) /\
  (er_trigger underOpt = Some trigger /\ er_option underOpt = Some opt).
Proof.
  intros Hp Hn Ht Ho He. pose proof (includes_transNode_trigger _ _ Hn) as Htr.
  apply truthy_true in Ht. apply truthy_true in Ho.
  assert (E1 : whenTruthy (parseTriggerFromNode (transNodeId page trigger)) = Some trigger)
    by (rewrite parseTrigger_transNode by assumption; cbn; now rewrite Ht).
  assert (E2 : whenTruthy (parseOptionFromNode (transNodeId page trigger)) = None)
    by (now rewrite parseOption_plain).
  assert (E3 : whenTruthy (parseTriggerFromNode (optNodeId (transNodeId page trigger) opt))
               = Some trigger)
    by (rewrite parseTrigger_optNode by assumption; cbn; now rewrite Ht).
  assert (E4 : whenTruthy (parseOptionFromNode (optNodeId (transNodeId page trigger) opt))
               = Some opt)
    by (rewrite parseOption_optNode by assumption; cbn; now rewrite Ho).
  unfold edgeRec. destruct (e_type e); cbn [er_trigger er_option]; try contradiction;
    now rewrite ?E1, ?E2, ?E3, ?E4.
Qed.

Lemma edge_records_carry_trigger_and_option_witness :
  (er_trigger (edgeRec (transNodeId "https://example.com/a" "Menu")
                       (mkEdge "https://example.com/a" "Logout" EClick None)) = Some "Menu" /\
   er_option (edgeRec (transNodeId "https://example.com/a" "Menu")
                      (mkEdge "https://example.com/a" "Logout" EClick None)) = None) /\
  (er_trigger (edgeRec (optNodeId (transNodeId "https://example.com/a" "Menu") "Logout")
                       (mkEdge "https://example.com/a" "Logout" EClick None)) = Some "Menu" /\
   er_option (edgeRec (optNodeId (transNodeId "https://example.com/a" "Menu") "Logout")
                      (mkEdge "https://example.com/a" "Logout" EClick None)) = Some "Logout").
Proof.
  apply (edge_records_carry_trigger_and_option "https://example.com/a" "Menu" "Logout"
           (mkEdge "https://example.com/a" "Logout" EClick None));
    [reflexivity | reflexivity | discriminate | discriminate | discriminate].
Defined.

(** ** Screenshot file names *)

Module FileNameFacts.
Import NodeIdFacts.

#[local] Arguments String.append !s1 s2 : simpl nomatch.

Lemma underscored_cons a t :
  underscored (String a t) =
  if isFileChar a then String a (underscored t)
  else match t with
       | String b _ => if isFileChar b then String "_" (underscored t) else underscored t
       | EmptyString => "_"
       end.
Proof. reflexivity. Qed.

Lemma underscored_chars s : Forall okChar (list_ascii_of_string (underscored s)).
Proof.
  induction s as [|a t IH]; [constructor|].
  rewrite underscored_cons. destruct (isFileChar a) eqn:Ea.
  - cbn. constructor; [now left | exact IH].
  - destruct t as [|b t']; [repeat constructor; now right|].
    destruct (isFileChar b); [|exact IH].
    cbn [list_ascii_of_string]. constructor; [now right | exact IH].
Qed.

Lemma fileChar_not_underscore a : isFileChar a = true -> a <> "_"%char.
Proof. intros Ha ->. discriminate. Qed.

Lemma prefix_uu a s : a <> "_"%char -> String.prefix "__" (String a s) = false.
Proof.
  intros Ha. cbn [String.prefix].
  destruct (ascii_dec "_" a) as [<-|_]; [contradiction | reflexivity].
Qed.

Lemma prefix_u_uu a s : a <> "_"%char -> String.prefix "__" (String "_" (String a s)) = false.
Proof.
  intros Ha. cbn [String.prefix]. destruct (ascii_dec "_" "_"); [|reflexivity].
  destruct (ascii_dec "_" a) as [<-|_]; [contradiction | reflexivity].
Qed.

Lemma underscored_no_double s : index 0 "__" (underscored s) = None.
Proof.
  induction s as [|a t IH]; [reflexivity|].
  rewrite underscored_cons. destruct (isFileChar a) eqn:Ea.
  - rewrite index_cons, prefix_uu by now apply fileChar_not_underscore.
    now rewrite IH.
  - destruct t as [|b t']; [reflexivity|].
    destruct (isFileChar b) eqn:Eb; [|exact IH].
    rewrite underscored_cons, Eb in IH |- *.
    rewrite index_cons, prefix_u_uu by now apply fileChar_not_underscore.
    now rewrite IH.
Qed.

Lemma prefix_substring m n s :
  String.prefix m (substring 0 n s) = true -> String.prefix m s = true.
Proof.
  revert n s. induction m as [|x m IH]; intros n s Hp; [now destruct s|].
  destruct s as [|y s]; [now destruct n|].
  destruct n as [|n]; [discriminate|]. cbn [String.prefix substring] in *.
  destruct (ascii_dec x y); [now apply (IH n) | discriminate].
Qed.

Lemma index_None_substring m n s :
  m <> "" -> index 0 m s = None -> index 0 m (substring 0 n s) = None.
Proof.
  intros Hm. revert n. induction s as [|c s IH]; intros n Hi.
  - destruct n; destruct m; try congruence; reflexivity.
  - destruct n as [|n]; [destruct m; [congruence | reflexivity]|].
    change (substring 0 (S n) (String c s)) with (String c (substring 0 n s)).
    rewrite index_cons in Hi. rewrite index_cons.
    destruct (String.prefix m (String c s)) eqn:Ep; [discriminate|].
    destruct (String.prefix m (String c (substring 0 n s))) eqn:Eq.
    + apply (prefix_substring m (S n) (String c s)) in Eq. congruence.
    + destruct (index 0 m s); [discriminate|]. now rewrite IH.
Qed.

Lemma substring_chars (P : ascii -> Prop) n s :
  Forall P (list_ascii_of_string s) -> Forall P (list_ascii_of_string (substring 0 n s)).
Proof.
  revert n. induction s as [|c s IH]; intros n Hs; [destruct n; constructor|].
  destruct n as [|n]; [constructor|].
  change (substring 0 (S n) (String c s)) with (String c (substring 0 n s)).
  cbn in *. inversion Hs; subst. constructor; [assumption | now apply IH].
Qed.

Lemma substring_length n s : (String.length (substring 0 n s) <= n)%nat.
Proof.
  revert n. induction s as [|c s IH]; intros n; [destruct n; cbn; lia|].
  destruct n as [|n]; [cbn; lia|].
  change (substring 0 (S n) (String c s)) with (String c (substring 0 n s)).
  cbn. specialize (IH n). lia.
Qed.

Lemma stem_safe s :
  (String.length (sliceTo 200 (underscored s)) <= 200)%nat /\
  Forall okChar (list_ascii_of_string (sliceTo 200 (underscored s))) /\
  includes (sliceTo 200 (underscored s)) "__" = false.
Proof.
  unfold sliceTo. split; [apply substring_length|]. split.
  - apply substring_chars, underscored_chars.
  - apply includes_false. apply index_None_substring; [discriminate|].
    apply underscored_no_double.
Qed.

End FileNameFacts.

(** The screenshot file name of any URL, parsable or not, is a stem of at
    most 200 characters followed by [.png]; the stem holds only letters,
    digits, hyphens and underscores (so no dot and no path separator), and
    never two underscores in a row. *)
Theorem safeFileName_is_safe `{Platform} (url_hostname : URL -> string) (url : string) :
  exists stem,
    safeFileName url_hostname url = stem +:+ ".png" /\
    (String.length stem <= 200)%nat /\
    Forall okChar (list_ascii_of_string stem) /\
    includes stem "__" = false.
Proof.
  unfold safeFileName. destruct (url_parse url) as [u|].
  - exists (sliceTo 200 (underscored (url_hostname u +:+ url_pathname u +:+ url_search u))).
    split; [reflexivity | apply FileNameFacts.stem_safe].
  - exists (sliceTo 200 (underscored url)).
    split; [reflexivity | apply FileNameFacts.stem_safe].
Qed.

(** ** The extractor *)

Section ExtractFacts.

Lemma optsSel_spec label els opts :
  (length opts < 8)%nat ->
  Forall (fun o => o <> "" /\ o <> label) opts ->
  (length (optsSel label els opts) <= 8)%nat /\
  Forall (fun o => o <> "" /\ o <> label) (optsSel label els opts).
Proof.
  revert opts. induction els as [|c l IH]; intros opts Hl Ho; cbn [optsSel];
    [split; [lia | exact Ho]|].
  destruct (ne_visible c); cbn [negb]; [|now apply IH].
  destruct (truthy (ne_label c)) eqn:Et; cbn [negb orb]; [|now apply IH].
  destruct (String.eqb_spec (ne_label c) label) as [E|Hne]; [now apply IH|].
  assert (Ho' : Forall (fun o => o <> "" /\ o <> label) (opts ++ [ne_label c])).
  { apply Forall_app. split; [exact Ho|]. constructor; [|constructor].
    split; [now apply truthy_true | exact Hne]. }
  destruct (8 <=? length (opts ++ [ne_label c]))%nat eqn:E8.
  - split; [rewrite length_app; cbn; lia | exact Ho'].
  - apply Nat.leb_gt in E8. now apply IH.
Qed.

Lemma optsAll_spec label queries opts :
  (length opts < 8)%nat ->
  Forall (fun o => o <> "" /\ o <> label) opts ->
  (length (optsAll label queries opts) <= 8)%nat /\
  Forall (fun o => o <> "" /\ o <> label) (optsAll label queries opts).
Proof.
  revert opts. induction queries as [|els l IH]; intros opts Hl Ho; cbn [optsAll];
    [split; [lia | exact Ho]|].
  destruct (optsSel_spec label els opts Hl Ho) as [Hl' Ho'].
  destruct (8 <=? length (optsSel label els opts))%nat eqn:E8; [now split|].
  apply Nat.leb_gt in E8. now apply IH.
Qed.

Lemma classify_spec el :
  (fst (classify el) = Navigate <-> exists h, snd (classify el) = Some h /\ h <> "") /\
  (fst (classify el) = Toggle -> de_tag el = "label").
Proof.
  unfold classify.
  set (href := if de_tag el =? "a" then attrOrUndefined (de_href el) else None).
  assert (Hh : forall h, href = Some h -> h <> "" /\ de_tag el = "a").
  { subst href. destruct (String.eqb_spec (de_tag el) "a") as [Ea|Ea]; [|discriminate].
    unfold attrOrUndefined. destruct (de_href el) as [x|]; [|discriminate].
    destruct (truthy x) eqn:Et; [|discriminate].
    intros h [= <-]. split; [now apply truthy_true | exact Ea]. }
  cbn [fst snd].
  destruct ((de_tag el =? "label") && truthy (de_htmlFor el)) eqn:El.
  - apply andb_true_iff in El as [El _]. apply String.eqb_eq in El.
    assert (Hn : href = None).
    { destruct href as [h|] eqn:E; [|reflexivity].
      destruct (Hh h eq_refl) as [_ Ha]. rewrite El in Ha. discriminate. }
    rewrite Hn.
    destruct (de_control el) as [[ctag t]|];
      [destruct (ctag =? "input"); [destruct ((t =? "checkbox") || (t =? "radio"))|]|];
      (split; [split; [discriminate | intros [x [Hx _]]; discriminate]|]);
      first [discriminate | now intros _].
  - destruct href as [h|] eqn:E.
    + split; [|discriminate]. split; [|reflexivity].
      intros _. exists h. split; [reflexivity | apply (Hh h eq_refl)].
    + split; [|discriminate]. split; [discriminate | intros [x [Hx _]]; discriminate].
Qed.

Lemma actionOf_label el : a_label (actionOf el) = de_label el.
Proof. unfold actionOf. now destruct (classify el). Qed.

Lemma actionOf_wellFormed el :
  (de_label el <> "" \/ de_tag el = "a") -> wellFormedAction (actionOf el).
Proof.
  intros Hg. pose proof (classify_spec el) as Hc. unfold actionOf, wellFormedAction.
  destruct (classify el) as [type href]. cbn [fst snd] in Hc. destruct Hc as [Hnav Htog].
  destruct (optsAll_spec (de_label el) (de_nearby el) []) as [Hl Ho];
    [cbn; lia | constructor |].
  assert (Hu : NoDup (uniq (optsAll (de_label el) (de_nearby el) [])) /\
               (length (uniq (optsAll (de_label el) (de_nearby el) [])) <= 8)%nat /\
               forall o, In o (uniq (optsAll (de_label el) (de_nearby el) [])) ->
                         o <> "" /\ o <> de_label el).
  { split; [apply uniq_NoDup|]. split.
    - pose proof (uniq_length_le (optsAll (de_label el) (de_nearby el) [])). lia.
    - intros o Hin. rewrite uniq_In in Hin. rewrite Forall_forall in Ho.
      apply Ho. now apply list_elem_of_In. }
  destruct type; cbn [a_type a_href a_options a_label].
  - split; [exact Hnav|]. split; [tauto|]. split; [discriminate|]. discriminate.
  - split; [exact Hnav|]. split; [split; discriminate|]. split; [discriminate|].
    now intros opts [= <-].
  - split; [exact Hnav|]. split; [split; discriminate|]. split.
    + intros _. destruct Hg as [Hg|Hg]; [exact Hg|].
      rewrite (Htog eq_refl) in Hg. discriminate.
    + now intros opts [= <-].
Qed.

Variable max : Z.

Let bound (n : nat) : Prop := (Z.of_nat n <= Z.max 1 max)%Z.
Let room (n : nat) : Prop := (Z.of_nat n < Z.max 1 max)%Z.

Lemma harvestNodes_spec nodes out seen :
  room (length out) -> Forall wellFormedAction out ->
  bound (length (fst (harvestNodes max nodes (out, seen)))) /\
  Forall wellFormedAction (fst (harvestNodes max nodes (out, seen))).
Proof.
  subst bound room. cbn beta. revert out seen.
  induction nodes as [|el l IH]; intros out seen Hr Hw; cbn [harvestNodes fst];
    [split; [lia | exact Hw]|].
  destruct (bool_decide (de_id el ∈ seen)); [now apply IH|].
  destruct (negb (de_visible el) || de_disabled el); [now apply IH|].
  destruct (negb (truthy (de_label el)) && negb (de_tag el =? "a")) eqn:Eg; [now apply IH|].
  assert (Hw' : Forall wellFormedAction (out ++ [actionOf el])).
  { apply Forall_app. split; [exact Hw|]. constructor; [|constructor].
    apply actionOf_wellFormed. apply andb_false_iff in Eg as [Eg|Eg].
    - left. apply negb_false_iff in Eg. now apply truthy_true.
    - right. apply negb_false_iff in Eg. now apply String.eqb_eq. }
  destruct (max <=? Z.of_nat (length (out ++ [actionOf el])))%Z eqn:Em.
  - cbn [fst]. split; [rewrite length_app; cbn; lia | exact Hw'].
  - apply Z.leb_gt in Em. apply IH; [lia | exact Hw'].
Qed.

Lemma harvestQueries_spec queries acc :
  room (length (fst acc)) -> Forall wellFormedAction (fst acc) ->
  bound (length (fst (harvestQueries max queries acc))) /\
  Forall wellFormedAction (fst (harvestQueries max queries acc)).
Proof.
  revert acc. induction queries as [|nodes l IH]; intros acc Hr Hw; cbn [harvestQueries].
  - split; [subst bound room; cbn beta in *; lia | exact Hw].
  - destruct acc as [out seen].
    destruct (harvestNodes_spec nodes out seen Hr Hw) as [Hb Hw'].
    destruct (max <=? Z.of_nat (length (fst (harvestNodes max nodes (out, seen)))))%Z eqn:Em;
      [now split|].
    apply Z.leb_gt in Em. apply IH; [subst bound room; cbn beta in *; lia | exact Hw'].
Qed.

Lemma harvestRoots_spec roots acc :
  room (length (fst acc)) -> Forall wellFormedAction (fst acc) ->
  bound (length (fst (harvestRoots max roots acc))) /\
  Forall wellFormedAction (fst (harvestRoots max roots acc)).
Proof.
  revert acc. induction roots as [|queries l IH]; intros acc Hr Hw; cbn [harvestRoots].
  - split; [subst bound room; cbn beta in *; lia | exact Hw].
  - destruct (harvestQueries_spec queries acc Hr Hw) as [Hb Hw'].
    destruct (max <=? Z.of_nat (length (fst (harvestQueries max queries acc))))%Z eqn:Em;
      [now split|].
    apply Z.leb_gt in Em. apply IH; [subst bound room; cbn beta in *; lia | exact Hw'].
Qed.

Lemma uniqBySig_spec sig l :
  NoDup (map actionKey (uniqBySig sig l)) /\
  (forall a, In a (uniqBySig sig l) -> In a l /\ actionKey a ∉ sig) /\
  (length (uniqBySig sig l) <= length l)%nat.
Proof.
  revert sig. induction l as [|a t IH]; intros sig; cbn [uniqBySig].
  - split; [constructor|]. split; [intros a []|lia].
  - destruct (has (actionKey a) sig) eqn:Eh.
    + destruct (IH sig) as [A [B C]]. split; [exact A|]. split; [|cbn; lia].
      intros x Hx. destruct (B x Hx). split; [now right | assumption].
    + apply has_false in Eh. destruct (IH ({[actionKey a]} ∪ sig)) as [A [B C]].
      split; [|split; [|cbn; lia]].
      * cbn [map]. apply NoDup_cons. split; [|exact A].
        intros Hin. apply list_elem_of_In, in_map_iff in Hin as [x [Ex Hx]].
        destruct (B x Hx) as [_ Hn]. apply Hn. rewrite Ex.
        apply elem_of_union. left. now apply elem_of_singleton.
      * intros x [<-|Hx]; [split; [now left | exact Eh]|].
        destruct (B x Hx) as [Hin Hn]. split; [now right|].
        intros Hs. apply Hn. apply elem_of_union. now right.
Qed.

Lemma harvest_spec dom :
  bound (length (harvest max dom)) /\ Forall wellFormedAction (harvest max dom) /\
  NoDup (map actionKey (harvest max dom)).
Proof.
  unfold harvest.
  destruct (harvestRoots_spec dom ([], ∅)) as [Hb Hw];
    [subst bound room; cbn; lia | constructor |].
  destruct (uniqBySig_spec ∅ (fst (harvestRoots max dom ([], ∅)))) as [A [B C]].
  split; [subst bound room; cbn beta in *; lia|]. split; [|exact A].
  apply Forall_forall. intros a Ha. apply list_elem_of_In in Ha.
  destruct (B a Ha) as [Hin _]. rewrite Forall_forall in Hw. apply Hw.
  now apply list_elem_of_In.
Qed.

End ExtractFacts.

Lemma extract_cases limit probes dom hovered :
  extract limit probes dom hovered = harvest (nullish limit 3000%Z) dom \/
  exists dom',
    hovered = Some dom' /\ nullish probes true = true /\
    extract limit probes dom hovered =
    harvest (nullish limit 3000%Z) dom ++
    uniqBySig (list_to_set (map actionKey (harvest (nullish limit 3000%Z) dom)))
              (harvest (nullish limit 3000%Z) dom').
Proof.
  unfold extract. destruct (nullish probes true); [|now left].
  destruct hovered as [dom'|]; [|now left]. right. now exists dom'.
Qed.

(** Every action [extract] returns is a navigation exactly when it carries
    an href, which is then non-empty, and exactly when it has no options
    list; every toggle is labelled; and an options list has at most 8
    distinct, non-empty labels, none of them the action's own label. *)
Theorem extract_actions_well_formed
    (limit : option Z) (probes : option bool)
    (dom : list (list (list DomEl))) (hovered : option (list (list (list DomEl))))
    (a : Action) :
  In a (extract limit probes dom hovered) -> wellFormedAction a.
Proof.
  intros Ha.
  assert (Hh : forall d x, In x (harvest (nullish limit 3000%Z) d) -> wellFormedAction x).
  { intros d x Hx. destruct (harvest_spec (nullish limit 3000%Z) d) as [_ [Hw _]].
    rewrite Forall_forall in Hw. apply Hw. now apply list_elem_of_In. }
  destruct (extract_cases limit probes dom hovered) as [E|[dom' [_ [_ E]]]];
    rewrite E in Ha; [now apply (Hh dom)|].
  apply in_app_iff in Ha as [Ha|Ha]; [now apply (Hh dom)|].
  apply uniqBySig_spec in Ha as [Ha _]. now apply (Hh dom').
Qed.

(** [extract] never returns two actions with the same signature (type,
    label, href and selector); what the first harvest found comes first and
    in its order, and probing only appends actions found by the second
    harvest; with probing off, or when probing fails, the result is the
    first harvest. *)
Theorem extract_keeps_first_harvest
    (limit : option Z) (probes : option bool)
    (dom : list (list (list DomEl))) (hovered : option (list (list (list DomEl)))) :
  let first := harvest (nullish limit 3000%Z) dom in
  NoDup (map actionKey (extract limit probes dom hovered)) /\
  (exists more,
      extract limit probes dom hovered = first ++ more /\
      forall a, In a more ->
        exists dom', hovered = Some dom' /\ In a (harvest (nullish limit 3000%Z) dom')) /\
  (probes = Some false \/ hovered = None -> extract limit probes dom hovered = first).
Proof.
  cbn zeta.
  destruct (harvest_spec (nullish limit 3000%Z) dom) as [_ [_ Hnd]].
  split; [|split].
  - destruct (extract_cases limit probes dom hovered) as [E|[dom' [_ [_ E]]]];
      rewrite E; [exact Hnd|].
    rewrite map_app. apply NoDup_app. split; [exact Hnd|]. split.
    + intros k Hk Hk'. apply list_elem_of_In, in_map_iff in Hk' as [x [Ex Hx]].
      apply uniqBySig_spec in Hx as [_ Hn]. apply Hn. rewrite Ex.
      now apply elem_of_list_to_set.
    + apply uniqBySig_spec.
  - destruct (extract_cases limit probes dom hovered) as [E|[dom' [Eh [_ E]]]]; rewrite E.
    + exists []. split; [now rewrite app_nil_r | intros a []].
    + eexists. split; [reflexivity|]. intros a Ha. exists dom'. split; [exact Eh|].
      now apply uniqBySig_spec in Ha as [Ha _].
  - unfold extract. intros [-> | ->]; [reflexivity|]. now destruct (nullish probes true).
Qed.

(** For an integer limit (or none), one harvest returns at most
    [max(1, limit)] actions, the limit being tested after each push, and
    [extract] at most twice as many: the second harvest has the same limit and
    its new actions are appended. *)
Theorem extract_size_bounded
    (limit : option Z) (probes : option bool)
    (dom : list (list (list DomEl))) (hovered : option (list (list (list DomEl)))) :
  (Z.of_nat (length (harvest (nullish limit 3000%Z) dom)) <= Z.max 1 (nullish limit 3000))%Z /\
  (Z.of_nat (length (extract limit probes dom hovered))
   <= 2 * Z.max 1 (nullish limit 3000))%Z.
Proof.
  assert (Hh : forall d, (Z.of_nat (length (harvest (nullish limit 3000%Z) d))
                          <= Z.max 1 (nullish limit 3000))%Z).
  { intros d. now destruct (harvest_spec (nullish limit 3000%Z) d) as [Hb _]. }
  split; [apply Hh|].
  destruct (extract_cases limit probes dom hovered) as [E|[dom' [_ [_ E]]]]; rewrite E.
  - specialize (Hh dom). lia.
  - rewrite length_app.
    pose proof (proj2 (proj2 (uniqBySig_spec
      (list_to_set (map actionKey (harvest (nullish limit 3000%Z) dom)))
      (harvest (nullish limit 3000%Z) dom')))).
    pose proof (Hh dom). pose proof (Hh dom'). lia.
Qed.

Lemma extract_actions_well_formed_witness :
  wellFormedAction (mkAction Click "Menu" None "#m" (Some ["Logout"; "Docs"])).
Proof.
  apply (extract_actions_well_formed None None DemoDom.dom (Some DemoDom.dom)).
  vm_compute. right. left. reflexivity.
Defined.

(** ** Escaping for the DOT output *)

Module EscFacts.

#[local] Arguments String.append !s1 s2 : simpl nomatch.

Lemma esc_cons c t :
  esc (String c t) =
  if Ascii.eqb c backslash then String backslash (String backslash (esc t))
  else if Ascii.eqb c dquote then String backslash (String dquote (esc t))
  else String c (esc t).
Proof.
  unfold esc. cbn [replaceAll].
  destruct (Ascii.eqb_spec c backslash) as [->|Hb]; [reflexivity|].
  cbn [replaceAll]. destruct (Ascii.eqb_spec c dquote) as [->|Hq]; reflexivity.
Qed.

End EscFacts.

(** Whatever the text, its escaped form can stand between two quotes of
    the DOT output: it leaves no quote bare and no backslash dangling, so the
    closing quote written after it is the first one that closes the string. *)
Theorem esc_fits_between_quotes (s : string) : quotable (esc s) = true.
Proof.
  induction s as [|c t IH]; [reflexivity|].
  rewrite EscFacts.esc_cons.
  destruct (Ascii.eqb_spec c backslash) as [->|Hb]; [exact IH|].
  destruct (Ascii.eqb_spec c dquote) as [->|Hq]; [exact IH|].
  cbn [quotable]. apply Ascii.eqb_neq in Hb, Hq. now rewrite Hb, Hq.
Qed.

(** ** Navigation lines of the DOT output *)

Section NavLineFacts.
Context `{Platform}.

Lemma isEdgeOf_navLine r s d src dst :
  isEdgeOf (esc src) (esc dst) (navLine r s d) = (s =? src) && (d =? dst).
Proof.
  destruct (navLine_shape r s d) as [attrs ->]. cbn [isEdgeOf].
  destruct (String.eqb_spec s src) as [->|Hs].
  - rewrite String.eqb_refl. cbn [andb].
    destruct (String.eqb_spec d dst) as [->|Hd]; [apply String.eqb_refl|].
    apply String.eqb_neq. intros Hc. now apply esc_inj in Hc.
  - assert (E : (esc s =? esc src) = false)
      by (apply String.eqb_neq; intros Hc; now apply esc_inj in Hc).
    now rewrite E.
Qed.

Lemma count_navLines_other r s outs src dst :
  s <> src ->
  List.filter (isEdgeOf (esc src) (esc dst)) (map (navLine r s) outs) = [].
Proof.
  intros Hs. induction outs as [|d l IH]; [reflexivity|].
  cbn [map List.filter]. rewrite isEdgeOf_navLine.
  apply String.eqb_neq in Hs. rewrite Hs. exact IH.
Qed.

Lemma count_navLines_same r src outs dst :
  length (List.filter (isEdgeOf (esc src) (esc dst)) (map (navLine r src) outs)) =
  length (List.filter (fun d => d =? dst) outs).
Proof.
  induction outs as [|d l IH]; [reflexivity|].
  cbn [map List.filter]. rewrite isEdgeOf_navLine, String.eqb_refl. cbn [andb].
  destruct (d =? dst); cbn [length]; now rewrite IH.
Qed.

Lemma count_navLines r (g : list (string * list string)) src outs dst :
  NoDup (akeys g) -> In (src, outs) g ->
  length (List.filter (isEdgeOf (esc src) (esc dst))
            (flat_map (fun so => map (navLine r (fst so)) (uniq (snd so))) g)) =
  length (List.filter (fun d => d =? dst) (uniq outs)).
Proof.
  induction g as [|[s o] g IH]; intros Hnd Hin; [destruct Hin|].
  cbn [akeys map fst] in Hnd. apply NoDup_cons in Hnd as [Hs Hnd].
  cbn [flat_map fst snd]. rewrite List.filter_app, length_app.
  destruct Hin as [[= -> ->]|Hin].
  - rewrite count_navLines_same.
    assert (E : List.filter (isEdgeOf (esc src) (esc dst))
                  (flat_map (fun so => map (navLine r (fst so)) (uniq (snd so))) g) = []).
    { clear IH Hnd. induction g as [|[s' o'] g IHg]; [reflexivity|].
      cbn [flat_map fst snd]. rewrite List.filter_app.
      rewrite count_navLines_other, IHg; [reflexivity | |].
      - intros Hc. apply Hs. cbn [akeys map fst]. apply list_elem_of_In. right.
        now apply list_elem_of_In in Hc.
      - intros ->. apply Hs. cbn [akeys map fst]. apply list_elem_of_In. now left. }
    rewrite E. cbn. lia.
  - rewrite count_navLines_other, IH by
      (try assumption; intros ->; apply Hs; apply list_elem_of_In;
       unfold akeys; apply in_map_iff; now exists (src, outs)).
    reflexivity.
Qed.

End NavLineFacts.

(** However often [graph] lists a link under a page, the navigation
    section of the DOT output draws it once: for a graph whose keys are
    distinct, it holds exactly one line from [src] to [dst] for every [dst]
    listed under [src]. *)
Theorem toDot_draws_listed_link_once `{Platform}
    (r : CrawlResult) (src dst : string) (outs : list string) :
  NoDup (akeys (r_graph r)) -> In (src, outs) (r_graph r) -> In dst outs ->
  length (List.filter (isEdgeOf (esc src) (esc dst)) (navLines r)) = 1%nat.
Proof.
  intros Hnd Hs Hd. unfold navLines. rewrite (count_navLines r _ src outs dst Hnd Hs).
  apply (count_in_NoDup (fun x => x)); [auto | apply uniq_NoDup | now apply uniq_In].
Qed.

Lemma toDot_draws_listed_link_once_witness :
  length (List.filter (isEdgeOf (esc "a") (esc "b"))
            (navLines (mkCrawlResult [] [("a", ["b"; "c"; "b"]); ("b", ["a"])] []))) = 1%nat.
Proof.
  apply (toDot_draws_listed_link_once
           (mkCrawlResult [] [("a", ["b"; "c"; "b"]); ("b", ["a"])] [])
           "a" "b" ["b"; "c"; "b"]).
  - cbn. repeat constructor; rewrite ?list_elem_of_In; cbn; intuition discriminate.
  - left. reflexivity.
  - left. reflexivity.
Defined.

(** ** The first crawler *)

Module LegacyFacts.
Import Legacy.

Lemma queued_true u q : queued u q = true <-> In u (map q_url q).
Proof.
  unfold queued. rewrite existsb_exists, in_map_iff. split.
  - intros [e [He E]]. apply String.eqb_eq in E. now exists e.
  - intros [e [E He]]. exists e. split; [exact He | now apply String.eqb_eq].
Qed.

Lemma has_insert u x (v : gset string) : has u ({[x]} ∪ v) = (x =? u) || has u v.
Proof.
  destruct (String.eqb_spec x u) as [->|Hne]; cbn [orb].
  - apply has_true, elem_of_union. left. now apply elem_of_singleton.
  - destruct (has u v) eqn:E.
    + apply has_true. apply has_true in E. apply elem_of_union. now right.
    + apply has_false. apply has_false in E. rewrite elem_of_union, elem_of_singleton.
      intros [Hc|Hc]; congruence.
Qed.

Lemma staleCount_snoc v q e :
  staleCount v (q ++ [e]) =
  (staleCount v q + (if has (q_url e) v || queued (q_url e) q then 1 else 0))%nat.
Proof.
  revert v. induction q as [|x q IH]; intros v; cbn [app staleCount].
  - cbn. rewrite orb_false_r. lia.
  - rewrite IH, has_insert. unfold queued at 2. cbn [existsb].
    fold (queued (q_url e) q).
    replace ((q_url x =? q_url e) || has (q_url e) v || queued (q_url e) q)
      with (has (q_url e) v || ((q_url x =? q_url e) || queued (q_url e) q))
      by (destruct (q_url x =? q_url e), (has (q_url e) v), (queued (q_url e) q); reflexivity).
    lia.
Qed.

Lemma staleCount_visited v e rest :
  has (q_url e) v = true -> staleCount v (e :: rest) = S (staleCount v rest).
Proof.
  intros Hv. cbn [staleCount]. rewrite Hv. apply has_true in Hv.
  replace ({[q_url e]} ∪ v) with v; [reflexivity|].
  apply set_eq. intros x. rewrite elem_of_union, elem_of_singleton.
  split; [now right | intros [->|Hx]; assumption].
Qed.

Lemma staleCount_fresh v e rest :
  has (q_url e) v = false -> staleCount v (e :: rest) = staleCount ({[q_url e]} ∪ v) rest.
Proof. intros Hv. cbn [staleCount]. now rewrite Hv. Qed.

Lemma staleCount_le v q : (staleCount v q <= length q)%nat.
Proof.
  revert v. induction q as [|e q IH]; intros v; cbn [staleCount length]; [lia|].
  specialize (IH ({[q_url e]} ∪ v)). destruct (has (q_url e) v); lia.
Qed.

Section Facts.
Context `{Platform}.
Variable browser : nat -> string -> Load.
Variables (so : bool) (md mp : Z).

(** One action either leaves the accumulator alone or appends a target
    that passed the origin check and is neither visited nor queued. *)
Lemma legacy_actionStep_spec bo seen normalized depth nextUrls q a :
  actionStep so md bo seen normalized depth (nextUrls, q) a = (nextUrls, q) \/
  exists u,
    originBlocked so bo u = false /\ (u ∉ seen) /\ queued u q = false /\
    actionStep so md bo seen normalized depth (nextUrls, q) a =
    (nextUrls ++ [u],
     if (depth + 1 <=? md)%Z then q ++ [mkQueueEntry u (depth + 1)] else q).
Proof.
  unfold actionStep. destruct (a_type a); [|now left|now left].
  destruct (resolveHref normalized (a_href a)) as [abs|]; [|now left].
  destruct (negb (truthy abs)); [now left|].
  destruct (originBlocked so bo (normalizeUrl abs)) eqn:Eo; [now left|].
  destruct (has (normalizeUrl abs) seen) eqn:Eh; cbn [negb andb]; [now left|].
  destruct (queued (normalizeUrl abs) q) eqn:Eq; cbn [negb]; [now left|].
  right. exists (normalizeUrl abs). apply has_false in Eh. now repeat split.
Qed.

(** What the scan of a page's actions keeps true. *)
Lemma scan_inv (I : list string * list QueueEntry -> Prop) bo seen normalized depth
    items acc :
  (forall nextUrls q u,
      I (nextUrls, q) -> originBlocked so bo u = false -> u ∉ seen -> queued u q = false ->
      I (nextUrls ++ [u],
         if (depth + 1 <=? md)%Z then q ++ [mkQueueEntry u (depth + 1)] else q)) ->
  I acc ->
  I (fold_left (actionStep so md bo seen normalized depth) items acc).
Proof.
  intros Hstep. revert acc. induction items as [|a l IH]; intros acc Hacc; cbn [fold_left];
    [exact Hacc|].
  apply IH. destruct acc as [nextUrls q].
  destruct (legacy_actionStep_spec bo seen normalized depth nextUrls q a)
    as [E|[u [Ho [Hs [Hq E]]]]]; rewrite E; [exact Hacc|].
  now apply Hstep.
Qed.

Lemma pageStep_fields st e rest cur items :
  visited (pageStep so md st e rest cur items) = {[q_url e]} ∪ visited st /\
  pages (pageStep so md st e rest cur items) =
    pages st ++ [mkPageVisit (normalizeUrl cur) (q_depth e) items] /\
  exists nextUrls,
    graph (pageStep so md st e rest cur items) = aset (normalizeUrl cur) nextUrls (graph st) /\
    (nextUrls, queue (pageStep so md st e rest cur items)) =
    fold_left (actionStep so md (originOf (q_url e)) ({[q_url e]} ∪ visited st)
                          (normalizeUrl cur) (q_depth e)) items ([], rest).
Proof.
  unfold pageStep.
  destruct (fold_left _ items ([], rest)) as [nextUrls queue'] eqn:E. cbn.
  split; [reflexivity|]. split; [reflexivity|]. now exists nextUrls.
Qed.

Lemma pageStep_stale st e rest cur items :
  staleCount (visited (pageStep so md st e rest cur items))
             (queue (pageStep so md st e rest cur items)) =
  staleCount ({[q_url e]} ∪ visited st) rest.
Proof.
  destruct (pageStep_fields st e rest cur items) as [-> [_ [nextUrls [_ Hq]]]].
  pose proof (scan_inv
    (fun acc => staleCount ({[q_url e]} ∪ visited st) (snd acc) =
                staleCount ({[q_url e]} ∪ visited st) rest)
    (originOf (q_url e)) ({[q_url e]} ∪ visited st) (normalizeUrl cur) (q_depth e)
    items ([], rest)) as Hinv.
  rewrite <- Hq in Hinv. apply Hinv; [|reflexivity].
  intros n q u Hacc _ Hs Hqd. cbn [snd] in *.
  destruct (q_depth e + 1 <=? md)%Z; [|exact Hacc].
  rewrite staleCount_snoc. cbn [q_url]. apply has_false in Hs. rewrite Hs, Hqd. cbn. lia.
Qed.

(** The loop condition has failed when the loop finishes. *)
Lemma loop_finished fuel clock st st' :
  loop browser fuel so md mp clock st = Finished st' -> running mp st' = false.
Proof.
  revert clock st. induction fuel as [|n IH]; intros clock st; cbn [loop];
    destruct (running mp st) eqn:Er; try discriminate; try (now intros [= <-]).
  destruct (queue st) as [|e rest] eqn:Eq.
  - unfold running in Er. rewrite Eq in Er. discriminate.
  - destruct (has (q_url e) (visited st)); [apply IH|].
    destruct (browser clock (q_url e)) as [|cur items]; [discriminate | apply IH].
Qed.

(** The crawl is rejected exactly when one of its requests is, and a
    rejected request is the last one made. *)
Lemma loop_requests fuel clock st :
  (loop browser fuel so md mp clock st = Rejected <->
   Exists (LegacyTrace.failed browser) (LegacyTrace.requests browser fuel so md mp clock st)) /\
  forall l r l',
    LegacyTrace.requests browser fuel so md mp clock st = l ++ r :: l' ->
    LegacyTrace.failed browser r -> l' = [].
Proof.
  assert (Hnil : forall l (r : nat * string) l', [] = l ++ r :: l' -> False)
    by (intros [|x l] r l'; discriminate).
  assert (Hno : forall X : Prop, Exists (LegacyTrace.failed browser) [] -> X)
    by (intros X Hx; inversion Hx).
  revert clock st. induction fuel as [|n IH]; intros clock st;
    cbn [loop LegacyTrace.requests]; destruct (running mp st).
  - split; [split; [discriminate | apply Hno]|]. intros l r l' E. now apply Hnil in E.
  - split; [split; [discriminate | apply Hno]|]. intros l r l' E. now apply Hnil in E.
  - destruct (queue st) as [|e rest].
    { split; [split; [discriminate | apply Hno]|]. intros l r l' E. now apply Hnil in E. }
    destruct (has (q_url e) (visited st)); [apply IH|].
    destruct (browser clock (q_url e)) as [|cur items] eqn:Eb.
    + split.
      * split; [intros _; now constructor | reflexivity].
      * intros [|x l] r l' E _; [now injection E as _ <- |].
        injection E as _ E. now apply Hnil in E.
    + destruct (IH (S clock) (pageStep so md st e rest cur items)) as [I1 I2]. split.
      * rewrite I1. split; [now constructor 2|].
        intros Hx. inversion Hx as [? ? Hf|? ? Hf]; subst; [|exact Hf].
        unfold LegacyTrace.failed in Hf. cbn [fst snd] in Hf. congruence.
      * intros [|x l] r l' E Hf.
        -- injection E as <- _. unfold LegacyTrace.failed in Hf. cbn [fst snd] in Hf.
           congruence.
        -- injection E as _ E. now apply (I2 l r l').
  - split; [split; [discriminate | apply Hno]|]. intros l r l' E. now apply Hnil in E.
Qed.

(** Enough rounds: one per page still allowed and one per stale entry. *)
Lemma loop_fuel fuel clock st :
  (staleCount (visited st) (queue st) + Z.to_nat (mp - pagesLen st) <= fuel)%nat ->
  loop browser fuel so md mp clock st <> OutOfFuel.
Proof.
  revert clock st. induction fuel as [|n IH]; intros clock st Hm; cbn [loop];
    destruct (running mp st) eqn:Er; try discriminate.
  - unfold running in Er. apply andb_true_iff in Er as [_ Hp]. apply Z.ltb_lt in Hp. lia.
  - pose proof Er as Er'. unfold running in Er'. apply andb_true_iff in Er' as [_ Hp].
    apply Z.ltb_lt in Hp.
    destruct (queue st) as [|e rest] eqn:Eq; [discriminate|].
    destruct (has (q_url e) (visited st)) eqn:Eh.
    + apply IH. cbn [visited queue]. unfold pagesLen in *. cbn [pages].
      rewrite (staleCount_visited _ _ _ Eh) in Hm. lia.
    + destruct (browser clock (q_url e)) as [|cur items]; [discriminate|].
      apply IH. rewrite pageStep_stale.
      rewrite (staleCount_fresh _ _ _ Eh) in Hm.
      destruct (pageStep_fields st e rest cur items) as [_ [Hpg _]].
      unfold pagesLen in *. rewrite Hpg, length_app. cbn [length]. lia.
Qed.

(** An invariant of the loop holds in the state it finishes in. *)
Lemma loop_inv (P : State -> Prop) fuel clock st st' :
  (forall st e rest,
      P st -> queue st = e :: rest -> has (q_url e) (visited st) = true ->
      P {| queue := rest; visited := visited st; pages := pages st; graph := graph st |}) ->
  (forall st e rest cur items,
      P st -> queue st = e :: rest -> running mp st = true ->
      has (q_url e) (visited st) = false ->
      P (pageStep so md st e rest cur items)) ->
  P st -> loop browser fuel so md mp clock st = Finished st' -> P st'.
Proof.
  intros Hskip Hpage. revert clock st.
  induction fuel as [|n IH]; intros clock st HP; cbn [loop];
    destruct (running mp st) eqn:Er; try discriminate; try (now intros [= <-]).
  destruct (queue st) as [|e rest] eqn:Eq; [now intros [= <-]|].
  destruct (has (q_url e) (visited st)) eqn:Eh; [apply IH; now apply (Hskip st e rest)|].
  destruct (browser clock (q_url e)) as [|cur items]; [discriminate|].
  apply IH. now apply Hpage.
Qed.

(** A rejected request for the head of the queue rejects the loop. *)
Lemma loop_head_rejected fuel clock st e rest :
  running mp st = true -> queue st = e :: rest ->
  has (q_url e) (visited st) = false -> browser clock (q_url e) = Crashed ->
  loop browser (S fuel) so md mp clock st = Rejected.
Proof. intros Er Eq Eh Eb. cbn [loop]. now rewrite Er, Eq, Eh, Eb. Qed.

(** Pages within the budget, depths within bounds. *)
Lemma bounds_pageStep st e rest cur items :
  queue st = e :: rest -> running mp st = true ->
  (pagesLen st <= Z.max 0 mp)%Z /\
  Forall (fun p => (0 <= p_depth p <= Z.max 0 md)%Z) (pages st) /\
  Forall (fun x => (0 <= q_depth x <= Z.max 0 md)%Z) (queue st) ->
  (pagesLen (pageStep so md st e rest cur items) <= Z.max 0 mp)%Z /\
  Forall (fun p => (0 <= p_depth p <= Z.max 0 md)%Z)
         (pages (pageStep so md st e rest cur items)) /\
  Forall (fun x => (0 <= q_depth x <= Z.max 0 md)%Z)
         (queue (pageStep so md st e rest cur items)).
Proof.
  intros Eq Er [Hp [Hd Hq]]. rewrite Eq in Hq. inversion Hq as [|? ? He Hrest]; subst.
  unfold running in Er. apply andb_true_iff in Er as [_ Er]. apply Z.ltb_lt in Er.
  destruct (pageStep_fields st e rest cur items) as [_ [Hpg [nextUrls [_ Hsc]]]].
  unfold pagesLen in *. rewrite Hpg, length_app. cbn [length]. split; [lia|]. split.
  - apply Forall_app. split; [exact Hd|]. constructor; [exact He | constructor].
  - pose proof (scan_inv
      (fun acc => Forall (fun x => (0 <= q_depth x <= Z.max 0 md)%Z) (snd acc))
      (originOf (q_url e)) ({[q_url e]} ∪ visited st) (normalizeUrl cur) (q_depth e)
      items ([], rest)) as Hinv.
    rewrite <- Hsc in Hinv. apply Hinv; [|exact Hrest].
    intros n q u Hacc _ _ _. cbn [snd] in *.
    destruct (q_depth e + 1 <=? md)%Z eqn:El; [|exact Hacc].
    apply Z.leb_le in El. apply Forall_app. split; [exact Hacc|].
    constructor; [cbn; lia | constructor].
Qed.

(** [graph] has an entry for exactly the recorded pages. *)
Lemma keys_pageStep st e rest cur items :
  (forall u, alookup u (graph st) <> None <-> In u (map p_url (pages st))) ->
  forall u, alookup u (graph (pageStep so md st e rest cur items)) <> None <->
            In u (map p_url (pages (pageStep so md st e rest cur items))).
Proof.
  intros Hk u.
  destruct (pageStep_fields st e rest cur items) as [_ [-> [nextUrls [-> _]]]].
  rewrite map_app, in_app_iff. cbn [map p_url In].
  destruct (String.eqb_spec (normalizeUrl cur) u) as [->|Hne].
  - rewrite alookup_aset_eq. split; [intros _; right; now left | discriminate].
  - rewrite alookup_aset_ne by assumption. rewrite Hk. split; [now left|].
    intros [Hu|[Hu|[]]]; [exact Hu | contradiction].
Qed.

End Facts.

End LegacyFacts.

(** For integer budgets, the first crawler always comes to an end within
    its bound on the number of rounds; it is rejected exactly when one of the
    requests it made is rejected, and that request is the last one it made;
    and when it finishes, the loop condition has failed (the queue is empty or
    the page budget is used up), there are at most [max(0, maxPages)] pages,
    and every depth lies between 0 and [max(0, maxDepth)]. *)
Theorem legacy_crawl_ends_within_budget `{Platform}
    (browser : nat -> string -> Legacy.Load) (o : Legacy.CrawlOptions) :
  Legacy.crawlOutcome browser o <> Legacy.OutOfFuel /\
  (Legacy.crawlOutcome browser o = Legacy.Rejected <->
   Exists (LegacyTrace.failed browser) (LegacyTrace.crawlRequests browser o)) /\
  (forall l r l',
      LegacyTrace.crawlRequests browser o = l ++ r :: l' ->
      LegacyTrace.failed browser r -> l' = []) /\
  forall st,
    Legacy.crawlOutcome browser o = Legacy.Finished st ->
    Legacy.running (Legacy.optMaxPages o) st = false /\
    (Z.of_nat (length (Legacy.pages st)) <= Z.max 0 (Legacy.optMaxPages o))%Z /\
    Forall (fun p => (0 <= Legacy.p_depth p <= Z.max 0 (Legacy.optMaxDepth o))%Z)
           (Legacy.pages st).
Proof.
  unfold Legacy.crawlOutcome, LegacyTrace.crawlRequests. split; [|split; [|split]].
  - apply LegacyFacts.loop_fuel. cbn [Legacy.initialState Legacy.visited Legacy.queue].
    pose proof (LegacyFacts.staleCount_le ∅
                  (map (fun s => Legacy.mkQueueEntry (normalizeUrl s) 0) (Legacy.o_seeds o))).
    rewrite length_map in *. unfold Legacy.pagesLen. cbn. lia.
  - apply LegacyFacts.loop_requests.
  - apply LegacyFacts.loop_requests.
  - intros st Hf. split; [eapply LegacyFacts.loop_finished; exact Hf|].
    assert (Hinv :
      (Legacy.pagesLen st <= Z.max 0 (Legacy.optMaxPages o))%Z /\
      Forall (fun p => (0 <= Legacy.p_depth p <= Z.max 0 (Legacy.optMaxDepth o))%Z)
             (Legacy.pages st) /\
      Forall (fun x => (0 <= Legacy.q_depth x <= Z.max 0 (Legacy.optMaxDepth o))%Z)
             (Legacy.queue st)).
    { revert Hf.
      apply (LegacyFacts.loop_inv browser _ _ _
               (fun st =>
                  (Legacy.pagesLen st <= Z.max 0 (Legacy.optMaxPages o))%Z /\
                  Forall (fun p => (0 <= Legacy.p_depth p
                                    <= Z.max 0 (Legacy.optMaxDepth o))%Z) (Legacy.pages st) /\
                  Forall (fun x => (0 <= Legacy.q_depth x
                                    <= Z.max 0 (Legacy.optMaxDepth o))%Z) (Legacy.queue st))).
      - intros st0 e rest [Hp [Hd Hq]] Eq _. cbn. split; [exact Hp|]. split; [exact Hd|].
        rewrite Eq in Hq. now inversion Hq.
      - intros st0 e rest cur items HP Eq Er _. now apply LegacyFacts.bounds_pageStep.
      - unfold Legacy.pagesLen. cbn. split; [lia|]. split; [constructor|].
        apply Forall_forall. intros x Hx. apply list_elem_of_In, in_map_iff in Hx as [s [<- _]].
        cbn. lia. }
    destruct Hinv as [Hp [Hd _]]. now split.
Qed.

(** The first crawler does not survive a failed request: when the page
    budget is positive and the request for the first seed is rejected, the
    crawl is rejected. *)
Theorem legacy_crawl_rejects_on_failed_seed `{Platform}
    (browser : nat -> string -> Legacy.Load) (o : Legacy.CrawlOptions)
    (s : string) (others : list string) :
  Legacy.o_seeds o = s :: others -> (0 < Legacy.optMaxPages o)%Z ->
  browser 0%nat (normalizeUrl s) = Legacy.Crashed ->
  Legacy.crawl browser o = None.
Proof.
  intros Hs Hp Hb. unfold Legacy.crawl, Legacy.crawlOutcome. rewrite Hs.
  change (length (s :: others) + Z.to_nat (Legacy.optMaxPages o))%nat
    with (S (length others + Z.to_nat (Legacy.optMaxPages o))).
  rewrite (LegacyFacts.loop_head_rejected browser _ _ _ _ _ _
             (Legacy.mkQueueEntry (normalizeUrl s) 0)
             (map (fun s => Legacy.mkQueueEntry (normalizeUrl s) 0) others));
    [reflexivity | | reflexivity | | exact Hb].
  - unfold Legacy.running, Legacy.pagesLen. cbn. now apply Z.ltb_lt.
  - apply has_false, not_elem_of_empty.
Qed.

Lemma legacy_crawl_rejects_on_failed_seed_witness :
  Legacy.crawl Legacy.demoBrowser
    (Legacy.mkCrawlOptions ["https://example.com/gone"] None None None None) = None.
Proof.
  apply (legacy_crawl_rejects_on_failed_seed Legacy.demoBrowser
           (Legacy.mkCrawlOptions ["https://example.com/gone"] None None None None)
           "https://example.com/gone" []);
    [reflexivity | reflexivity | reflexivity].
Defined.

(** When the first crawler returns, its graph has an entry for exactly the
    canonical URLs of the pages it recorded. *)
Theorem legacy_graph_keys_are_pages `{Platform}
    (browser : nat -> string -> Legacy.Load) (o : Legacy.CrawlOptions)
    (r : Legacy.CrawlResult) :
  Legacy.crawl browser o = Some r ->
  forall u, alookup u (Legacy.r_graph r) <> None <->
            In u (map Legacy.p_url (Legacy.r_pages r)).
Proof.
  unfold Legacy.crawl.
  destruct (Legacy.crawlOutcome browser o) as [st| |] eqn:Ec; try discriminate.
  intros [= <-]. cbn [Legacy.r_graph Legacy.r_pages].
  revert Ec. unfold Legacy.crawlOutcome.
  apply (LegacyFacts.loop_inv browser _ _ _
           (fun st => forall u, alookup u (Legacy.graph st) <> None <->
                                In u (map Legacy.p_url (Legacy.pages st)))).
  - intros st0 e rest HP _ _. exact HP.
  - intros st0 e rest cur items HP _ _ _. now apply LegacyFacts.keys_pageStep.
  - intros u. cbn. split; [congruence | tauto].
Qed.

Lemma legacy_graph_keys_are_pages_witness :
  alookup "https://example.com/b"
          [("https://example.com/a", ["https://example.com/b"]);
           ("https://example.com/b", [])] <> None <->
  In "https://example.com/b" ["https://example.com/a"; "https://example.com/b"].
Proof.
  apply (legacy_graph_keys_are_pages Legacy.demoBrowser Legacy.demoOptions
           (Legacy.mkCrawlResult
              [Legacy.mkPageVisit "https://example.com/a" 0
                 [mkAction Navigate "B" (Some "/b") "a" None;
                  mkAction Navigate "Self" (Some "/a") "a" None;
                  mkAction Navigate "Ext" (Some "https://other.com/") "a" None];
               Legacy.mkPageVisit "https://example.com/b" 1
                 [mkAction Navigate "A" (Some "/a") "a" None]]
              [("https://example.com/a", ["https://example.com/b"]);
               ("https://example.com/b", [])])).
  vm_compute. reflexivity.
Defined.

(** ** The first DOT exporter *)

Module LegacyDotFacts.
Import Legacy.

Lemma filter_decls id nodes :
  length (List.filter (isDeclOf id) (map (fun n => NodeDecl (esc n) (esc n)) nodes)) =
  length (List.filter (fun n => esc n =? id) nodes).
Proof.
  induction nodes as [|n l IH]; [reflexivity|].
  cbn [map List.filter isDeclOf]. destruct (esc n =? id); cbn [length]; now rewrite IH.
Qed.

Lemma filter_edges id (g : list (string * list string)) :
  List.filter (isDeclOf id)
    (flat_map (fun so => map (fun dst => EdgeLine (esc (fst so)) (esc dst)) (snd so)) g) = [].
Proof.
  induction g as [|[s outs] g IH]; [reflexivity|].
  cbn [flat_map fst snd]. rewrite List.filter_app, IH, app_nil_r.
  induction outs as [|d outs IHo]; [reflexivity | exact IHo].
Qed.

Lemma legacy_declCount id r :
  declCount id (toDotLines r) = length (List.filter (fun n => esc n =? id) (dotNodes r)).
Proof.
  unfold declCount, toDotLines. rewrite !List.filter_app, !length_app.
  rewrite filter_decls, filter_edges. cbn. lia.
Qed.

Lemma legacy_edge_ends r src dst :
  In (EdgeLine src dst) (toDotLines r) ->
  exists s d outs,
    src = esc s /\ dst = esc d /\ In (s, outs) (r_graph r) /\ In d outs.
Proof.
  unfold toDotLines. intros Hin.
  apply in_app_or in Hin as [Hin|Hin].
  { cbn in Hin. destruct Hin as [Hc|[Hc|[Hc|[]]]]; discriminate. }
  apply in_app_or in Hin as [Hin|Hin].
  { apply in_map_iff in Hin as [n [Hc _]]. discriminate. }
  apply in_app_or in Hin as [Hin|Hin].
  - apply in_flat_map in Hin as [[s outs] [Hso Hin]]. cbn [fst snd] in Hin.
    apply in_map_iff in Hin as [d [[= <- <-] Hd]]. now exists s, d, outs.
  - cbn in Hin. destruct Hin as [Hc|[]]. discriminate.
Qed.

End LegacyDotFacts.

(** In the output of the first [toDot], every edge line stands for a link
    [dst] listed under a key [src] of the graph, and each of its two ends is
    declared by exactly one node line, whose label is the escaped URL
    itself. *)
Theorem legacy_dot_edge_ends_declared_once
    (r : Legacy.CrawlResult) (src dst : string) :
  In (Legacy.EdgeLine src dst) (Legacy.toDotLines r) ->
  Legacy.declCount src (Legacy.toDotLines r) = 1%nat /\
  Legacy.declCount dst (Legacy.toDotLines r) = 1%nat /\
  In (Legacy.NodeDecl src src) (Legacy.toDotLines r) /\
  In (Legacy.NodeDecl dst dst) (Legacy.toDotLines r) /\
  exists s d outs,
    src = esc s /\ dst = esc d /\ In (s, outs) (Legacy.r_graph r) /\ In d outs.
Proof.
  intros Hin.
  destruct (LegacyDotFacts.legacy_edge_ends r src dst Hin) as [s [d [outs [-> [-> [Hs Hd]]]]]].
  assert (Ns : In s (Legacy.dotNodes r)).
  { unfold Legacy.dotNodes. rewrite uniq_In, in_app_iff. left.
    unfold akeys. apply in_map_iff. now exists (s, outs). }
  assert (Nd : In d (Legacy.dotNodes r)).
  { unfold Legacy.dotNodes. rewrite uniq_In, in_app_iff. right.
    apply in_concat. exists outs. split; [|exact Hd]. apply in_map_iff. now exists (s, outs). }
  assert (Hdecl : forall n, In n (Legacy.dotNodes r) ->
                            In (Legacy.NodeDecl (esc n) (esc n)) (Legacy.toDotLines r)).
  { intros n Hn. unfold Legacy.toDotLines. apply in_or_app. right. apply in_or_app. left.
    apply in_map_iff. now exists n. }
  rewrite !LegacyDotFacts.legacy_declCount.
  split; [apply count_in_NoDup; [apply esc_inj | apply uniq_NoDup | exact Ns]|].
  split; [apply count_in_NoDup; [apply esc_inj | apply uniq_NoDup | exact Nd]|].
  split; [now apply Hdecl|]. split; [now apply Hdecl|]. now exists s, d, outs.
Qed.

Lemma legacy_dot_edge_ends_declared_once_witness :
  Legacy.declCount (esc "https://example.com/a")
    (Legacy.toDotLines (Legacy.mkCrawlResult []
       [("https://example.com/a", ["https://example.com/b"]);
        ("https://example.com/b", [])])) = 1%nat.
Proof.
  refine (proj1 (legacy_dot_edge_ends_declared_once
                   (Legacy.mkCrawlResult []
                      [("https://example.com/a", ["https://example.com/b"]);
                       ("https://example.com/b", [])])
                   (esc "https://example.com/a") (esc "https://example.com/b") _)).
  vm_compute. do 5 right. left. reflexivity.
Defined.

(** ** The first crawler and the same-origin option *)

Module LegacyOriginFacts.
Import Legacy.

Section Facts.
Context `{Platform}.
Variables (md : Z) (seeds : list string).

Hypothesis Hseeds : forall s, In s seeds -> exists og, originOf s = Some og /\ og <> "".

Lemma origin_pageStep st e rest cur items :
  queue st = e :: rest ->
  (forall x, In x (queue st) -> onSeedOrigin seeds (q_url x)) /\
  (forall u v, In v (entry u (graph st)) -> onSeedOrigin seeds v) ->
  (forall x, In x (queue (pageStep true md st e rest cur items)) ->
             onSeedOrigin seeds (q_url x)) /\
  (forall u v, In v (entry u (graph (pageStep true md st e rest cur items))) ->
               onSeedOrigin seeds v).
Proof.
  intros Eq [Hq Hg].
  destruct (Hq e) as [s [Hs Hos]]; [rewrite Eq; now left|].
  destruct (Hseeds s Hs) as [og [Hog Hne]].
  destruct (LegacyFacts.pageStep_fields true md st e rest cur items)
    as [_ [_ [nextUrls [Egr Hsc]]]].
  pose proof (LegacyFacts.scan_inv true md
    (fun acc => (forall v, In v (fst acc) -> onSeedOrigin seeds v) /\
                (forall x, In x (snd acc) -> onSeedOrigin seeds (q_url x)))
    (originOf (q_url e)) ({[q_url e]} ∪ visited st) (normalizeUrl cur) (q_depth e)
    items ([], rest)) as Hinv.
  rewrite <- Hsc in Hinv. cbn [fst snd] in Hinv.
  destruct Hinv as [Hn Hq'].
  - intros n q u [In1 In2] Hb _ _.
    assert (Hu : onSeedOrigin seeds u).
    { exists s. split; [exact Hs|]. rewrite Hos, Hog in *.
      now apply originBlocked_sameOrigin in Hb. }
    split.
    + intros v Hv. apply in_app_iff in Hv as [Hv|[<-|[]]]; [now apply In1 | exact Hu].
    + destruct (q_depth e + 1 <=? md)%Z; [|exact In2].
      intros x Hx. apply in_app_iff in Hx as [Hx|[<-|[]]]; [now apply In2 | exact Hu].
  - split; [intros v []|]. intros x Hx. apply Hq. rewrite Eq. now right.
  - split; [exact Hq'|]. intros u v Hv. rewrite Egr, entry_aset in Hv.
    destruct (normalizeUrl cur =? u); [now apply Hn | now apply (Hg u)].
Qed.

End Facts.

End LegacyOriginFacts.

(** With [sameOrigin] on and canonicalized seeds whose origins are known,
    every URL the first crawler lists in its graph has the origin of one of
    the canonicalized seeds: a link is kept only if its origin is that of the
    URL that was requested for the page. *)
Theorem legacy_crawl_stays_on_seed_origins `{Platform}
    (browser : nat -> string -> Legacy.Load) (o : Legacy.CrawlOptions)
    (r : Legacy.CrawlResult) :
  Legacy.optSameOrigin o = true ->
  (forall s, In s (map normalizeUrl (Legacy.o_seeds o)) ->
             exists og, originOf s = Some og /\ og <> "") ->
  Legacy.crawl browser o = Some r ->
  forall u v, In v (entry u (Legacy.r_graph r)) ->
              onSeedOrigin (map normalizeUrl (Legacy.o_seeds o)) v.
Proof.
  intros Hso Hseeds. unfold Legacy.crawl.
  destruct (Legacy.crawlOutcome browser o) as [st| |] eqn:Ec; try discriminate.
  intros [= <-]. cbn [Legacy.r_graph].
  revert Ec. unfold Legacy.crawlOutcome. rewrite Hso. intros Ec.
  apply (LegacyFacts.loop_inv browser _ _ _
           (fun st =>
              (forall x, In x (Legacy.queue st) ->
                         onSeedOrigin (map normalizeUrl (Legacy.o_seeds o)) (Legacy.q_url x)) /\
              (forall u v, In v (entry u (Legacy.graph st)) ->
                           onSeedOrigin (map normalizeUrl (Legacy.o_seeds o)) v))) in Ec.
  - apply Ec.
  - intros st0 e rest [Hq Hg] Eq _. cbn. split; [|exact Hg].
    intros x Hx. apply Hq. rewrite Eq. now right.
  - intros st0 e rest cur items HP Eq _ _.
    now apply (LegacyOriginFacts.origin_pageStep _ _ Hseeds).
  - cbn. split; [|intros u v []].
    intros x Hx. apply in_map_iff in Hx as [s [<- Hs]]. cbn.
    exists (normalizeUrl s). split; [now apply in_map | reflexivity].
Qed.

Lemma legacy_crawl_stays_on_seed_origins_witness :
  onSeedOrigin (map normalizeUrl (Legacy.o_seeds Legacy.demoOptions))
               "https://example.com/b".
Proof.
  refine (legacy_crawl_stays_on_seed_origins Legacy.demoBrowser Legacy.demoOptions
            (Legacy.mkCrawlResult
               [Legacy.mkPageVisit "https://example.com/a" 0
                  [mkAction Navigate "B" (Some "/b") "a" None;
                   mkAction Navigate "Self" (Some "/a") "a" None;
                   mkAction Navigate "Ext" (Some "https://other.com/") "a" None];
                Legacy.mkPageVisit "https://example.com/b" 1
                  [mkAction Navigate "A" (Some "/a") "a" None]]
               [("https://example.com/a", ["https://example.com/b"]);
                ("https://example.com/b", [])])
            _ _ _ "https://example.com/a" "https://example.com/b" _).
  - reflexivity.
  - intros s [<-|[]]. eexists. split; [vm_compute; reflexivity | discriminate].
  - vm_compute. reflexivity.
  - left. reflexivity.
Defined.
